(** * Numeriq add-in: formula parsing, dependency graph, flow classification
      and range comparison

    A shallow embedding of the pure logic of
    [src/utils/formulaParser.ts] (classes [FormulaParser],
    [KeyboardShortcutManager] and [ExcelHelper]),
    [src/utils/calculationFlow.ts] ([CalculationFlowAnalyzer]) and
    [src/utils/comparisonHelper.ts] ([ComparisonHelper]).

    Conventions of the embedding.
    - A JavaScript string is a list of characters ([str]); characters are
      8-bit code units, which is exact for the ASCII/Latin-1 part of UTF-16
      (every character the regular expressions of the code name is ASCII).
    - A JavaScript number that holds an integer (row, column, index, counter)
      is a [Z]; doubles are exact on integers up to 2^53, and the theorems
      about coordinates carry that bound.  Cell values are IEEE-754 doubles
      ([float], the kernel's primitive binary64).
    - A thrown exception is [None] in an [option] result.
    - A [Map] is an insertion-ordered association list with unique keys. *)

From Stdlib Require Import Ascii String List ZArith NArith Lia Bool Arith.
From Stdlib Require Import DecimalString DecimalFacts DecimalZ DecimalN DecimalPos.
From Stdlib Require Import Floats Permutation.
Import ListNotations.

Local Open Scope Z_scope.
Set Warnings "-inexact-float".

(** ** Strings *)

Definition str := list ascii.

Definition s (x : string) : str := list_ascii_of_string x.

Definition str_eqb (a b : str) : bool :=
  if list_eq_dec ascii_dec a b then true else false.

Definition chr_eqb (a b : ascii) : bool := Ascii.eqb a b.

(** The double quote character. *)
Definition dquote : ascii := "034"%char.

Definition code (c : ascii) : Z := Z.of_N (N_of_ascii c).

Definition isUpper (c : ascii) : bool := (65 <=? code c) && (code c <=? 90).
Definition isLower (c : ascii) : bool := (97 <=? code c) && (code c <=? 122).
Definition isDigit (c : ascii) : bool := (48 <=? code c) && (code c <=? 57).

(** [[A-Z]] under the [i] flag. *)
Definition isLetter (c : ascii) : bool := isUpper c || isLower c.
(** [\w] *)
Definition isWord (c : ascii) : bool := isLetter c || isDigit c || chr_eqb c "_".
(** [.] : anything but a line terminator. *)
Definition isDot (c : ascii) : bool := negb ((code c =? 10) || (code c =? 13)).
(** [\s], and the characters [trim] removes. *)
Definition isSpace (c : ascii) : bool :=
  ((9 <=? code c) && (code c <=? 13)) || (code c =? 32) || (code c =? 160).

Definition isChar (x : string) (c : ascii) : bool :=
  match x with
  | String a EmptyString => chr_eqb c a
  | _ => false
  end.

(** [s.startsWith(p)] *)
Fixpoint startsWith (p x : str) : bool :=
  match p, x with
  | [], _ => true
  | a :: p', b :: x' => chr_eqb a b && startsWith p' x'
  | _ :: _, [] => false
  end.

(** [s.substring(a, b)] for [0 <= a] (indices beyond the end are clamped,
    and [substring] swaps its arguments when [a > b]). *)
Definition substring (a b : nat) (x : str) : str :=
  firstn (Nat.max a b - Nat.min a b) (skipn (Nat.min a b) x).

(** [s.substring(a)] *)
Definition substringFrom (a : nat) (x : str) : str := skipn a x.

Fixpoint trimStart (x : str) : str :=
  match x with
  | c :: x' => if isSpace c then trimStart x' else x
  | [] => []
  end.

Definition trim (x : str) : str := rev (trimStart (rev (trimStart x))).

(** [s.split(sep)] for a one-character separator. *)
Fixpoint split_aux (sep : ascii) (cur : str) (x : str) : list str :=
  match x with
  | [] => [rev cur]
  | c :: x' => if chr_eqb c sep then rev cur :: split_aux sep [] x'
               else split_aux sep (c :: cur) x'
  end.

Definition split (sep : ascii) (x : str) : list str := split_aux sep [] x.

(** [s.includes(c)] for a one-character argument. *)
Definition includes (c : ascii) (x : str) : bool := existsb (chr_eqb c) x.

(** ** Regular expressions

    The backtracking matcher of ECMAScript (a matcher takes a state and a
    continuation), for the constructs the patterns of the code use.
    Quantifiers are applied to character classes only, which is all the
    patterns need. *)

Inductive regex : Type :=
| Eps
| Class (p : ascii -> bool)
| Seq (r1 r2 : regex)
| Alt (r1 r2 : regex)
| Star (p : ascii -> bool)       (* greedy  [c]*  *)
| StarLazy (p : ascii -> bool)   (* lazy    [c]*? *)
| Group (n : nat) (r : regex)    (* capture group number n *)
| Bol                            (* ^ *)
| Eol.                           (* $ *)

Definition Opt (r : regex) : regex := Alt r Eps.         (* r? *)
Definition Plus (p : ascii -> bool) : regex := Seq (Class p) (Star p).  (* [c]+ *)
Definition Chr (x : string) : regex := Class (isChar x).

Declare Scope regex_scope.
Delimit Scope regex_scope with re.
Notation "a >> b" := (Seq a b) (at level 61, right associativity) : regex_scope.
Notation "a <|> b" := (Alt a b) (at level 65, right associativity) : regex_scope.

Record MatchState : Type := mkState {
  ms_rest : str;                    (* input not yet consumed *)
  ms_pos : nat;                     (* index of the next character *)
  ms_caps : list (nat * str)        (* captures set so far, latest first *)
}.

Definition Cont := MatchState -> option MatchState.

Definition orElse (a : option MatchState) (b : unit -> option MatchState) :=
  match a with
  | Some x => Some x
  | None => b tt
  end.

Fixpoint starGreedy (p : ascii -> bool) (rest : str) (pos : nat)
    (caps : list (nat * str)) (k : Cont) : option MatchState :=
  match rest with
  | c :: rest' =>
      if p c
      then orElse (starGreedy p rest' (S pos) caps k)
                  (fun _ => k (mkState rest pos caps))
      else k (mkState rest pos caps)
  | [] => k (mkState rest pos caps)
  end.

Fixpoint starLazy (p : ascii -> bool) (rest : str) (pos : nat)
    (caps : list (nat * str)) (k : Cont) : option MatchState :=
  orElse (k (mkState rest pos caps))
         (fun _ => match rest with
                   | c :: rest' => if p c then starLazy p rest' (S pos) caps k else None
                   | [] => None
                   end).

Fixpoint matcher (r : regex) (st : MatchState) (k : Cont) : option MatchState :=
  match r with
  | Eps => k st
  | Class p =>
      match ms_rest st with
      | c :: rest' => if p c then k (mkState rest' (S (ms_pos st)) (ms_caps st)) else None
      | [] => None
      end
  | Seq r1 r2 => matcher r1 st (fun st1 => matcher r2 st1 k)
  | Alt r1 r2 => orElse (matcher r1 st k) (fun _ => matcher r2 st k)
  | Star p => starGreedy p (ms_rest st) (ms_pos st) (ms_caps st) k
  | StarLazy p => starLazy p (ms_rest st) (ms_pos st) (ms_caps st) k
  | Group n r1 =>
      matcher r1 st (fun st1 =>
        k (mkState (ms_rest st1) (ms_pos st1)
             ((n, firstn (ms_pos st1 - ms_pos st) (ms_rest st)) :: ms_caps st1)))
  | Bol => if Nat.eqb (ms_pos st) 0 then k st else None
  | Eol => match ms_rest st with [] => k st | _ :: _ => None end
  end.

(** One attempt at the current position. *)
Definition matchHere (r : regex) (rest : str) (pos : nat) : option MatchState :=
  matcher r (mkState rest pos []) Some.

(** The value of capture group [n] ([undefined] is [None]). *)
Fixpoint capture (n : nat) (caps : list (nat * str)) : option str :=
  match caps with
  | [] => None
  | (m, v) :: caps' => if Nat.eqb m n then Some v else capture n caps'
  end.

(** A match: where it starts, where it ends, the text, the captures. *)
Record Match : Type := mkMatch {
  m_index : nat;
  m_end : nat;
  m_text : str;
  m_caps : list (nat * str)
}.

Definition toMatch (rest : str) (pos : nat) (st : MatchState) : Match :=
  mkMatch pos (ms_pos st) (firstn (ms_pos st - pos) rest) (ms_caps st).

(** Capture [n] of a match as a text, as inside a template literal. *)
Definition captureText (n : nat) (m : Match) : str :=
  match capture n (m_caps m) with
  | Some v => v
  | None => s "undefined"
  end.

(** [str.match(r)] / [r.exec(str)] without the [g] flag: the leftmost match. *)
Fixpoint searchFrom (r : regex) (rest : str) (pos : nat) : option Match :=
  match matchHere r rest pos with
  | Some st => Some (toMatch rest pos st)
  | None => match rest with
            | [] => None
            | _ :: rest' => searchFrom r rest' (S pos)
            end
  end.

Definition regexMatch (r : regex) (x : str) : option Match := searchFrom r x 0%nat.

(** [r.test(str)] *)
Definition regexTest (r : regex) (x : str) : bool :=
  match regexMatch r x with Some _ => true | None => false end.

(** The loop [while ((match = pattern.exec(x)) !== null)] of a [g] pattern:
    all matches, left to right, each search starting where the previous match
    ended.  [skip] counts the characters of the last match still to step
    over.  (A pattern that matched the empty string would make that loop spin
    forever; the patterns used with it all consume at least two characters,
    and the model then stops.) *)
Fixpoint execAll (r : regex) (rest : str) (pos skip : nat) : list Match :=
  match skip with
  | S skip' =>
      match rest with
      | [] => []
      | _ :: rest' => execAll r rest' (S pos) skip'
      end
  | O =>
      match matchHere r rest pos with
      | Some st =>
          toMatch rest pos st ::
          match (ms_pos st - pos)%nat, rest with
          | S len, _ :: rest' => execAll r rest' (S pos) len
          | _, _ => []
          end
      | None =>
          match rest with
          | [] => []
          | _ :: rest' => execAll r rest' (S pos) 0%nat
          end
      end
  end.

(** [x.replace(r, repl)] for a [g] pattern and a replacement text without
    [$] patterns. *)
Fixpoint replaceAll (r : regex) (repl : str) (rest : str) (pos skip : nat) : str :=
  match skip with
  | S skip' =>
      match rest with
      | [] => []
      | _ :: rest' => replaceAll r repl rest' (S pos) skip'
      end
  | O =>
      match matchHere r rest pos with
      | Some st =>
          repl ++
          match (ms_pos st - pos)%nat, rest with
          | S len, _ :: rest' => replaceAll r repl rest' (S pos) len
          | O, c :: rest' => c :: replaceAll r repl rest' (S pos) 0%nat
          | _, [] => []
          end
      | None =>
          match rest with
          | [] => []
          | c :: rest' => c :: replaceAll r repl rest' (S pos) 0%nat
          end
      end
  end.

(** ** The patterns of the code *)

Local Open Scope regex_scope.

(** [\$?[A-Z]+\$?\d+] *)
Definition reCell : regex :=
  Opt (Chr "$") >> Plus isLetter >> Opt (Chr "$") >> Plus isDigit.

(** [(\[.*?\])?(\w+!)?] *)
Definition reQualifier : regex :=
  Opt (Group 1 (Chr "[" >> StarLazy isDot >> Chr "]")) >>
  Opt (Group 2 (Plus isWord >> Chr "!")).

(** [/(\[.*?\])?(\w+!)?(\$?[A-Z]+\$?\d+(?::\$?[A-Z]+\$?\d+)?)/gi], the
    pattern of [extractPrecedents] and of [normalizeFormula]. *)
Definition rePrecedent : regex :=
  reQualifier >> Group 3 (reCell >> Opt (Chr ":" >> reCell)).

(** [/([A-Z]+)(\d+)/i], the pattern of [addressToCoords]. *)
Definition reAddress : regex :=
  Group 1 (Plus isLetter) >> Group 2 (Plus isDigit).

Local Close Scope regex_scope.

(** ** Numbers and their text *)

(** [parseInt(x, 10)] on a text made of decimal digits only, as the capture
    [(\d+)] always is ([None] stands for [NaN]). *)
Definition parseInt (x : str) : option Z :=
  option_map Z.of_uint (NilZero.uint_of_string (string_of_list_ascii x)).

(** The text of an integer number, as in a template literal. *)
Definition numberToString (n : Z) : str :=
  list_ascii_of_string (NilZero.string_of_int (Z.to_int n)).

(** [String.fromCharCode(n)] *)
Definition fromCharCode (n : Z) : ascii := ascii_of_N (Z.to_N n).

(** ** Addresses and coordinates ([ExcelHelper] and, word for word the same,
    [CalculationFlowAnalyzer]) *)

Record Coords : Type := mkCoords { row : Z; col : Z }.

(** [columnToNumber]: [num = num * 26 + (column.charCodeAt(i) - 64)]. *)
Definition columnToNumber (column : str) : Z :=
  fold_left (fun num c => num * 26 + (code c - 64)) column 0.

(** [addressToCoords]: the first match of [/([A-Z]+)(\d+)/i]; no match
    throws [Invalid cell address]. *)
Definition addressToCoords (address : str) : option Coords :=
  match regexMatch reAddress address with
  | None => None
  | Some m =>
      match capture 1 (m_caps m), capture 2 (m_caps m) with
      | Some letters, Some digits =>
          match parseInt digits with
          | Some r => Some (mkCoords r (columnToNumber letters))
          | None => None
          end
      | _, _ => None
      end
  end.

(** The loop of [numberToColumn]; [fuel] bounds the number of iterations. *)
Fixpoint numberToColumn_loop (fuel : nat) (num : Z) (column : str) : str :=
  match fuel with
  | O => column
  | S fuel' =>
      if num >? 0 then
        let remainder := Z.rem (num - 1) 26 in
        numberToColumn_loop fuel' ((num - 1) / 26)
          (fromCharCode (65 + remainder) :: column)
      else column
  end.

(** [numberToColumn]: every iteration divides [num] by 26 at least, so
    [1 + log2 num] iterations are enough (lemma [numberToColumn_loop_fuel]). *)
Definition numberToColumn (num : Z) : str :=
  numberToColumn_loop (S (Z.to_nat (Z.log2 num))) num [].

(** The address of a row and a column, [`${numberToColumn(col)}${row}`]:
    the last line of [ExcelHelper.getCellAddress] and the [getAddress] of
    [CalculationFlowAnalyzer]. *)
Definition coordinatesToAddress (r c : Z) : str :=
  numberToColumn c ++ numberToString r.

(** [ExcelHelper.getCellAddress(rangeAddress, rowOffset, colOffset)] *)
Definition getCellAddress (rangeAddress : str) (rowOffset colOffset : Z)
    : option str :=
  let baseAddress := nth 0 (split ":" rangeAddress) [] in
  match addressToCoords baseAddress with
  | None => None
  | Some coords =>
      let newRow := row coords + rowOffset in
      let newCol := col coords + colOffset in
      Some (coordinatesToAddress newRow newCol)
  end.

(** The round trip of the specification:
    [coordinatesToAddress(addressToCoordinates(a))]. *)
Definition addressRoundTrip (a : str) : option str :=
  option_map (fun c => coordinatesToAddress (row c) (col c)) (addressToCoords a).

(** The [normalize] of the specification: the address without its [$]. *)
Definition stripDollar (a : str) : str :=
  filter (fun c => negb (chr_eqb c "$")) a.

(** A well-formed address in the words of the specification: an optional
    [$], column letters, an optional [$], row digits. *)
Definition wellFormedAddress (a : str) : bool :=
  regexTest (Seq Bol (Seq reCell Eol)) a.

(** ** The dependency graph and the flow classification
    ([src/utils/calculationFlow.ts]) *)

Module CalculationFlowAnalyzer.

(** The value type of the [Map] built by [buildDependencyGraph]. *)
Record DepInfo : Type := mkInfo {
  precedents : list str;
  dependents : list str;
  formula : str
}.

(** [Map<string, DepInfo>]: entries in insertion order, keys unique. *)
Definition DepMap := list (str * DepInfo).

Fixpoint mapGet (k : str) (m : DepMap) : option DepInfo :=
  match m with
  | [] => None
  | (k', v) :: m' => if str_eqb k' k then Some v else mapGet k m'
  end.

(** [Map.set]: an existing key keeps its place, a new key goes last. *)
Fixpoint mapSet (k : str) (v : DepInfo) (m : DepMap) : DepMap :=
  match m with
  | [] => [(k, v)]
  | (k', v') :: m' => if str_eqb k' k then (k, v) :: m' else (k', v') :: mapSet k v m'
  end.

Definition keys (m : DepMap) : list str := map fst m.

Inductive ScopeType : Type := Workbook | Worksheet | Range.

Record FocusArea : Type := mkFocus {
  focusSheetName : option str;
  focusRangeAddress : option str
}.

Record AnalysisScope : Type := mkScope {
  scopeType : ScopeType;
  sheetName : option str;
  rangeAddress : option str;
  focusArea : option FocusArea
}.

(** What the host returns for a loaded range: its [address]
    ([Sheet1!A1:C3]) and its [formulas] grid ([rowCount] rows of
    [columnCount] texts). *)
Record RangeData : Type := mkRange {
  rd_address : str;
  rd_formulas : list (list str)
}.

(** The host workbook: the names of its worksheets, and the loading of a
    range of a sheet ([Some a]: [sheet.getRange(a)], [None]:
    [sheet.getUsedRange()]); a failing host call is [None]. *)
Record Host : Type := mkHost {
  worksheetNames : list str;
  loadRange : str -> option str -> option RangeData
}.

(** [match[2].replace('!', '')]: the first [!] removed. *)
Fixpoint removeFirst (c : ascii) (x : str) : str :=
  match x with
  | [] => []
  | a :: x' => if chr_eqb a c then x' else a :: removeFirst c x'
  end.

(** [extractPrecedents(formula, currentSheet)] *)
Definition extractPrecedents (formula currentSheet : str) : list str :=
  map (fun m =>
         let sheet := match capture 2 (m_caps m) with
                      | Some (c :: g) => removeFirst "!" (c :: g)
                      | _ => currentSheet
                      end in
         let address := captureText 3 m in
         sheet ++ s "!" ++ address)
      (execAll rePrecedent formula 0 0).

(** [getAddress(row, col)]: [`${columnLetter}${row}`] *)
Definition getAddress (r c : Z) : str := coordinatesToAddress r c.

(** The body of the two [for] loops of the first pass, for one cell. *)
Definition scanCell (sheet : str) (base : Coords) (r c : nat)
    (cell : option str) (dependencies : DepMap) : DepMap :=
  match cell with
  | Some (ch :: f) =>
      let formula := ch :: f in
      if startsWith (s "=") formula then
        let cellAddress := getAddress (row base + Z.of_nat r) (col base + Z.of_nat c) in
        let fullAddress := sheet ++ s "!" ++ cellAddress in
        mapSet fullAddress (mkInfo (extractPrecedents formula sheet) [] formula)
               dependencies
      else dependencies
  | _ => dependencies
  end.

Definition cellAt {A : Type} (grid : list (list A)) (r c : nat) : option A :=
  match nth_error grid r with
  | Some line => nth_error line c
  | None => None
  end.

Definition scanRange (sheet : str) (base : Coords) (formulas : list (list str))
    (dependencies : DepMap) : DepMap :=
  let rowCount := length formulas in
  let columnCount := length (nth 0 formulas []) in
  fold_left (fun deps r =>
               fold_left (fun deps' c => scanCell sheet base r c (cellAt formulas r c) deps')
                         (seq 0 columnCount) deps)
            (seq 0 rowCount) dependencies.

(** [range.address.split('!')[1].split(':')[0]], then [addressToCoords]. *)
Definition baseCoordsOf (address : str) : option Coords :=
  match nth_error (split "!" address) 1 with
  | None => None
  | Some a => addressToCoords (nth 0 (split ":" a) [])
  end.

(** One turn of [for (const sheetName of sheets)]. *)
Definition scanSheet (host : Host) (scope : AnalysisScope) (sheet : str)
    (dependencies : DepMap) : option DepMap :=
  let wanted := match scopeType scope, rangeAddress scope with
                | Range, Some (c :: a) => Some (c :: a)
                | _, _ => None
                end in
  match loadRange host sheet wanted with
  | None => None
  | Some range =>
      match baseCoordsOf (rd_address range) with
      | None => None
      | Some base => Some (scanRange sheet base (rd_formulas range) dependencies)
      end
  end.

Fixpoint scanSheets (host : Host) (scope : AnalysisScope) (sheets : list str)
    (dependencies : DepMap) : option DepMap :=
  match sheets with
  | [] => Some dependencies
  | sheet :: sheets' =>
      match scanSheet host scope sheet dependencies with
      | None => None
      | Some deps' => scanSheets host scope sheets' deps'
      end
  end.

(** The sheets of the scope. *)
Definition sheetsOf (host : Host) (scope : AnalysisScope) : option (list str) :=
  match scopeType scope with
  | Workbook => Some (worksheetNames host)
  | _ => option_map (fun n => [n]) (sheetName scope)
  end.

(** The first pass: every formula cell of the scope gets its entry. *)
Definition firstPass (host : Host) (scope : AnalysisScope) : option DepMap :=
  match sheetsOf host scope with
  | None => None
  | Some sheets => scanSheets host scope sheets []
  end.

(** The body of [for (const precedent of info.precedents)]. *)
Definition addDependent (address : str) (dependencies : DepMap) (precedent : str)
    : DepMap :=
  match mapGet precedent dependencies with
  | Some precedentInfo =>
      mapSet precedent
        (mkInfo (precedents precedentInfo)
                (dependents precedentInfo ++ [address])
                (formula precedentInfo))
        dependencies
  | None =>
      mapSet precedent (mkInfo [] [address] []) dependencies
  end.

(** The second pass, [for (const [address, info] of dependencies.entries())].
    The iterator of a [Map] is live: entries the loop body adds are visited
    too, so the loop runs over index [i] until it passes the last entry of
    the map as it then is.  [fuel] bounds the number of turns; [None] is
    running out of it. *)
Fixpoint reverseLoop (fuel i : nat) (dependencies : DepMap) : option DepMap :=
  match nth_error dependencies i with
  | None => Some dependencies
  | Some (address, info) =>
      match fuel with
      | O => None
      | S fuel' =>
          reverseLoop fuel' (S i)
            (fold_left (addDependent address) (precedents info) dependencies)
      end
  end.

(** Turns the second pass can take at most: one per entry, and every entry
    it adds comes from one precedent of a scanned cell. *)
Definition reverseFuel (dependencies : DepMap) : nat :=
  (length dependencies +
   length (concat (map (fun e => precedents (snd e)) dependencies)))%nat.

Definition secondPass (dependencies : DepMap) : option DepMap :=
  reverseLoop (reverseFuel dependencies) 0 dependencies.

(** [buildDependencyGraph(context, scope)] *)
Definition buildDependencyGraph (host : Host) (scope : AnalysisScope)
    : option DepMap :=
  match firstPass host scope with
  | None => None
  | Some dependencies => secondPass dependencies
  end.

(** [isAddressInRange(cellAddress, rangeAddress)]; [cellAddress] is
    [undefined] when the key has no [!]. *)
Definition isAddressInRange (cellAddress : option str) (range : str) : option bool :=
  if negb (includes ":" range) then
    Some (match cellAddress with
          | Some a => str_eqb a range
          | None => false
          end)
  else
    let parts := split ":" range in
    match addressToCoords (nth 0 parts []) with
    | None => None
    | Some startCoords =>
        match option_map addressToCoords (nth_error parts 1) with
        | Some (Some endCoords) =>
            match option_map addressToCoords cellAddress with
            | Some (Some cellCoords) =>
                Some ((row cellCoords >=? row startCoords) &&
                      (row cellCoords <=? row endCoords) &&
                      (col cellCoords >=? col startCoords) &&
                      (col cellCoords <=? col endCoords))
            | _ => None
            end
        | _ => None
        end
    end.

(** [sheetName === scope.sheetName] *)
Definition sameSheet (name : str) (scopeSheet : option str) : bool :=
  match scopeSheet with
  | Some n => str_eqb name n
  | None => false
  end.

(** [isInScope(address, scope)] *)
Definition isInScope (address : str) (scope : AnalysisScope) : option bool :=
  let parts := split "!" address in
  let name := nth 0 parts [] in
  let cellAddress := nth_error parts 1 in
  match scopeType scope with
  | Workbook => Some true
  | Worksheet => Some (sameSheet name (sheetName scope))
  | Range =>
      if sameSheet name (sheetName scope) then
        match rangeAddress scope with
        | Some range => isAddressInRange cellAddress range
        | None => None
        end
      else Some false
  end.

(** [dependencies.get(p)?.formula] as a condition. *)
Definition hasFormula (dependencies : DepMap) (p : str) : bool :=
  match mapGet p dependencies with
  | Some info => match formula info with [] => false | _ :: _ => true end
  | None => false
  end.

(** The predicate of the two [filter] calls:
    [isInScope(p, scope) && dependencies.get(p)?.formula]. *)
Definition countsInScope (dependencies : DepMap) (scope : AnalysisScope)
    (p : str) : option bool :=
  match isInScope p scope with
  | None => None
  | Some false => Some false
  | Some true => Some (hasFormula dependencies p)
  end.

(** [Array.filter] with a predicate that may throw. *)
Fixpoint filterThrow (f : str -> option bool) (l : list str) : option (list str) :=
  match l with
  | [] => Some []
  | x :: l' =>
      match f x with
      | None => None
      | Some b =>
          match filterThrow f l' with
          | None => None
          | Some r => Some (if b then x :: r else r)
          end
      end
  end.

Record CellGroup : Type := mkGroup {
  cells : list str;
  description : str;
  color : str
}.

Record FlowColors : Type := mkColors {
  c_inputs : str; c_calculations : str; c_outputs : str; c_orphans : str;
  c_inflows : str; c_outflows : str;
  c_outsidePrecedents : str; c_outsideDependents : str
}.

Record FlowAnalysisResult : Type := mkResult {
  inputs : list CellGroup;
  calculations : list CellGroup;
  outputs : list CellGroup;
  orphans : list CellGroup
}.

(** The four arrays the loop of [analyzeInputsOutputs] fills. *)
Record Buckets : Type := mkBuckets {
  b_inputs : list str;
  b_calculations : list str;
  b_outputs : list str;
  b_orphans : list str
}.

(** The body of the loop of [analyzeInputsOutputs] for one entry. *)
Definition classifyEntry (dependencies : DepMap) (scope : AnalysisScope)
    (b : Buckets) (entry : str * DepInfo) : option Buckets :=
  let (address, info) := entry in
  match formula info with
  | [] => Some b
  | _ :: _ =>
      match filterThrow (countsInScope dependencies scope) (precedents info) with
      | None => None
      | Some inScopePrecedents =>
          match filterThrow (countsInScope dependencies scope) (dependents info) with
          | None => None
          | Some inScopeDependents =>
              let hasPrecedents := (0 <? length inScopePrecedents)%nat in
              let hasDependents := (0 <? length inScopeDependents)%nat in
              Some (
                if negb hasPrecedents && negb hasDependents then
                  mkBuckets (b_inputs b) (b_calculations b) (b_outputs b)
                            (b_orphans b ++ [address])
                else if negb hasPrecedents && hasDependents then
                  mkBuckets (b_inputs b ++ [address]) (b_calculations b)
                            (b_outputs b) (b_orphans b)
                else if hasPrecedents && negb hasDependents then
                  mkBuckets (b_inputs b) (b_calculations b)
                            (b_outputs b ++ [address]) (b_orphans b)
                else
                  mkBuckets (b_inputs b) (b_calculations b ++ [address])
                            (b_outputs b) (b_orphans b))
          end
      end
  end.

Fixpoint classifyLoop (dependencies : DepMap) (scope : AnalysisScope)
    (entries : DepMap) (b : Buckets) : option Buckets :=
  match entries with
  | [] => Some b
  | e :: entries' =>
      match classifyEntry dependencies scope b e with
      | None => None
      | Some b' => classifyLoop dependencies scope entries' b'
      end
  end.

(** [analyzeInputsOutputs(dependencies, scope, colors)] *)
Definition analyzeInputsOutputs (dependencies : DepMap) (scope : AnalysisScope)
    (colors : FlowColors) : option FlowAnalysisResult :=
  match classifyLoop dependencies scope dependencies (mkBuckets [] [] [] []) with
  | None => None
  | Some b =>
      Some (mkResult
              [mkGroup (b_inputs b) (s "Inputs") (c_inputs colors)]
              [mkGroup (b_calculations b) (s "Calculations") (c_calculations colors)]
              [mkGroup (b_outputs b) (s "Outputs") (c_outputs colors)]
              [mkGroup (b_orphans b) (s "Orphan Formulas") (c_orphans colors)])
  end.

(** [isInFocusArea(address, focusArea)] *)
Definition isInFocusArea (address : str) (focus : FocusArea) : option bool :=
  let parts := split "!" address in
  let name := nth 0 parts [] in
  let cellAddress := nth_error parts 1 in
  let otherSheet := match focusSheetName focus with
                    | Some (c :: n) => negb (str_eqb name (c :: n))
                    | _ => false
                    end in
  if otherSheet then Some false
  else
    match focusRangeAddress focus with
    | Some (c :: range) => isAddressInRange cellAddress (c :: range)
    | _ => Some true
    end.

(** The predicate of the two [filter] calls of [analyzeInflowsOutflows]:
    [!this.isInFocusArea(p, focusArea) && this.isInScope(p, scope)]. *)
Definition outsideFocus (focus : FocusArea) (scope : AnalysisScope) (p : str)
    : option bool :=
  match isInFocusArea p focus with
  | None => None
  | Some true => Some false
  | Some false => isInScope p scope
  end.

(** [[...new Set(l)]]: the first occurrence of every element, in order. *)
Definition uniq (l : list str) : list str :=
  fold_left (fun seen x => if existsb (str_eqb x) seen then seen else seen ++ [x])
            l [].

(** The four arrays the loop of [analyzeInflowsOutflows] fills. *)
Record FocusBuckets : Type := mkFocusBuckets {
  f_inflows : list str;
  f_outflows : list str;
  f_outsidePrecedents : list str;
  f_outsideDependents : list str
}.

(** The body of the loop of [analyzeInflowsOutflows] for one entry. *)
Definition focusEntry (focus : FocusArea) (scope : AnalysisScope)
    (b : FocusBuckets) (entry : str * DepInfo) : option FocusBuckets :=
  let (address, info) := entry in
  match formula info with
  | [] => Some b
  | _ :: _ =>
      match isInFocusArea address focus with
      | None => None
      | Some false => Some b
      | Some true =>
          match filterThrow (outsideFocus focus scope) (precedents info) with
          | None => None
          | Some outsidePrec =>
              let b1 :=
                match outsidePrec with
                | [] => b
                | _ :: _ =>
                    mkFocusBuckets (f_inflows b ++ [address]) (f_outflows b)
                      (f_outsidePrecedents b ++ outsidePrec) (f_outsideDependents b)
                end in
              match filterThrow (outsideFocus focus scope) (dependents info) with
              | None => None
              | Some outsideDep =>
                  Some match outsideDep with
                       | [] => b1
                       | _ :: _ =>
                           mkFocusBuckets (f_inflows b1) (f_outflows b1 ++ [address])
                             (f_outsidePrecedents b1)
                             (f_outsideDependents b1 ++ outsideDep)
                       end
              end
          end
      end
  end.

Fixpoint focusLoop (focus : FocusArea) (scope : AnalysisScope)
    (entries : DepMap) (b : FocusBuckets) : option FocusBuckets :=
  match entries with
  | [] => Some b
  | e :: entries' =>
      match focusEntry focus scope b e with
      | None => None
      | Some b' => focusLoop focus scope entries' b'
      end
  end.

(** The result of [analyzeInflowsOutflows]: the standard analysis
    ([...standardAnalysis]) and the four groups of the focus view, which in
    the code are optional fields of the same [FlowAnalysisResult]. *)
Record FocusAnalysisResult : Type := mkFocusResult {
  standardAnalysis : FlowAnalysisResult;
  inflows : list CellGroup;
  outflows : list CellGroup;
  outsidePrecedents : list CellGroup;
  outsideDependents : list CellGroup
}.

(** [analyzeInflowsOutflows(dependencies, scope, colors)]; [scope.focusArea!]
    on a scope without focus area throws. *)
Definition analyzeInflowsOutflows (dependencies : DepMap) (scope : AnalysisScope)
    (colors : FlowColors) : option FocusAnalysisResult :=
  match focusArea scope with
  | None => None
  | Some focus =>
      match focusLoop focus scope dependencies (mkFocusBuckets [] [] [] []) with
      | None => None
      | Some b =>
          match analyzeInputsOutputs dependencies scope colors with
          | None => None
          | Some standard =>
              Some (mkFocusResult standard
                      [mkGroup (f_inflows b) (s "Inside - Inflows") (c_inflows colors)]
                      [mkGroup (f_outflows b) (s "Inside - Outflows") (c_outflows colors)]
                      [mkGroup (uniq (f_outsidePrecedents b)) (s "Outside - Precedents")
                               (c_outsidePrecedents colors)]
                      [mkGroup (uniq (f_outsideDependents b)) (s "Outside - Dependents")
                               (c_outsideDependents colors)])
          end
      end
  end.

(** [analyzeFlow(context, scope, colors)]: the graph, then one of the two
    analyses, by the presence of a focus area. *)
Definition analyzeFlow (host : Host) (scope : AnalysisScope) (colors : FlowColors)
    : option (FlowAnalysisResult + FocusAnalysisResult) :=
  match buildDependencyGraph host scope with
  | None => None
  | Some cellDependencies =>
      match focusArea scope with
      | Some _ => option_map inr (analyzeInflowsOutflows cellDependencies scope colors)
      | None => option_map inl (analyzeInputsOutputs cellDependencies scope colors)
      end
  end.

End CalculationFlowAnalyzer.

(** ** Values of cells and of arguments *)

(** The values a cell or an evaluated argument holds. *)
Inductive JSValue : Type :=
| JUndefined
| JNull
| JBool (b : bool)
| JNum (f : float)
| JStr (x : str).

(** [a === b] *)
Definition strictEq (a b : JSValue) : bool :=
  match a, b with
  | JUndefined, JUndefined => true
  | JNull, JNull => true
  | JBool x, JBool y => Bool.eqb x y
  | JNum x, JNum y => PrimFloat.eqb x y
  | JStr x, JStr y => str_eqb x y
  | _, _ => false
  end.

(** [a == null] *)
Definition isNullish (a : JSValue) : bool :=
  match a with
  | JUndefined | JNull => true
  | _ => false
  end.

(** ** The comparison of two ranges ([src/utils/comparisonHelper.ts]) *)

Module ComparisonHelper.

Section WithNumberText.

(** The text [String(x)] of a number [x] (the shortest decimal text that
    reads back as [x]); the comparison only ever compares such texts. *)
Variable numberText : float -> str.

(** [String(v)] *)
Definition toText (v : JSValue) : str :=
  match v with
  | JUndefined => s "undefined"
  | JNull => s "null"
  | JBool true => s "true"
  | JBool false => s "false"
  | JNum f => numberText f
  | JStr x => x
  end.

Record CellDifference : Type := mkCellDifference {
  cd_address : str;
  cd_formula : str;
  cd_value : JSValue;
  cd_isDifferent : bool
}.

Record DifferenceBlock : Type := mkBlock {
  startRow : Z;
  startCol : Z;
  endRow : Z;
  endCol : Z;
  referenceCells : list CellDifference;
  comparatorCells : list CellDifference
}.

Record ComparisonOptions : Type := mkOptions {
  compareFormulas : bool;
  ignoreInputs : bool;
  detectAlignment : bool
}.

Record ComparisonResult : Type := mkComparison {
  differences : list DifferenceBlock;
  totalDifferences : Z;
  alignmentNeeded : bool;
  insertedRows : list Z;
  insertedColumns : list Z
}.

(** [normalizeFormula(formula)] *)
Definition normalizeFormula (formula : str) : str :=
  match formula with
  | [] => formula
  | _ :: _ =>
      if negb (startsWith (s "=") formula) then formula
      else replaceAll rePrecedent (s "REF") formula 0 0
  end.

(** [areFormulasDifferent(formula1, formula2, ignoreInputs)] *)
Definition areFormulasDifferent (formula1 formula2 : str) (ignore : bool) : bool :=
  if negb ignore then negb (str_eqb formula1 formula2)
  else
    let normalized1 := normalizeFormula formula1 in
    let normalized2 := normalizeFormula formula2 in
    negb (str_eqb normalized1 normalized2).

(** [areValuesDifferent(value1, value2)]; the tolerance is the double
    [1e-10]. *)
Definition areValuesDifferent (value1 value2 : JSValue) : bool :=
  if strictEq value1 value2 then false
  else
    match value1, value2 with
    | JNum a, JNum b => PrimFloat.ltb 1e-10 (PrimFloat.abs (PrimFloat.sub a b))
    | _, _ =>
        if (isNullish value1 && negb (isNullish value2)) ||
           (negb (isNullish value1) && isNullish value2)
        then true
        else negb (str_eqb (toText value1) (toText value2))
    end.

(** [isAdjacent(block, row, col)] *)
Definition isAdjacent (block : DifferenceBlock) (r c : Z) : bool :=
  (r >=? startRow block - 1) && (r <=? endRow block + 1) &&
  (c >=? startCol block - 1) && (c <=? endCol block + 1).

(** [getAddress(row, col)] of this class, on zero-based indices. *)
Definition getAddress (r c : Z) : str :=
  numberToColumn (c + 1) ++ numberToString (r + 1).

(** [grid[row]?.[col] || ''] *)
Definition formulaAt (grid : list (list str)) (r c : nat) : str :=
  match nth_error grid r with
  | Some line => nth c line []
  | None => []
  end.

(** [grid[row]?.[col]] *)
Definition valueAt (grid : list (list JSValue)) (r c : nat) : JSValue :=
  match nth_error grid r with
  | Some line => nth c line JUndefined
  | None => JUndefined
  end.

(** The variables the two loops of [compareRanges] update. *)
Record LoopState : Type := mkLoop {
  l_differences : list DifferenceBlock;
  l_total : Z;
  l_currentBlock : option DifferenceBlock
}.

(** The block a differing cell goes to, and the list of finished blocks:
    the open block when the cell is adjacent to it, else a new one (the open
    block, if any, is then pushed). *)
Definition openBlock (st : LoopState) (r c : Z)
    : list DifferenceBlock * DifferenceBlock :=
  let fresh := mkBlock r c r c [] [] in
  match l_currentBlock st with
  | None => (l_differences st, fresh)
  | Some cur =>
      if negb (isAdjacent cur r c) then (l_differences st ++ [cur], fresh)
      else (l_differences st, cur)
  end.

(** The body of the inner loop of [compareRanges]. *)
Definition compareCell (refFormulas : list (list str)) (refValues : list (list JSValue))
    (compFormulas : list (list str)) (compValues : list (list JSValue))
    (options : ComparisonOptions) (r c : nat) (st : LoopState) : LoopState :=
  let refFormula := formulaAt refFormulas r c in
  let refValue := valueAt refValues r c in
  let compFormula := formulaAt compFormulas r c in
  let compValue := valueAt compValues r c in
  let isDifferent :=
    if compareFormulas options
    then areFormulasDifferent refFormula compFormula (ignoreInputs options)
    else areValuesDifferent refValue compValue in
  if isDifferent then
    let zr := Z.of_nat r in
    let zc := Z.of_nat c in
    let (done, cur) := openBlock st zr zc in
    let cur' :=
      mkBlock (startRow cur) (startCol cur)
              (Z.max (endRow cur) zr) (Z.max (endCol cur) zc)
              (referenceCells cur ++
                 [mkCellDifference (getAddress zr zc) refFormula refValue true])
              (comparatorCells cur ++
                 [mkCellDifference (getAddress zr zc) compFormula compValue true]) in
    mkLoop done (l_total st + 1) (Some cur')
  else st.

(** [compareRanges(refFormulas, refValues, compFormulas, compValues, options)] *)
Definition compareRanges (refFormulas : list (list str)) (refValues : list (list JSValue))
    (compFormulas : list (list str)) (compValues : list (list JSValue))
    (options : ComparisonOptions) : ComparisonResult :=
  let maxRows := Nat.max (length refFormulas) (length compFormulas) in
  let maxCols := Nat.max (length (nth 0 refFormulas []))
                         (length (nth 0 compFormulas [])) in
  let final :=
    fold_left (fun st r =>
                 fold_left (fun st' c =>
                              compareCell refFormulas refValues compFormulas
                                          compValues options r c st')
                           (seq 0 maxCols) st)
              (seq 0 maxRows) (mkLoop [] 0 None) in
  let differences := match l_currentBlock final with
                     | Some cur => l_differences final ++ [cur]
                     | None => l_differences final
                     end in
  mkComparison differences (l_total final) false [] [].

End WithNumberText.

(** A count as a number (exact below 2^53). *)
Definition floatOfNat (n : nat) : float :=
  PrimFloat.of_uint63 (Uint63.of_Z (Z.of_nat n)).

(** The number of indices at which two rows have the same normalized
    formula ([row2[i]] beyond the end of [row2] is never reached: the rows
    have the same length). *)
Fixpoint similarCount (row1 row2 : list str) : nat :=
  match row1, row2 with
  | f1 :: row1', f2 :: row2' =>
      ((if str_eqb (normalizeFormula f1) (normalizeFormula f2) then 1 else 0)
       + similarCount row1' row2')%nat
  | _, _ => O
  end.

(** [areRowsSimilar(row1, row2)]: the quotient is a division of doubles. *)
Definition areRowsSimilar (row1 row2 : list str) : bool :=
  if negb (Nat.eqb (length row1) (length row2)) then false
  else
    PrimFloat.leb 0.7
      (PrimFloat.div (floatOfNat (similarCount row1 row2)) (floatOfNat (length row1))).

(** The body of the loop of [detectAlignmentIssues] at index [i]. *)
Definition alignmentStep (refFormulas compFormulas : list (list str))
    (insertedRows : list Z) (i : nat) : list Z :=
  let differs :=
    match nth_error refFormulas i, nth_error compFormulas i with
    | Some refRow, Some compRow => negb (areRowsSimilar refRow compRow)
    | _, _ => true
    end in
  if differs then
    if (length refFormulas <? length compFormulas)%nat
    then insertedRows ++ [Z.of_nat i]
    else insertedRows
  else insertedRows.

(** [detectAlignmentIssues(refFormulas, compFormulas)]: the inserted rows
    and the inserted columns. *)
Definition detectAlignmentIssues (refFormulas compFormulas : list (list str))
    : list Z * list Z :=
  let insertedRows :=
    if negb (Nat.eqb (length refFormulas) (length compFormulas)) then
      fold_left (alignmentStep refFormulas compFormulas)
                (seq 0 (Nat.max (length refFormulas) (length compFormulas))) []
    else [] in
  (insertedRows, []).

End ComparisonHelper.

(** ** The formula parser ([src/utils/formulaParser.ts]) *)

Module FormulaParser.

Inductive NodeType : Type :=
| TFunction | TReference | TOperator | TLiteral | TArray.

(** [FormulaNode]; an absent optional field is [None]. *)
#[warnings="-register-all"]
Inductive FormulaNode : Type :=
| mkNode (type : NodeType) (value : str)
         (children : option (list FormulaNode))
         (address : option str)
         (isActive : option bool).

Definition type (n : FormulaNode) : NodeType :=
  match n with mkNode t _ _ _ _ => t end.
Definition value (n : FormulaNode) : str :=
  match n with mkNode _ v _ _ _ => v end.
Definition children (n : FormulaNode) : option (list FormulaNode) :=
  match n with mkNode _ _ c _ _ => c end.
Definition isActive (n : FormulaNode) : option bool :=
  match n with mkNode _ _ _ _ a => a end.

Definition literalNode (text : str) : FormulaNode :=
  mkNode TLiteral text None None None.
Definition referenceNode (text : str) : FormulaNode :=
  mkNode TReference text None (Some text) None.
Definition operatorNode (op : str) (l r : FormulaNode) : FormulaNode :=
  mkNode TOperator op (Some [l; r]) None None.
Definition functionNode (name : str) (args : list FormulaNode) : FormulaNode :=
  mkNode TFunction name (Some args) None None.

Definition isQuote (c : ascii) : bool := chr_eqb c dquote || chr_eqb c "'".
Definition isBackslash (c : ascii) : bool := chr_eqb c "092".

(** [x.toUpperCase()] on the ASCII letters. *)
Definition toUpperCase (x : str) : str :=
  map (fun c => if isLower c then fromCharCode (code c - 32) else c) x.

Local Open Scope regex_scope.

(** The function-call head, [/^(NAME)\s*\(/i] with [NAME] the pattern
    [[A-Z_][A-Z0-9_.]*]: a name, optional blanks, an opening parenthesis. *)
Definition reFunctionHead : regex :=
  Bol >>
  Group 1 (Class (fun c => isLetter c || chr_eqb c "_") >>
           Star (fun c => isLetter c || isDigit c || chr_eqb c "_" || chr_eqb c ".")) >>
  Star isSpace >> Chr "(".

(** The pattern of [isCellReference]:
    [/^(\[.*?\])?(\w+!)?(\$?[A-Z]+\$?\d+|\$?[A-Z]+:\$?[A-Z]+|\$?\d+:\$?\d+|\$?[A-Z]+\$?\d+:\$?[A-Z]+\$?\d+)$/i] *)
Definition reCellReference : regex :=
  Bol >> reQualifier >>
  Group 3 (reCell
           <|> (Opt (Chr "$") >> Plus isLetter >> Chr ":" >> Opt (Chr "$") >> Plus isLetter)
           <|> (Opt (Chr "$") >> Plus isDigit >> Chr ":" >> Opt (Chr "$") >> Plus isDigit)
           <|> (reCell >> Chr ":" >> reCell)) >>
  Eol.

Definition isHexDigit (c : ascii) : bool :=
  isDigit c || ((65 <=? code c) && (code c <=? 70))
            || ((97 <=? code c) && (code c <=? 102)).
Definition isOctalDigit (c : ascii) : bool := (48 <=? code c) && (code c <=? 55).
Definition isBinaryDigit (c : ascii) : bool := (48 <=? code c) && (code c <=? 49).
Definition isSign (c : ascii) : bool := chr_eqb c "+" || chr_eqb c "-".
Definition isExp (c : ascii) : bool := chr_eqb c "e" || chr_eqb c "E".

(** The texts [Number(x)] converts to a number rather than to [NaN]
    (the [StringNumericLiteral] grammar of ECMAScript): blank, or, between
    optional blanks, a signed decimal literal, [Infinity], or an unsigned
    hexadecimal, octal or binary integer literal. *)
Definition reNumeric : regex :=
  let exponent := Opt (Class isExp >> Opt (Class isSign) >> Plus isDigit) in
  let unsignedDecimal :=
        (Chr "I" >> Chr "n" >> Chr "f" >> Chr "i" >> Chr "n" >> Chr "i" >> Chr "t" >> Chr "y")
        <|> (Plus isDigit >> Opt (Chr "." >> Star isDigit) >> exponent)
        <|> (Chr "." >> Plus isDigit >> exponent) in
  let nonDecimal :=
        (Chr "0" >> Class (fun c => chr_eqb c "x" || chr_eqb c "X") >> Plus isHexDigit)
        <|> (Chr "0" >> Class (fun c => chr_eqb c "o" || chr_eqb c "O") >> Plus isOctalDigit)
        <|> (Chr "0" >> Class (fun c => chr_eqb c "b" || chr_eqb c "B") >> Plus isBinaryDigit) in
  Bol >> Star isSpace >>
  Opt (nonDecimal <|> (Opt (Class isSign) >> unsignedDecimal)) >>
  Star isSpace >> Eol.

Local Close Scope regex_scope.

(** [!isNaN(Number(x))] *)
Definition isNumeric (x : str) : bool := regexTest reNumeric x.

(** [isCellReference(expr)] *)
Definition isCellReference (expr : str) : bool :=
  regexTest reCellReference (trim expr).

(** [x.endsWith(c)] for one character. *)
Definition endsWith (c : ascii) (x : str) : bool :=
  match rev x with
  | a :: _ => chr_eqb a c
  | [] => false
  end.

(** [isLiteral(expr)] *)
Definition isLiteral (expr0 : str) : bool :=
  let expr := trim expr0 in
  if isNumeric expr then true
  else if (startsWith [dquote] expr && endsWith dquote expr) ||
          (startsWith (s "'") expr && endsWith "'" expr) then true
  else if str_eqb (toUpperCase expr) (s "TRUE") ||
          str_eqb (toUpperCase expr) (s "FALSE") then true
  else false.

(** The loop of [findMatchingParen] from index [i] on: [rest] is the text
    from [i], [prev] the character before it ([str[i - 1]]).  The result is
    the index of the closing parenthesis, or [str.length]. *)
Fixpoint findMatchingParen_loop (rest : str) (i : nat) (prev : ascii)
    (depth : Z) (inString : bool) (stringChar : ascii) : nat :=
  match rest with
  | [] => i
  | char :: rest' =>
      if inString then
        if chr_eqb char stringChar && negb (isBackslash prev)
        then findMatchingParen_loop rest' (S i) char depth false stringChar
        else findMatchingParen_loop rest' (S i) char depth true stringChar
      else if isQuote char then
        findMatchingParen_loop rest' (S i) char depth true char
      else if chr_eqb char "(" then
        findMatchingParen_loop rest' (S i) char (depth + 1) false stringChar
      else if chr_eqb char ")" then
        if depth - 1 =? 0 then i
        else findMatchingParen_loop rest' (S i) char (depth - 1) false stringChar
      else findMatchingParen_loop rest' (S i) char depth false stringChar
  end.

(** [findMatchingParen(str, openIndex)] *)
Definition findMatchingParen (x : str) (openIndex : nat) : nat :=
  findMatchingParen_loop (skipn (S openIndex) x) (S openIndex)
    (nth openIndex x "("%char) 1 false "000"%char.

(** The loop of [splitArguments]; [currentArg] is kept reversed. *)
Fixpoint splitArguments_loop (rest : str) (prev : ascii) (args : list str)
    (currentArg : str) (depth : Z) (inString : bool) (stringChar : ascii)
    : list str * str :=
  match rest with
  | [] => (args, rev currentArg)
  | char :: rest' =>
      if inString then
        if chr_eqb char stringChar && negb (isBackslash prev)
        then splitArguments_loop rest' char args (char :: currentArg) depth false stringChar
        else splitArguments_loop rest' char args (char :: currentArg) depth true stringChar
      else if isQuote char then
        splitArguments_loop rest' char args (char :: currentArg) depth true char
      else if chr_eqb char "(" || chr_eqb char "{" then
        splitArguments_loop rest' char args (char :: currentArg) (depth + 1) false stringChar
      else if chr_eqb char ")" || chr_eqb char "}" then
        splitArguments_loop rest' char args (char :: currentArg) (depth - 1) false stringChar
      else if chr_eqb char "," && (depth =? 0) then
        splitArguments_loop rest' char (args ++ [trim (rev currentArg)]) [] depth false stringChar
      else
        splitArguments_loop rest' char args (char :: currentArg) depth false stringChar
  end.

(** [splitArguments(argsString)] *)
Definition splitArguments (argsString : str) : list str :=
  let (args, currentArg) :=
    splitArguments_loop argsString "000"%char [] [] 0 false "000"%char in
  match trim currentArg with
  | [] => args
  | c :: a => args ++ [c :: a]
  end.

(** The operator symbols in the order [findTopLevelOperator] tries them
    ([precedenceOrder]). *)
Definition precedenceOrder : list str :=
  [s "="; s "<>"; s "<="; s ">="; s "<"; s ">";
   s "&"; s "+"; s "-"; s "*"; s "/"; s "^"].

(** Whether operator [op] is at the position of [char], with [before] the
    characters to its left, nearest first; the result is the index where the
    operator starts. *)
Definition operatorHere (op : str) (char : ascii) (before : str) : option nat :=
  match op, before with
  | [a; b], prev :: before' =>
      if chr_eqb prev a && chr_eqb char b then Some (length before') else None
  | [a], _ =>
      if chr_eqb char a then Some (length before) else None
  | _, _ => None
  end.

(** The inner loop of [findTopLevelOperator] for one operator: [right] is
    the text from index [i] down to index 0 ([char = expr[i]] first), so the
    scan goes from right to left. *)
Fixpoint scanOperator (op : str) (right : str) (depth : Z) (inString : bool)
    (stringChar : ascii) : option nat :=
  match right with
  | [] => None
  | char :: before =>
      if inString then
        if chr_eqb char stringChar &&
           match before with
           | [] => true
           | prev :: _ => negb (isBackslash prev)
           end
        then scanOperator op before depth false stringChar
        else scanOperator op before depth true stringChar
      else if isQuote char then scanOperator op before depth true char
      else if chr_eqb char ")" then scanOperator op before (depth + 1) false stringChar
      else if chr_eqb char "(" then scanOperator op before (depth - 1) false stringChar
      else if depth =? 0 then
        match operatorHere op char before with
        | Some index => Some index
        | None => scanOperator op before depth false stringChar
        end
      else scanOperator op before depth false stringChar
  end.

(** The outer loop, [for (const op of precedenceOrder)].  ([stringChar]
    survives from one operator to the next in the code, but is read only
    after a quote of the current scan has set it.) *)
Fixpoint findFirstOperator (ops : list str) (expr : str) : option (str * nat) :=
  match ops with
  | [] => None
  | op :: ops' =>
      match scanOperator op (rev expr) 0 false "000"%char with
      | Some index => Some (op, index)
      | None => findFirstOperator ops' expr
      end
  end.

(** [findTopLevelOperator(expr)] *)
Definition findTopLevelOperator (expr : str) : option (str * nat) :=
  findFirstOperator precedenceOrder expr.

(** [args.map(arg => parse(arg))] with a [parse] that may fail. *)
Fixpoint mapParse (parse : str -> option FormulaNode) (args : list str)
    : option (list FormulaNode) :=
  match args with
  | [] => Some []
  | a :: args' =>
      match parse a with
      | None => None
      | Some n =>
          match mapParse parse args' with
          | None => None
          | Some ns => Some (n :: ns)
          end
      end
  end.

(** [parseFunction(expr)], given the [parseExpression] it calls on the
    arguments.  [None] is the thrown [Invalid function expression]. *)
Definition parseFunction (parseExpression : str -> option FormulaNode)
    (expr : str) : option FormulaNode :=
  match regexMatch reFunctionHead expr with
  | None => None
  | Some funcMatch =>
      let funcName := toUpperCase (captureText 1 funcMatch) in
      let argsStart := length (m_text funcMatch) in
      let argsEnd := findMatchingParen expr (argsStart - 1) in
      let argsString := substring argsStart argsEnd expr in
      let args := splitArguments argsString in
      match mapParse parseExpression args with
      | None => None
      | Some children => Some (functionNode funcName children)
      end
  end.

(** [parseExpression(expr)].  The recursion is on shorter and shorter
    texts; [fuel] bounds its depth, and [None] is running out of it (see
    [parseExpression_total]). *)
Fixpoint parseExpression (fuel : nat) (expr0 : str) : option FormulaNode :=
  match fuel with
  | O => None
  | S fuel' =>
      let expr := trim expr0 in
      match regexMatch reFunctionHead expr with
      | Some _ => parseFunction (parseExpression fuel') expr
      | None =>
          if isCellReference expr then Some (referenceNode expr)
          else if isLiteral expr then Some (literalNode expr)
          else
            match findTopLevelOperator expr with
            | Some (operator, index) =>
                match parseExpression fuel' (substring 0 index expr),
                      parseExpression fuel'
                        (substringFrom (index + length operator) expr) with
                | Some l, Some r => Some (operatorNode operator l r)
                | _, _ => None
                end
            | None => Some (literalNode expr)
            end
      end
  end.

(** [parse(formula)] *)
Definition parse (formula : str) : option FormulaNode :=
  match formula with
  | [] => Some (literalNode formula)
  | _ :: _ =>
      if negb (startsWith (s "=") formula) then Some (literalNode formula)
      else
        let cleanFormula := substringFrom 1 formula in
        parseExpression (S (length cleanFormula)) cleanFormula
  end.

(** [node.children[i].isActive = true]: [None] when the child is missing
    (the assignment then throws a [TypeError]). *)
Fixpoint markChild (i : nat) (l : list FormulaNode) : option (list FormulaNode) :=
  match l, i with
  | [], _ => None
  | mkNode t v c a _ :: l', O => Some (mkNode t v c a (Some true) :: l')
  | n :: l', S i' => option_map (cons n) (markChild i' l')
  end.

(** The [for] loop of the [SWITCH] case, from index [i] on:
    [for (let i = 1; i < args.length - 1; i += 2)]; [turns] bounds the
    number of turns, and [args.length] turns are enough. *)
Fixpoint switchLoop (turns i : nat) (expr : JSValue) (args : list JSValue)
    (kids : list FormulaNode) : option (list FormulaNode) :=
  match turns with
  | O => Some kids
  | S turns' =>
      if (i <? length args - 1)%nat then
        if strictEq (nth i args JUndefined) expr then
          match markChild i kids with
          | None => None
          | Some kids' => markChild (S i) kids'
          end
        else switchLoop turns' (S (S i)) expr args kids
      else Some kids
  end.

(** The [SWITCH] case of [evaluateLogicalBranch(funcName, args, node)]:
    the node after the annotation, [None] for a thrown [TypeError]. *)
Definition evaluateLogicalBranch_SWITCH (args : list JSValue) (node : FormulaNode)
    : option FormulaNode :=
  match node with
  | mkNode t v (Some kids) a act =>
      if (3 <=? length args)%nat then
        let expr := nth 0 args JUndefined in
        match switchLoop (length args) 1 expr args kids with
        | None => None
        | Some kids1 =>
            if (Nat.eqb (length args mod 2) 0) && negb (Nat.eqb (length kids1) 0)
            then option_map (fun kids2 => mkNode t v (Some kids2) a act)
                            (markChild (length kids1 - 1) kids1)
            else Some (mkNode t v (Some kids1) a act)
        end
      else Some node
  | mkNode _ _ None _ _ => Some node
  end.

(** The truth of a value in a condition ([!!v]). *)
Definition truthy (v : JSValue) : bool :=
  match v with
  | JUndefined | JNull => false
  | JBool b => b
  | JNum f => negb (PrimFloat.eqb f 0) && PrimFloat.eqb f f
  | JStr x => match x with [] => false | _ :: _ => true end
  end.

(** [node.children[i].isActive = flag]: [None] when the child is missing. *)
Fixpoint setChildActive (i : nat) (flag : bool) (l : list FormulaNode)
    : option (list FormulaNode) :=
  match l, i with
  | [], _ => None
  | mkNode t v c a _ :: l', O => Some (mkNode t v c a (Some flag) :: l')
  | n :: l', S i' => option_map (cons n) (setChildActive i' flag l')
  end.

(** The [IF] case of [evaluateLogicalBranch(funcName, args, node)]. *)
Definition evaluateLogicalBranch_IF (args : list JSValue) (node : FormulaNode)
    : option FormulaNode :=
  match node with
  | mkNode t v (Some kids) a act =>
      if (2 <=? length args)%nat then
        let condition := nth 0 args JUndefined in
        match setChildActive 1 (truthy condition) kids with
        | None => None
        | Some kids1 =>
            match nth_error kids1 2 with
            | Some _ =>
                option_map (fun kids2 => mkNode t v (Some kids2) a act)
                           (setChildActive 2 (negb (truthy condition)) kids1)
            | None => Some (mkNode t v (Some kids1) a act)
            end
        end
      else Some node
  | mkNode _ _ None _ _ => Some node
  end.

(** The loop of the [IFS] case from index [i] on:
    [for (let i = 0; i < node.children.length; i += 2)]. *)
Fixpoint ifsLoop (turns i : nat) (args : list JSValue) (kids : list FormulaNode)
    : option (list FormulaNode) :=
  match turns with
  | O => Some kids
  | S turns' =>
      if (i <? length kids)%nat then
        if truthy (nth i args JUndefined) then
          match setChildActive i true kids with
          | None => None
          | Some kids1 =>
              match nth_error kids1 (S i) with
              | Some _ => setChildActive (S i) true kids1
              | None => Some kids1
              end
          end
        else ifsLoop turns' (S (S i)) args kids
      else Some kids
  end.

(** The [IFS] case of [evaluateLogicalBranch(funcName, args, node)]. *)
Definition evaluateLogicalBranch_IFS (args : list JSValue) (node : FormulaNode)
    : option FormulaNode :=
  match node with
  | mkNode t v (Some kids) a act =>
      option_map (fun kids' => mkNode t v (Some kids') a act)
                 (ifsLoop (length kids) 0 args kids)
  | mkNode _ _ None _ _ => Some node
  end.

End FormulaParser.

(** ** References ([ExcelHelper], in [src/utils/formulaParser.ts]) *)

Module ExcelHelper.

(** [x.indexOf(c)] for one character; [None] is -1. *)
Fixpoint indexOf (c : ascii) (x : str) : option nat :=
  match x with
  | [] => None
  | a :: x' => if chr_eqb a c then Some O else option_map S (indexOf c x')
  end.

(** [x.replace(/^'|'$/g, '')]: a quote at the start and a quote at the end
    are removed (one quote alone is removed once). *)
Definition stripQuotes (x : str) : str :=
  let x1 := match x with
            | c :: x' => if chr_eqb c "'" then x' else x
            | [] => x
            end in
  match rev x1 with
  | c :: r => if chr_eqb c "'" then rev r else x1
  | [] => x1
  end.

(** [parseReference(reference, defaultSheet)]: the sheet name and the
    address. *)
Definition parseReference (reference defaultSheet : str) : str * str :=
  match split "!" reference with
  | [part0; part1] =>
      let sheetName :=
        match indexOf "]" part0 with
        | Some i => substringFrom (i + 1) part0
        | None => part0
        end in
      (stripQuotes sheetName, part1)
  | _ => (defaultSheet, reference)
  end.

End ExcelHelper.

(** ** The navigation history ([KeyboardShortcutManager], in
    [src/utils/formulaParser.ts]) *)

Module KeyboardShortcutManager.

Record Location : Type := mkLocation { loc_sheet : str; loc_address : str }.

(** The static fields [navigationHistory] and [currentHistoryIndex]. *)
Record History : Type := mkHistory {
  navigationHistory : list Location;
  currentHistoryIndex : Z
}.

Definition maxHistorySize : nat := 100.

(** The initial state, and the state [clearHistory] restores. *)
Definition clearHistory : History := mkHistory [] (-1).

(** [l.slice(0, e)]: a negative [e] counts from the end. *)
Definition sliceTo {A : Type} (e : Z) (l : list A) : list A :=
  if e <? 0 then firstn (length l - Z.to_nat (- e)) l
  else firstn (Z.to_nat e) l.

(** [addToHistory(sheet, address)] *)
Definition addToHistory (h : History) (sheet address : str) : History :=
  let history :=
    sliceTo (currentHistoryIndex h + 1) (navigationHistory h)
    ++ [mkLocation sheet address] in
  if (maxHistorySize <? length history)%nat
  then mkHistory (tl history) (currentHistoryIndex h)
  else mkHistory history (currentHistoryIndex h + 1).

(** [navigateBack(context)]: [select] is the host selecting the range of a
    location ([false] when the host call fails and the error is caught).
    The result is the returned flag and the new state. *)
Definition navigateBack (select : Location -> bool) (h : History) : bool * History :=
  if currentHistoryIndex h <=? 0 then (false, h)
  else
    let h' := mkHistory (navigationHistory h) (currentHistoryIndex h - 1) in
    match nth_error (navigationHistory h) (Z.to_nat (currentHistoryIndex h')) with
    | Some location => (select location, h')
    | None => (false, h')
    end.

(** [navigateForward(context)] *)
Definition navigateForward (select : Location -> bool) (h : History)
    : bool * History :=
  if currentHistoryIndex h >=? Z.of_nat (length (navigationHistory h)) - 1
  then (false, h)
  else
    let h' := mkHistory (navigationHistory h) (currentHistoryIndex h + 1) in
    match (if currentHistoryIndex h' <? 0 then None
           else nth_error (navigationHistory h) (Z.to_nat (currentHistoryIndex h'))) with
    | Some location => (select location, h')
    | None => (false, h')
    end.

End KeyboardShortcutManager.

(** * The vocabulary of the properties *)

Import CalculationFlowAnalyzer ComparisonHelper FormulaParser.

(** ** For the comparison of ranges *)

(** What the two loops keep true: the finished blocks and the open block
    pair their two sequences address by address, and the counter is the
    number of cells recorded so far. *)
Definition paired (b : DifferenceBlock) : Prop :=
  map cd_address (referenceCells b) = map cd_address (comparatorCells b).

Definition cellsOf (bs : list DifferenceBlock) : Z :=
  fold_right (fun b n => Z.of_nat (length (referenceCells b)) + n) 0 bs.

Definition openCells (o : option DifferenceBlock) : Z :=
  match o with
  | Some b => Z.of_nat (length (referenceCells b))
  | None => 0
  end.

Definition loopInvariant (st : LoopState) : Prop :=
  Forall paired (l_differences st) /\
  (forall b, l_currentBlock st = Some b -> paired b) /\
  l_total st = cellsOf (l_differences st) + openCells (l_currentBlock st).

(** ** For the dependency graph *)

(** A sheet [Sheet1] whose used range [A1:C1] holds [=1], [=$A$1], [=A1]. *)
Definition absoluteHost : Host :=
  mkHost [s "Sheet1"]
         (fun _ _ => Some (mkRange (s "Sheet1!A1:C1")
                             [[s "=1"; s "=$A$1"; s "=A1"]])).

Definition sheet1Scope : AnalysisScope :=
  mkScope Worksheet (Some (s "Sheet1")) None None.

(** The range [A1:C1] of that sheet as the scope. *)
Definition sheet1RangeScope : AnalysisScope :=
  mkScope Range (Some (s "Sheet1")) (Some (s "A1:C1")) None.

(** What the second pass never changes in an entry: its key, its
    precedents and its formula. *)
Definition shape (m : DepMap) : list (str * (list str * str)) :=
  map (fun e => (fst e, (precedents (snd e), formula (snd e)))) m.

(** The shape of an entry the second pass creates. *)
Definition leaf (e : str * (list str * str)) : Prop := snd e = ([], []).

(** Entry [x] with precedents [precs] has been linked: each precedent has
    an entry that lists [x] as a dependent. *)
Definition linked (m : DepMap) (x : str) (precs : list str) : Prop :=
  forall y, In y precs ->
    exists iy, mapGet y m = Some iy /\ In x (dependents iy).

(** The entries at indices below [i] have been visited. *)
Definition visited (i : nat) (m : DepMap) : Prop :=
  forall j x info, (j < i)%nat -> nth_error m j = Some (x, info) ->
    linked m x (precedents info).

(** The second pass only adds: leaves at the end of the map, and
    dependents to the entries. *)
Definition grows (m m' : DepMap) : Prop :=
  (exists extra, shape m' = shape m ++ extra /\ Forall leaf extra) /\
  (forall y iy, mapGet y m = Some iy ->
     exists iy', mapGet y m' = Some iy' /\ incl (dependents iy) (dependents iy')).

(** The turns the second pass still has to take from index [i] on: one per
    entry, one more per precedent of an entry. *)
Definition weight (sh : list (str * (list str * str))) : nat :=
  list_sum (map (fun e => S (length (fst (snd e)))) sh).

(** ** For the classification *)

(** An entry that carries formula text. *)
Definition formulaBearing (e : str * DepInfo) : bool :=
  match formula (snd e) with [] => false | _ :: _ => true end.

(** An edge that counts for the classification: its other end is in scope
    (by [isInScope]) and carries a formula. *)
Definition flowEdge (dependencies : DepMap) (scope : AnalysisScope) (p : str) : bool :=
  match isInScope p scope with
  | Some true => hasFormula dependencies p
  | _ => false
  end.

Definition groupCells (gs : list CellGroup) : list str := concat (map cells gs).

Definition allBuckets (b : Buckets) : list str :=
  b_inputs b ++ b_calculations b ++ b_outputs b ++ b_orphans b.

(** The bucket the rule of the specification names for given in-scope
    formula-bearing precedents [P] and dependents [D]. *)
Definition ruleBucket (P D : list str) (b : Buckets) : list str :=
  match P, D with
  | [], [] => b_orphans b
  | [], _ :: _ => b_inputs b
  | _ :: _, [] => b_outputs b
  | _ :: _, _ :: _ => b_calculations b
  end.

(** The loop only adds to the buckets. *)
Definition bucketsGrow (b b' : Buckets) : Prop :=
  incl (b_inputs b) (b_inputs b') /\ incl (b_calculations b) (b_calculations b') /\
  incl (b_outputs b) (b_outputs b') /\ incl (b_orphans b) (b_orphans b').

Definition str_dec : forall a b : str, {a = b} + {a <> b} := list_eq_dec ascii_dec.

Definition noColors : FlowColors := mkColors [] [] [] [] [] [] [] [].

(** ** For the parser *)

(** The least number of characters a pattern consumes. *)
Fixpoint minLength (r : regex) : nat :=
  match r with
  | Class _ => 1
  | Seq r1 r2 => minLength r1 + minLength r2
  | Alt r1 r2 => Nat.min (minLength r1) (minLength r2)
  | Group _ r1 => minLength r1
  | _ => 0
  end.

(** State [st'] is at least [n] characters after [st], in the same text. *)
Definition advanced (n : nat) (st st' : MatchState) : Prop :=
  (ms_pos st + n <= ms_pos st')%nat /\
  (ms_pos st' + length (ms_rest st') = ms_pos st + length (ms_rest st))%nat.

(** ** For the operator search *)

(** The state of the right-to-left scan: the parenthesis depth, and whether
    the scan is inside a quoted string (opened by [sc_stringChar]). *)
Record ScanState : Type := mkScan {
  sc_depth : Z;
  sc_inString : bool;
  sc_stringChar : ascii
}.

Definition scanStart : ScanState := mkScan 0 false "000"%char.

(** The state after the scan has read [char], whose left neighbour is
    [prev] ([None] at the start of the text). *)
Definition scanStep (st : ScanState) (char : ascii) (prev : option ascii)
    : ScanState :=
  if sc_inString st then
    if chr_eqb char (sc_stringChar st) &&
       match prev with
       | None => true
       | Some p => negb (isBackslash p)
       end
    then mkScan (sc_depth st) false (sc_stringChar st)
    else st
  else if isQuote char then mkScan (sc_depth st) true char
  else if chr_eqb char ")" then mkScan (sc_depth st + 1) false (sc_stringChar st)
  else if chr_eqb char "(" then mkScan (sc_depth st - 1) false (sc_stringChar st)
  else st.

(** The state in which the scan arrives at the first character of
    [suffix], having read the characters to its right. *)
Fixpoint arriving (suffix : str) : ScanState :=
  match suffix with
  | c :: ((c' :: _) as rest) => scanStep (arriving rest) c' (Some c)
  | _ => scanStart
  end.

(** Index [i] is at top level: the scan arrives there outside a string and
    at depth zero, and the character is not a quote or a parenthesis. *)
Definition topLevel (expr : str) (i : nat) : bool :=
  match skipn i expr with
  | (c :: _) as suffix =>
      let st := arriving suffix in
      negb (sc_inString st) && (sc_depth st =? 0) &&
      negb (isQuote c) && negb (chr_eqb c ")") && negb (chr_eqb c "(")
  | [] => false
  end.

(** Operator [op] (of one or two characters) stands in [expr] with its last
    character at index [i]. *)
Definition standsAt (op expr : str) (i : nat) : bool :=
  match op with
  | [a] => chr_eqb (nth i expr "000"%char) a
  | [a; b] => (0 <? i)%nat && chr_eqb (nth (i - 1) expr "000"%char) a &&
              chr_eqb (nth i expr "000"%char) b
  | _ => false
  end.

(** A top-level occurrence of [op] ending at index [i]. *)
Definition occursAt (op expr : str) (i : nat) : bool :=
  topLevel expr i && standsAt op expr i.

(** The rightmost top-level occurrence of [op] that ends below index [n]. *)
Fixpoint lastOccurrence (op expr : str) (n : nat) : option nat :=
  match n with
  | O => None
  | S n' => if occursAt op expr n' then Some n' else lastOccurrence op expr n'
  end.

(** The selection in the words of the specification: the operators in
    tiers, lowest precedence first; the rightmost top-level occurrence of
    any operator of the tier (a two-character operator before its last
    character alone); the lowest tier that has one. *)
Definition specTiers : list (list str) :=
  [ [s "<>"; s "<="; s ">="; s "="; s "<"; s ">"];
    [s "&"];
    [s "+"; s "-"];
    [s "*"; s "/"];
    [s "^"] ].

Fixpoint specTierOccurrence (tier : list str) (expr : str) (n : nat)
    : option (str * nat) :=
  match n with
  | O => None
  | S n' =>
      match find (fun op => occursAt op expr n') tier with
      | Some op => Some (op, (n' + 1 - length op)%nat)
      | None => specTierOccurrence tier expr n'
      end
  end.

Fixpoint specFirstTier (tiers : list (list str)) (expr : str) : option (str * nat) :=
  match tiers with
  | [] => None
  | tier :: tiers' =>
      match specTierOccurrence tier expr (length expr) with
      | Some r => Some r
      | None => specFirstTier tiers' expr
      end
  end.

Definition specTopLevelOperator (expr : str) : option (str * nat) :=
  specFirstTier specTiers expr.

(** ** For the addresses *)

(** The largest integer below which every integer is a number of the
    language ([Number.MAX_SAFE_INTEGER]): the arithmetic of rows and columns
    is exact up to it. *)
Definition maxSafeInteger : Z := 9007199254740991.

(** Whether a letter is directly followed by a digit somewhere in a text. *)
Fixpoint letterThenDigit (a : str) : bool :=
  match a with
  | c :: a' =>
      match a' with
      | d :: _ => (isLetter c && isDigit d) || letterThenDigit a'
      | [] => false
      end
  | [] => false
  end.

(** A text without quotes, parentheses and braces. *)
Definition plainText (x : str) : Prop :=
  Forall (fun c => FormulaParser.isQuote c = false /\
                   chr_eqb c "(" = false /\ chr_eqb c ")" = false /\
                   chr_eqb c "{" = false /\ chr_eqb c "}" = false) x.

(** The parentheses opened and not closed in a text (negative when more
    are closed than opened). *)
Fixpoint parenDepth (x : str) : Z :=
  match x with
  | [] => 0
  | c :: x' =>
      (if chr_eqb c "(" then 1 else if chr_eqb c ")" then -1 else 0) + parenDepth x'
  end.

(** A text whose parentheses match: none is closed before it is opened, and
    all are closed at the end. *)
Definition balanced (x : str) : Prop :=
  parenDepth x = 0 /\ forall n, 0 <= parenDepth (firstn n x).

(** ** For the dependents of the graph *)

(** One copy of [address] for every occurrence of [y] among [precs]. *)
Definition mentions (address : str) (precs : list str) (y : str) : list str :=
  map (fun _ => address) (filter (str_eqb y) precs).

(** The keys of the entries that have [y] among their precedents, in the
    order of the map, once per occurrence. *)
Definition referrers (m : DepMap) (y : str) : list str :=
  flat_map (fun e => mentions (fst e) (precedents (snd e)) y) m.

Definition referrersOf (sh : list (str * (list str * str))) (y : str) : list str :=
  flat_map (fun e => mentions (fst e) (fst (snd e)) y) sh.

(** The keys of the map are distinct, every entry has the dependents
    [base] names for its key, and [base] names none for a text that is not a
    key. *)
Definition exactDependents (base : str -> list str) (m : DepMap) : Prop :=
  NoDup (keys m) /\
  (forall y iy, mapGet y m = Some iy -> dependents iy = base y) /\
  (forall y, mapGet y m = None -> base y = []).

(** An entry as the first pass writes it: no dependents yet, a formula
    text that begins with the equals sign, the precedents extracted from that
    text, and a key made of the sheet name, an exclamation mark and an
    address written from coordinates. *)
Definition scannedEntry (e : str * DepInfo) : Prop :=
  dependents (snd e) = [] /\ startsWith (s "=") (formula (snd e)) = true /\
  exists (sheet : str) (r c : Z),
    fst e = sheet ++ s "!" ++ coordinatesToAddress r c /\
    precedents (snd e) = extractPrecedents (formula (snd e)) sheet.

(** A sheet [Data] whose used range [A1:B2] holds [=B1+B1], [7], [=A1] and
    [=Other!C3*A1]. *)
Definition dataHost : Host :=
  mkHost [s "Data"]
         (fun _ _ => Some (mkRange (s "Data!A1:B2")
                             [[s "=B1+B1"; s "7"]; [s "=A1"; s "=Other!C3*A1"]])).

Definition dataScope : AnalysisScope :=
  mkScope Worksheet (Some (s "Data")) None None.

(** A key the scan of the given sheets writes: the name of one of them, an
    exclamation mark, and an address written from coordinates. *)
Definition keyFrom (sheets : list str) (e : str * DepInfo) : Prop :=
  exists (sheet : str) (r c : Z),
    In sheet sheets /\ fst e = sheet ++ s "!" ++ coordinatesToAddress r c.

(** ** For the focus view *)

(** [isInFocusArea] answers yes. *)
Definition focusTest (focus : FocusArea) (address : str) : bool :=
  match isInFocusArea address focus with
  | Some true => true
  | _ => false
  end.

(** The predicate of the two filters answers yes: outside the focus area
    and in scope. *)
Definition outsideTest (focus : FocusArea) (scope : AnalysisScope) (p : str) : bool :=
  match outsideFocus focus scope p with
  | Some true => true
  | _ => false
  end.

(** A formula-bearing entry inside the focus area. *)
Definition insideFormula (focus : FocusArea) (e : str * DepInfo) : bool :=
  formulaBearing e && focusTest focus (fst e).

Definition inflowEntry (focus : FocusArea) (scope : AnalysisScope)
    (e : str * DepInfo) : bool :=
  insideFormula focus e && existsb (outsideTest focus scope) (precedents (snd e)).

Definition outflowEntry (focus : FocusArea) (scope : AnalysisScope)
    (e : str * DepInfo) : bool :=
  insideFormula focus e && existsb (outsideTest focus scope) (dependents (snd e)).

(** A graph with a cell of the focus sheet [In] that reads a cell of the
    sheet [Out] and is read by another. *)
Definition focusGraph : DepMap :=
  [ (s "Out!A1", mkInfo [] [s "In!A1"] (s "=1"));
    (s "In!A1", mkInfo [s "Out!A1"] [s "Out!B1"] (s "=Out!A1"));
    (s "Out!B1", mkInfo [s "In!A1"] [] (s "=In!A1")) ].

Definition focusScope : AnalysisScope :=
  mkScope Workbook None None (Some (mkFocus (Some (s "In")) None)).

(** The scope of the whole workbook with a focus area that names neither a
    sheet nor a range. *)
Definition openFocusScope : AnalysisScope :=
  mkScope Workbook None None (Some (mkFocus None None)).

(** ** For the cells and the blocks of a comparison *)

(** The cells of a grid of the given size, in the order of the two loops of
    [compareRanges]. *)
Definition gridCells (rows cols : nat) : list (nat * nat) :=
  flat_map (fun r => map (pair r) (seq 0 cols)) (seq 0 rows).

Definition unionRows (refFormulas compFormulas : list (list str)) : nat :=
  Nat.max (length refFormulas) (length compFormulas).

Definition unionCols (refFormulas compFormulas : list (list str)) : nat :=
  Nat.max (length (nth 0 refFormulas [])) (length (nth 0 compFormulas [])).

(** The test of the inner loop at one cell. *)
Definition cellDiffers (numberText : float -> str)
    (refFormulas : list (list str)) (refValues : list (list JSValue))
    (compFormulas : list (list str)) (compValues : list (list JSValue))
    (options : ComparisonOptions) (rc : nat * nat) : bool :=
  if compareFormulas options
  then areFormulasDifferent (formulaAt refFormulas (fst rc) (snd rc))
                            (formulaAt compFormulas (fst rc) (snd rc))
                            (ignoreInputs options)
  else areValuesDifferent numberText (valueAt refValues (fst rc) (snd rc))
                          (valueAt compValues (fst rc) (snd rc)).

(** The record of a cell of a grid. *)
Definition recordedCell (formulas : list (list str)) (values : list (list JSValue))
    (rc : nat * nat) : CellDifference :=
  mkCellDifference
    (ComparisonHelper.getAddress (Z.of_nat (fst rc)) (Z.of_nat (snd rc)))
    (formulaAt formulas (fst rc) (snd rc)) (valueAt values (fst rc) (snd rc)) true.

(** The blocks of a state of the loops: the finished ones, then the open
    one. *)
Definition blocksOf (st : LoopState) : list DifferenceBlock :=
  l_differences st ++ match l_currentBlock st with
                      | Some b => [b]
                      | None => []
                      end.

(** A block, a state and a result with the two sides exchanged. *)
Definition swapBlock (b : DifferenceBlock) : DifferenceBlock :=
  mkBlock (startRow b) (startCol b) (endRow b) (endCol b)
          (comparatorCells b) (referenceCells b).

Definition swapState (st : LoopState) : LoopState :=
  mkLoop (map swapBlock (l_differences st)) (l_total st)
         (option_map swapBlock (l_currentBlock st)).

Definition swapResult (r : ComparisonResult) : ComparisonResult :=
  mkComparison (map swapBlock (differences r)) (totalDifferences r)
               (alignmentNeeded r) (insertedRows r) (insertedColumns r).

(** An address of a block: that of a row between the first and the last row
    of the block and of a column between the one before its first column and
    its last column. *)
Definition addressWithin (b : DifferenceBlock) (address : str) : Prop :=
  exists r c : Z,
    address = ComparisonHelper.getAddress r c /\
    startRow b <= r <= endRow b /\ startCol b - 1 <= c <= endCol b.

Definition blockGood (rows cols : nat) (b : DifferenceBlock) : Prop :=
  0 <= startRow b <= endRow b /\ endRow b < Z.of_nat rows /\
  0 <= startCol b <= endCol b /\ endCol b < Z.of_nat cols /\
  referenceCells b <> [] /\
  Forall (addressWithin b) (map cd_address (referenceCells b)).

(** ** For the trees of the parser *)

(** The shape of the trees [parse] builds: a literal is a leaf; a reference
    is a leaf whose address is its text, a text [isCellReference] accepts; an
    operator node has one of the operator symbols and two children; a
    function node has its arguments as children; no node is an array node and
    no node has its [isActive] field set. *)
Fixpoint wellFormedNode (n : FormulaNode) : bool :=
  match n with
  | mkNode TLiteral _ None None None => true
  | mkNode TReference v None (Some a) None => str_eqb a v && isCellReference v
  | mkNode TOperator op (Some [l; r]) None None =>
      existsb (str_eqb op) precedenceOrder && wellFormedNode l && wellFormedNode r
  | mkNode TFunction _ (Some kids) None None => forallb wellFormedNode kids
  | _ => false
  end.

(** ** For the annotation of branches *)

(** A node with its [isActive] field set. *)
Definition setActive (flag : bool) (n : FormulaNode) : FormulaNode :=
  match n with
  | mkNode t v c a _ => mkNode t v c a (Some flag)
  end.

(** The first two nodes of a list marked active (the one node, when there
    is no second). *)
Definition activatePair (kids : list FormulaNode) : list FormulaNode :=
  match kids with
  | [] => []
  | [c] => [setActive true c]
  | c :: r :: rest => setActive true c :: setActive true r :: rest
  end.

(** ** For the alignment of rows *)

(** The test of the loop of [detectAlignmentIssues] at row [i]: a row is
    missing on one side, or the two rows are not similar. *)
Definition rowsDiffer (refFormulas compFormulas : list (list str)) (i : nat) : bool :=
  match nth_error refFormulas i, nth_error compFormulas i with
  | Some refRow, Some compRow => negb (areRowsSimilar refRow compRow)
  | _, _ => true
  end.

(** ** For the navigation history *)

(** The calls a client can make on the history. *)
Inductive HistoryCall : Type :=
| CallAdd (sheet address : str)
| CallBack
| CallForward
| CallClear.

(** A sequence of calls, from a given state; [select] is the host. *)
Definition historyCall (select : KeyboardShortcutManager.Location -> bool)
    (h : KeyboardShortcutManager.History) (c : HistoryCall)
    : KeyboardShortcutManager.History :=
  match c with
  | CallAdd sheet address => KeyboardShortcutManager.addToHistory h sheet address
  | CallBack => snd (KeyboardShortcutManager.navigateBack select h)
  | CallForward => snd (KeyboardShortcutManager.navigateForward select h)
  | CallClear => KeyboardShortcutManager.clearHistory
  end.

Definition historyCalls (select : KeyboardShortcutManager.Location -> bool)
    (calls : list HistoryCall) : KeyboardShortcutManager.History :=
  fold_left (historyCall select) calls KeyboardShortcutManager.clearHistory.

(** The index points into the list (or is -1 on the empty list) and the
    list holds at most [maxHistorySize] locations. *)
Definition historyOk (h : KeyboardShortcutManager.History) : Prop :=
  (length (KeyboardShortcutManager.navigationHistory h)
     <= KeyboardShortcutManager.maxHistorySize)%nat /\
  ((KeyboardShortcutManager.navigationHistory h = [] /\
    KeyboardShortcutManager.currentHistoryIndex h = -1) \/
   0 <= KeyboardShortcutManager.currentHistoryIndex h
     < Z.of_nat (length (KeyboardShortcutManager.navigationHistory h))).

(** The location the index points at. *)
Definition currentLocation (h : KeyboardShortcutManager.History)
    : option KeyboardShortcutManager.Location :=
  if KeyboardShortcutManager.currentHistoryIndex h <? 0 then None
  else nth_error (KeyboardShortcutManager.navigationHistory h)
                 (Z.to_nat (KeyboardShortcutManager.currentHistoryIndex h)).

(** * Properties *)

(** ** Generic facts *)

Lemma str_eqb_refl (a : str) : str_eqb a a = true.
Proof. unfold str_eqb. destruct (list_eq_dec ascii_dec a a); congruence. Qed.

Lemma str_eqb_eq (a b : str) : str_eqb a b = true <-> a = b.
Proof.
  unfold str_eqb. destruct (list_eq_dec ascii_dec a b); split; congruence.
Qed.

Lemma str_eqb_neq (a b : str) : str_eqb a b = false <-> a <> b.
Proof.
  unfold str_eqb. destruct (list_eq_dec ascii_dec a b); split; congruence.
Qed.

(** A property kept by every turn of a loop holds when the loop ends. *)
Lemma fold_left_invariant {A B : Type} (P : A -> Prop) (f : A -> B -> A)
    (l : list B) (a : A) :
  P a -> (forall x b, P x -> P (f x b)) -> P (fold_left f l a).
Proof.
  revert a. induction l as [|b l IH]; intros a Ha Hstep; simpl; auto.
Qed.

(** ** The comparison of ranges *)

Section Comparison.

Variable numberText : float -> str.

Lemma areFormulasDifferent_same (f : str) (ignore : bool) :
  areFormulasDifferent f f ignore = false.
Proof.
  unfold areFormulasDifferent. destruct ignore; simpl; now rewrite str_eqb_refl.
Qed.

(** A number that is not [===] to itself is [NaN], and then the difference
    with itself is [NaN] too, which is not above the tolerance. *)
Lemma number_self_tolerance (f : float) :
  PrimFloat.eqb f f = false ->
  PrimFloat.ltb 1e-10 (PrimFloat.abs (PrimFloat.sub f f)) = false.
Proof.
  intro H. rewrite ltb_spec, abs_spec, sub_spec.
  rewrite eqb_spec in H.
  destruct (Prim2SF f) as [sg | sg | | sg m e].
  - discriminate H.
  - unfold SFeqb, SFcompare in H. destruct sg; discriminate H.
  - reflexivity.
  - unfold SFeqb, SFcompare in H.
    destruct sg; rewrite ?Z.compare_refl, ?Pos.compare_refl in H;
      simpl in H; rewrite ?Pos.compare_refl in H; discriminate H.
Qed.

Lemma areValuesDifferent_same (v : JSValue) :
  areValuesDifferent numberText v v = false.
Proof.
  unfold areValuesDifferent.
  destruct (strictEq v v) eqn:E; [reflexivity|].
  destruct v as [| | b | f | x]; simpl in E; try discriminate E.
  - destruct b; discriminate E.
  - now apply number_self_tolerance.
  - now rewrite str_eqb_refl in E.
Qed.

Lemma compareCell_same formulas values options r c st :
  compareCell numberText formulas values formulas values options r c st = st.
Proof.
  unfold compareCell.
  rewrite areFormulasDifferent_same, areValuesDifferent_same.
  now destruct (compareFormulas options).
Qed.

Lemma cellsOf_app (a b : list DifferenceBlock) :
  cellsOf (a ++ b) = cellsOf a + cellsOf b.
Proof. induction a as [|x a IH]; simpl; [reflexivity | rewrite IH; lia]. Qed.

Lemma openBlock_invariant st r c done cur :
  loopInvariant st -> openBlock st r c = (done, cur) ->
  Forall paired done /\ paired cur /\
  l_total st = cellsOf done + Z.of_nat (length (referenceCells cur)).
Proof.
  intros (Hd & Hc & Ht) H. unfold openBlock in H.
  destruct (l_currentBlock st) as [b|] eqn:E; simpl in Ht.
  - specialize (Hc b eq_refl).
    destruct (isAdjacent b r c); simpl in H; inversion H; subst; clear H.
    + split; [exact Hd|]. split; [exact Hc|]. exact Ht.
    + split; [apply Forall_app; split; auto|].
      split; [reflexivity|].
      rewrite cellsOf_app. simpl. lia.
  - inversion H; subst; clear H.
    split; [exact Hd|]. split; [reflexivity|]. simpl. lia.
Qed.

Lemma compareCell_invariant rf rv cf cv options r c st :
  loopInvariant st ->
  loopInvariant (compareCell numberText rf rv cf cv options r c st).
Proof.
  intro Hinv. unfold compareCell.
  match goal with |- context [if ?d then _ else st] => destruct d end; [|exact Hinv].
  destruct (openBlock st (Z.of_nat r) (Z.of_nat c)) as [done cur] eqn:E.
  destruct (openBlock_invariant _ _ _ _ _ Hinv E) as (Hd & Hc & Ht).
  unfold loopInvariant; simpl. repeat split.
  - exact Hd.
  - intros b Hb. inversion Hb; subst; clear Hb. unfold paired in *; simpl.
    rewrite !map_app, Hc. reflexivity.
  - rewrite length_app. simpl. lia.
Qed.

Lemma compareRanges_invariant rf rv cf cv options :
  let r := compareRanges numberText rf rv cf cv options in
  Forall paired (differences r) /\ totalDifferences r = cellsOf (differences r).
Proof.
  unfold compareRanges.
  match goal with |- context [fold_left ?f ?l ?a] =>
    assert (Hinv : loopInvariant (fold_left f l a)) end.
  { apply fold_left_invariant.
    - unfold loopInvariant; simpl. repeat split; [constructor | discriminate].
    - intros st r Hst. apply fold_left_invariant; [exact Hst|].
      intros st' c Hst'. now apply compareCell_invariant. }
  match type of Hinv with loopInvariant ?x => set (final := x) in * end.
  destruct Hinv as (Hd & Hc & Ht). simpl.
  destruct (l_currentBlock final) as [b|] eqn:E; simpl in *.
  - split.
    + apply Forall_app. split; auto.
    + rewrite cellsOf_app. simpl. lia.
  - split; [exact Hd | lia].
Qed.

End Comparison.

(** [C8] Comparing a grid (its formulas and its values) against itself
    reports a total difference count of zero, whatever the options: in
    formula mode, with or without the option that ignores references, and in
    value mode. *)
Theorem compareRanges_self_zero (numberText : float -> str)
    (formulas : list (list str)) (values : list (list JSValue))
    (options : ComparisonOptions) :
  totalDifferences (compareRanges numberText formulas values formulas values options) = 0
  /\ differences (compareRanges numberText formulas values formulas values options) = [].
Proof.
  unfold compareRanges.
  match goal with |- context [fold_left ?f ?l ?a] =>
    assert (H : fold_left f l a = a) end.
  { apply fold_left_invariant with (P := fun st => st = mkLoop [] 0 None); [reflexivity|].
    intros st r ->.
    apply fold_left_invariant with (P := fun st => st = mkLoop [] 0 None); [reflexivity|].
    intros st c ->. apply compareCell_same. }
  rewrite H. simpl. split; reflexivity.
Qed.

(** [C9] The formulas [=B1+B2] and [=B1+B3] both normalize to [=REF+REF];
    comparing a one-cell reference grid holding the first with a one-cell
    comparator grid holding the second, in formula mode, reports no
    difference when references are ignored, and one difference (one block of
    one cell, at [A1]) when they are not. *)
Theorem compareRanges_reference_only (numberText : float -> str)
    (refValues compValues : list (list JSValue)) (align : bool) :
  normalizeFormula (s "=B1+B2") = s "=REF+REF" /\
  normalizeFormula (s "=B1+B3") = s "=REF+REF" /\
  areFormulasDifferent (s "=B1+B2") (s "=B1+B3") true = false /\
  areFormulasDifferent (s "=B1+B2") (s "=B1+B3") false = true /\
  (let r := compareRanges numberText [[s "=B1+B2"]] refValues [[s "=B1+B3"]]
              compValues (mkOptions true true align) in
   totalDifferences r = 0 /\ differences r = []) /\
  (let r := compareRanges numberText [[s "=B1+B2"]] refValues [[s "=B1+B3"]]
              compValues (mkOptions true false align) in
   totalDifferences r = 1 /\
   map (fun b => map cd_address (referenceCells b)) (differences r) = [[s "A1"]]).
Proof.
  repeat split; vm_compute; reflexivity.
Qed.

(** [C10] In every result of [compareRanges], each block's [referenceCells]
    and [comparatorCells] have the same length and the same addresses,
    position by position, and [totalDifferences] is the sum over the blocks
    of the length of [referenceCells]. *)
Theorem compareRanges_blocks_consistent (numberText : float -> str)
    (refFormulas : list (list str)) (refValues : list (list JSValue))
    (compFormulas : list (list str)) (compValues : list (list JSValue))
    (options : ComparisonOptions) :
  let r := compareRanges numberText refFormulas refValues compFormulas compValues options in
  Forall (fun b =>
            length (referenceCells b) = length (comparatorCells b) /\
            map cd_address (referenceCells b) = map cd_address (comparatorCells b))
         (differences r) /\
  totalDifferences r =
    fold_right (fun b n => Z.of_nat (length (referenceCells b)) + n) 0 (differences r).
Proof.
  intro r.
  destruct (compareRanges_invariant numberText refFormulas refValues compFormulas
              compValues options) as (Hp & Ht).
  fold r in Hp, Ht. split; [|exact Ht].
  eapply Forall_impl; [|exact Hp].
  intros b Hb. split; [|exact Hb].
  unfold paired in Hb. apply (f_equal (@length str)) in Hb.
  now rewrite !length_map in Hb.
Qed.

(** ** The regular-expression matcher on runs of one class *)

(** A greedy star over a run of characters of its class, followed by a
    character outside the class (or by the end of the text), takes the whole
    run when the continuation accepts what follows. *)
Lemma starGreedy_run (p : ascii -> bool) (l rest : str) (pos : nat)
    (caps : list (nat * str)) (k : Cont) (r : MatchState) :
  Forall (fun c => p c = true) l ->
  match rest with [] => True | c :: _ => p c = false end ->
  k (mkState rest (pos + length l) caps) = Some r ->
  starGreedy p (l ++ rest) pos caps k = Some r.
Proof.
  intros Hl Hrest. revert pos. induction Hl as [|a l Ha Hl IH]; intros pos Hk.
  - simpl in *. rewrite Nat.add_0_r in Hk.
    destruct rest as [|c rest]; [exact Hk|]. simpl. now rewrite Hrest.
  - simpl. rewrite Ha. rewrite IH; [reflexivity|].
    simpl in Hk. now rewrite Nat.add_succ_r in Hk.
Qed.

Lemma digit_not_letter (c : ascii) : isDigit c = true -> isLetter c = false.
Proof.
  unfold isDigit, isLetter, isUpper, isLower. intro H.
  apply andb_true_iff in H. destruct H as [H1 H2].
  apply Z.leb_le in H1, H2.
  apply orb_false_iff. split; apply andb_false_iff; left; apply Z.leb_gt; lia.
Qed.

Lemma upper_is_letter (c : ascii) : isUpper c = true -> isLetter c = true.
Proof. unfold isLetter. now intros ->. Qed.

(** The pattern of [addressToCoords] on column letters followed by row
    digits: one match, the letters in group 1, the digits in group 2. *)
Lemma firstn_run {A : Type} (a b : list A) (n : nat) :
  n = length a -> firstn n (a ++ b) = a.
Proof.
  intros ->. rewrite <- (Nat.add_0_r (length a)), firstn_app_2.
  simpl. apply List.app_nil_r.
Qed.

Lemma matchHere_reAddress (letters digits : str) (pos : nat) :
  letters <> [] -> Forall (fun c => isLetter c = true) letters ->
  digits <> [] -> Forall (fun c => isDigit c = true) digits ->
  matchHere reAddress (letters ++ digits) pos =
    Some (mkState [] (pos + length letters + length digits)
                  [(2%nat, digits); (1%nat, letters)]).
Proof.
  intros Hl Hletters Hd Hdigits.
  destruct letters as [|a l]; [congruence|].
  destruct digits as [|d ds]; [congruence|].
  inversion Hletters as [|? ? Ha Hl']; subst.
  inversion Hdigits as [|? ? Hd0 Hds]; subst.
  unfold matchHere, reAddress, Plus.
  cbn -[Nat.sub firstn Nat.add]. rewrite Ha.
  apply starGreedy_run; [exact Hl' | now apply digit_not_letter |].
  cbn -[Nat.sub firstn Nat.add]. rewrite Hd0.
  rewrite <- (List.app_nil_r ds) at 1.
  apply starGreedy_run; [exact Hds | exact I |].
  cbn -[Nat.sub firstn Nat.add]. f_equal. f_equal.
  - cbn [length]. lia.
  - f_equal.
    + f_equal. rewrite <- (List.app_nil_r (d :: ds)) at 1.
      apply firstn_run. cbn [length]. lia.
    + f_equal. f_equal.
      change (a :: l ++ d :: ds) with ((a :: l) ++ d :: ds).
      apply firstn_run. cbn [length]. lia.
Qed.

(** ** Column letters and numbers *)

Lemma columnToNumber_snoc (l : str) (c : ascii) :
  columnToNumber (l ++ [c]) = columnToNumber l * 26 + (code c - 64).
Proof. unfold columnToNumber. now rewrite fold_left_app. Qed.

Lemma upper_code (c : ascii) : isUpper c = true -> 1 <= code c - 64 <= 26.
Proof.
  unfold isUpper. intro H. apply andb_true_iff in H. destruct H as [H1 H2].
  apply Z.leb_le in H1, H2. lia.
Qed.

Lemma fromCharCode_code (c : ascii) : fromCharCode (code c) = c.
Proof.
  unfold fromCharCode, code. rewrite N2Z.id. apply ascii_N_embedding.
Qed.

(** The number of a column of [n] capital letters lies between [26^(n-1)]
    (here bounded below by [2^(n-1)]) and [27^n]. *)
Lemma columnToNumber_bounds (l : str) :
  Forall (fun c => isUpper c = true) l ->
  0 <= columnToNumber l < 27 ^ Z.of_nat (length l) /\
  (l <> [] -> 2 ^ (Z.of_nat (length l) - 1) <= columnToNumber l).
Proof.
  induction l as [|c l IH] using rev_ind; intro H.
  - simpl. split; [unfold columnToNumber; simpl; lia | congruence].
  - apply Forall_app in H. destruct H as [Hl Hc].
    inversion Hc as [|? ? Hc' _]; subst.
    destruct (IH Hl) as [[Hlo Hhi] Hpow].
    pose proof (upper_code c Hc') as Hd.
    rewrite columnToNumber_snoc, length_app. simpl length.
    rewrite Nat.add_1_r, Nat2Z.inj_succ.
    rewrite Z.pow_succ_r by lia.
    split; [lia|]. intros _.
    replace (Z.succ (Z.of_nat (length l)) - 1) with (Z.of_nat (length l)) by lia.
    destruct l as [|a l'].
    + simpl. unfold columnToNumber; simpl. lia.
    + assert (Hne : a :: l' <> []) by congruence.
      specialize (Hpow Hne).
      replace (Z.of_nat (length (a :: l'))) with
        (Z.succ (Z.of_nat (length (a :: l')) - 1)) by lia.
      rewrite Z.pow_succ_r; [lia|]. simpl length. lia.
Qed.

(** The loop of [numberToColumn] rebuilds the letters [columnToNumber]
    read, given one unit of fuel per letter. *)
Lemma numberToColumn_loop_letters (l : str) :
  Forall (fun c => isUpper c = true) l ->
  forall (fuel : nat) (acc : str),
    (length l <= fuel)%nat ->
    numberToColumn_loop fuel (columnToNumber l) acc = l ++ acc.
Proof.
  induction l as [|c l IH] using rev_ind; intros H fuel acc Hfuel.
  - unfold columnToNumber. simpl. now destruct fuel.
  - apply Forall_app in H. destruct H as [Hl Hc].
    inversion Hc as [|? ? Hc' _]; subst.
    pose proof (upper_code c Hc') as Hd.
    destruct (columnToNumber_bounds l Hl) as [[Hlo _] _].
    rewrite length_app in Hfuel. simpl in Hfuel.
    destruct fuel as [|fuel]; [lia|].
    rewrite columnToNumber_snoc. cbn [numberToColumn_loop].
    replace (columnToNumber l * 26 + (code c - 64) >? 0) with true
      by (symmetry; apply Z.gtb_lt; lia).
    rewrite Z.rem_mod_nonneg by lia.
    replace ((columnToNumber l * 26 + (code c - 64) - 1) mod 26)
      with (code c - 65)
      by (apply Z.mod_unique with (q := columnToNumber l); lia).
    replace ((columnToNumber l * 26 + (code c - 64) - 1) / 26)
      with (columnToNumber l)
      by (apply Z.div_unique with (r := code c - 65); lia).
    replace (65 + (code c - 65)) with (code c) by lia.
    rewrite fromCharCode_code, IH by (auto; lia).
    now rewrite <- app_assoc.
Qed.

Lemma numberToColumn_columnToNumber (l : str) :
  Forall (fun c => isUpper c = true) l ->
  numberToColumn (columnToNumber l) = l.
Proof.
  intro H. unfold numberToColumn.
  rewrite numberToColumn_loop_letters; [apply List.app_nil_r | exact H |].
  destruct l as [|a l']; [simpl; lia|].
  destruct (columnToNumber_bounds (a :: l') H) as [_ Hpow].
  assert (Hne : a :: l' <> []) by congruence. specialize (Hpow Hne).
  assert (Hlog : Z.of_nat (length (a :: l')) - 1 <= Z.log2 (columnToNumber (a :: l'))).
  { rewrite <- (Z.log2_pow2 (Z.of_nat (length (a :: l')) - 1)) by (simpl length; lia).
    now apply Z.log2_le_mono. }
  lia.
Qed.

Lemma numberToColumn_loop_S (fuel : nat) (num : Z) (acc : str) :
  numberToColumn_loop (S fuel) num acc =
  if num >? 0
  then numberToColumn_loop fuel ((num - 1) / 26)
         (fromCharCode (65 + Z.rem (num - 1) 26) :: acc)
  else acc.
Proof. reflexivity. Qed.

Lemma numberToColumn_loop_done (fuel : nat) (num : Z) (acc : str) :
  num <= 0 -> numberToColumn_loop fuel num acc = acc.
Proof.
  intro H. destruct fuel; [reflexivity|]. cbn [numberToColumn_loop].
  replace (num >? 0) with false; [reflexivity|].
  symmetry. rewrite Z.gtb_ltb. apply Z.ltb_ge. exact H.
Qed.

(** Enough fuel: with more than [log2 num] turns allowed, the loop of
    [numberToColumn] stops because [num] has reached 0, so that more fuel
    changes nothing. *)
Lemma numberToColumn_loop_fuel (fuel : nat) :
  forall (num : Z) (acc : str),
    (Z.to_nat (Z.log2 num) < fuel)%nat ->
    numberToColumn_loop (S fuel) num acc = numberToColumn_loop fuel num acc.
Proof.
  induction fuel as [|fuel IH]; intros num acc Hfuel; [lia|].
  rewrite (numberToColumn_loop_S (S fuel)), (numberToColumn_loop_S fuel num acc).
  destruct (num >? 0) eqn:Hpos; [|reflexivity].
  apply Z.gtb_lt in Hpos.
  destruct (Z_le_gt_dec ((num - 1) / 26) 0) as [Hz|Hnz].
  - rewrite !numberToColumn_loop_done by exact Hz. reflexivity.
  - apply IH.
    assert (Hlog : Z.log2 ((num - 1) / 26) < Z.log2 num).
    { apply Z.log2_lt_pow2; [lia|].
      pose proof (Z.log2_spec num Hpos) as [Hlow _].
      assert (H26 : 26 * ((num - 1) / 26) <= num - 1)
        by (apply Z.mul_div_le; lia).
      destruct (Z.lt_ge_cases ((num - 1) / 26) (2 ^ Z.log2 num)) as [Hc|Hc];
        [exact Hc|].
      pose proof (Z.log2_spec num Hpos) as [_ Hup].
      rewrite Z.pow_succ_r in Hup by apply Z.log2_nonneg. lia. }
    pose proof (Z.log2_nonneg ((num - 1) / 26)) as Hn.
    lia.
Qed.

(** ** Row digits and numbers *)

Lemma digit_cases (c : ascii) :
  isDigit c = true -> In c (s "0123456789").
Proof.
  destruct c as [[|] [|] [|] [|] [|] [|] [|] [|]]; intro H;
    vm_compute in H; try discriminate H; simpl; tauto.
Qed.

(** A text of digits reads as a decimal numeral with as many digits. *)
Lemma uint_of_digits (ds : str) :
  Forall (fun c => isDigit c = true) ds ->
  exists d, NilEmpty.uint_of_string (string_of_list_ascii ds) = Some d /\
            Decimal.nb_digits d = length ds.
Proof.
  induction 1 as [|c ds Hc Hds IH].
  - exists Decimal.Nil. split; reflexivity.
  - destruct IH as (d & Hd & Hn). simpl. rewrite Hd.
    apply digit_cases in Hc. simpl in Hc.
    repeat (destruct Hc as [<- | Hc];
            [eexists; split; [reflexivity | simpl; now rewrite Hn]|]).
    contradiction.
Qed.

(** A numeral without a leading zero is its own normal form. *)
Lemma unorm_digits (c : ascii) (ds : str) (d : Decimal.uint) :
  NilEmpty.uint_of_string (string_of_list_ascii (c :: ds)) = Some d ->
  c :: ds = s "0" \/ c <> "0"%char ->
  Decimal.unorm d = d.
Proof.
  intros Hd [H0 | Hc].
  - inversion H0; subst. simpl in Hd. inversion Hd. reflexivity.
  - simpl in Hd.
    destruct (NilEmpty.uint_of_string (string_of_list_ascii ds)) as [d'|];
      [|destruct c as [[|] [|] [|] [|] [|] [|] [|] [|]]; discriminate Hd].
    destruct c as [[|] [|] [|] [|] [|] [|] [|] [|]]; simpl in Hd;
      try discriminate Hd; inversion Hd; subst; try reflexivity.
    now contradiction Hc.
Qed.

Lemma of_lu_bound (d : Decimal.uint) :
  (DecimalPos.Unsigned.of_lu d < 10 ^ N.of_nat (Decimal.nb_digits d))%N.
Proof.
  induction d; cbn [DecimalPos.Unsigned.of_lu Decimal.nb_digits];
    rewrite ?Nat2N.inj_succ, ?N.pow_succ_r by apply N.le_0_l;
    simpl N.of_nat; try lia.
Qed.

Lemma of_uint_bound (d : Decimal.uint) :
  0 <= Z.of_uint d < 10 ^ Z.of_nat (Decimal.nb_digits d).
Proof.
  unfold Z.of_uint. rewrite DecimalPos.Unsigned.of_uint_alt.
  pose proof (of_lu_bound (Decimal.rev d)) as H.
  rewrite DecimalFacts.nb_digits_rev in H.
  split; [apply N2Z.is_nonneg|].
  apply N2Z.inj_lt in H. rewrite N2Z.inj_pow, nat_N_Z in H. exact H.
Qed.

(** Reading row digits that have no leading zero and printing the number
    gives the digits back; the number has at most as many digits. *)
Lemma parseInt_digits (ds : str) :
  ds <> [] -> Forall (fun c => isDigit c = true) ds ->
  ds = s "0" \/ hd "0"%char ds <> "0"%char ->
  exists n, parseInt ds = Some n /\ numberToString n = ds /\
            0 <= n < 10 ^ Z.of_nat (length ds).
Proof.
  intros Hne Hds Hlead.
  destruct (uint_of_digits ds Hds) as (d & Hd & Hn).
  destruct ds as [|c ds']; [congruence|].
  exists (Z.of_uint d).
  assert (Hz : NilZero.uint_of_string (string_of_list_ascii (c :: ds')) = Some d)
    by exact Hd.
  split; [unfold parseInt; now rewrite Hz|].
  split.
  - unfold numberToString.
    change (Z.of_uint d) with (Z.of_int (Decimal.Pos d)).
    rewrite DecimalZ.to_of. simpl Decimal.norm.
    rewrite (unorm_digits c ds' d Hd Hlead).
    simpl NilZero.string_of_int.
    rewrite (NilZero.sus _ _ Hz).
    apply list_ascii_of_string_of_list_ascii.
  - rewrite <- Hn. apply of_uint_bound.
Qed.

(** ** Addresses: the round trip *)

Lemma split_aux_without (sep : ascii) (x cur : str) :
  Forall (fun c => chr_eqb c sep = false) x ->
  split_aux sep cur x = [rev cur ++ x].
Proof.
  intro H. revert cur. induction H as [|c x Hc Hx IH]; intro cur; simpl.
  - now rewrite List.app_nil_r.
  - rewrite Hc, IH. simpl. now rewrite <- app_assoc.
Qed.

(** Splitting a text that does not hold the separator gives the text. *)
Lemma split_without (sep : ascii) (x : str) :
  Forall (fun c => chr_eqb c sep = false) x -> split sep x = [x].
Proof. intro H. unfold split. now rewrite split_aux_without. Qed.

Lemma stripDollar_id (x : str) :
  Forall (fun c => isLetter c = true \/ isDigit c = true) x -> stripDollar x = x.
Proof.
  induction 1 as [|c x Hc Hx IH]; [reflexivity|].
  unfold stripDollar in *. simpl. rewrite IH.
  replace (chr_eqb c "$") with false; [reflexivity|].
  symmetry. apply Ascii.eqb_neq. intros ->.
  destruct Hc as [Hc | Hc]; discriminate Hc.
Qed.

Lemma addressToCoords_plain (letters digits : str) (pos : nat) (n : Z) :
  letters <> [] -> Forall (fun c => isLetter c = true) letters ->
  digits <> [] -> Forall (fun c => isDigit c = true) digits ->
  parseInt digits = Some n ->
  option_map
    (fun m => (capture 1 (m_caps m), capture 2 (m_caps m)))
    (searchFrom reAddress (letters ++ digits) pos) =
  Some (Some letters, Some digits).
Proof.
  intros Hl Hletters Hd Hdigits Hn.
  destruct letters as [|a l]; [congruence|].
  change ((a :: l) ++ digits) with (a :: l ++ digits).
  cbn [searchFrom].
  change (a :: l ++ digits) with ((a :: l) ++ digits).
  rewrite matchHere_reAddress by assumption.
  reflexivity.
Qed.

(** [C6, amended] For an address made of an optional leading [$], one to
    eleven capital column letters and one to fifteen row digits without a
    leading zero, [addressToCoords] succeeds, the coordinates are integers
    a double holds exactly, and converting them back gives the address
    with its [$] stripped (by the address template, and by
    [getCellAddress] with zero offsets).  The column letters are read in
    base 26 without a zero digit: 1 is A, 26 is Z, 27 is AA, and the letters
    of a column number give that number back. *)
Theorem address_round_trip (dollar : bool) (letters digits : str) :
  letters <> [] -> Forall (fun c => isUpper c = true) letters ->
  (length letters <= 11)%nat ->
  digits <> [] -> Forall (fun c => isDigit c = true) digits ->
  (length digits <= 15)%nat ->
  digits = s "0" \/ hd "0"%char digits <> "0"%char ->
  let a := (if dollar then s "$" else []) ++ letters ++ digits in
  (exists c, addressToCoords a = Some c /\
             0 <= row c < 2 ^ 53 /\ 0 < col c < 2 ^ 53 /\
             col c = columnToNumber letters /\
             numberToColumn (col c) = letters) /\
  addressRoundTrip a = Some (stripDollar a) /\
  getCellAddress a 0 0 = Some (stripDollar a) /\
  stripDollar a = letters ++ digits /\
  numberToColumn 1 = s "A" /\ numberToColumn 26 = s "Z" /\
  numberToColumn 27 = s "AA".
Proof.
  intros Hl Hup Hlen Hd Hdig Hdlen Hlead a.
  assert (Hlet : Forall (fun c => isLetter c = true) letters).
  { eapply Forall_impl; [|exact Hup]. intros c. apply upper_is_letter. }
  destruct (parseInt_digits digits Hd Hdig Hlead) as (n & Hn & Hprint & Hbound).
  destruct (columnToNumber_bounds letters Hup) as [[Hclo Hchi] Hpow].
  specialize (Hpow Hl).
  assert (Hcoords : addressToCoords a = Some (mkCoords n (columnToNumber letters))).
  { unfold addressToCoords, regexMatch, a.
    pose proof (addressToCoords_plain letters digits) as Hm.
    destruct dollar.
    - change (s "$" ++ letters ++ digits) with ("$"%char :: letters ++ digits).
      cbn [searchFrom].
      replace (matchHere reAddress ("$"%char :: letters ++ digits) 0) with
        (@None MatchState) by reflexivity.
      specialize (Hm 1%nat n Hl Hlet Hd Hdig Hn).
      destruct (searchFrom reAddress (letters ++ digits) 1) as [m|];
        [|discriminate Hm].
      simpl in Hm. inversion Hm as [[H1 H2]]. rewrite H1, H2, Hn. reflexivity.
    - specialize (Hm 0%nat n Hl Hlet Hd Hdig Hn). simpl app.
      destruct (searchFrom reAddress (letters ++ digits) 0) as [m|];
        [|discriminate Hm].
      simpl in Hm. inversion Hm as [[H1 H2]]. rewrite H1, H2, Hn. reflexivity. }
  assert (Hstrip : stripDollar a = letters ++ digits).
  { unfold a. assert (Hid : stripDollar (letters ++ digits) = letters ++ digits).
    { apply stripDollar_id, Forall_app. split.
      - eapply Forall_impl; [|exact Hlet]. intros c Hc. now left.
      - eapply Forall_impl; [|exact Hdig]. intros c Hc. now right. }
    destruct dollar; [|exact Hid].
    unfold stripDollar in *. simpl. exact Hid. }
  assert (Hback : coordinatesToAddress n (columnToNumber letters) = letters ++ digits).
  { unfold coordinatesToAddress.
    now rewrite numberToColumn_columnToNumber, Hprint. }
  split.
  - exists (mkCoords n (columnToNumber letters)). simpl.
    split; [exact Hcoords|].
    assert (H10 : 10 ^ Z.of_nat (length digits) <= 10 ^ 15)
      by (apply Z.pow_le_mono_r; lia).
    assert (H27 : 27 ^ Z.of_nat (length letters) <= 27 ^ 11)
      by (apply Z.pow_le_mono_r; lia).
    assert (H2 : 0 < 2 ^ (Z.of_nat (length letters) - 1))
      by (apply Z.pow_pos_nonneg;
          [lia | destruct letters; [congruence | simpl length; lia]]).
    change (10 ^ 15) with 1000000000000000 in H10.
    change (27 ^ 11) with 5559060566555523 in H27.
    change (2 ^ 53) with 9007199254740992.
    repeat split; try lia.
    now apply numberToColumn_columnToNumber.
  - split; [unfold addressRoundTrip; rewrite Hcoords; simpl; now rewrite Hback, Hstrip|].
    split.
    + unfold getCellAddress.
      assert (Hsplit : nth 0 (split ":" a) [] = a).
      { rewrite split_without; [reflexivity|].
        unfold a. apply Forall_app. split.
        - destruct dollar; repeat constructor.
        - apply Forall_app. split.
          + eapply Forall_impl; [|exact Hlet]. intros c Hc.
            apply Ascii.eqb_neq. intros ->. discriminate Hc.
          + eapply Forall_impl; [|exact Hdig]. intros c Hc.
            apply Ascii.eqb_neq. intros ->. discriminate Hc. }
      rewrite Hsplit, Hcoords. simpl. rewrite !Z.add_0_r. now rewrite Hback, Hstrip.
    + split; [exact Hstrip|]. repeat split; reflexivity.
Qed.

Lemma address_round_trip_witness :
  addressRoundTrip (s "$XFD1048576") = Some (stripDollar (s "$XFD1048576")).
Proof.
  apply (address_round_trip true (s "XFD") (s "1048576")).
  - discriminate.
  - repeat constructor.
  - simpl; lia.
  - discriminate.
  - repeat constructor.
  - simpl; lia.
  - right. discriminate.
Defined.

(** [C6] as stated fails on the code: [$A$1] is a well-formed address, and
    [addressToCoords] throws on it (its pattern wants the row digits right
    after the column letters); [A01] is one too, and comes back as [A1]. *)
Lemma address_round_trip_counterexample :
  wellFormedAddress (s "$A$1") = true /\
  addressToCoords (s "$A$1") = None /\
  addressRoundTrip (s "$A$1") <> Some (stripDollar (s "$A$1")) /\
  wellFormedAddress (s "A01") = true /\
  addressRoundTrip (s "A01") = Some (s "A1") /\
  addressRoundTrip (s "A01") <> Some (stripDollar (s "A01")).
Proof.
  repeat split; try (vm_compute; reflexivity); vm_compute; discriminate.
Qed.

(** ** Branch annotation of [SWITCH] *)

(** [C5] On the code, a [SWITCH] whose first case matches and which has a
    default (four arguments) gets the matching case node, its result node
    AND the default node marked active: the check for the default does not
    look at whether a case matched. *)
Theorem switch_marks_default_after_match :
  option_map (fun n => option_map (map isActive) (children n))
    (evaluateLogicalBranch_SWITCH
       [JNum 1; JNum 1; JStr (s "a"); JStr (s "z")]
       (functionNode (s "SWITCH")
          [referenceNode (s "A1"); literalNode (s "1");
           literalNode (s "a"); literalNode (s "z")]))
  = Some (Some [None; Some true; Some true; Some true]).
Proof. vm_compute. reflexivity. Qed.

(** Without a match the default alone is marked, and without a default
    (odd argument count) a match marks the case and its result only. *)
Lemma switch_other_cases :
  option_map (fun n => option_map (map isActive) (children n))
    (evaluateLogicalBranch_SWITCH
       [JNum 2; JNum 1; JStr (s "a"); JStr (s "z")]
       (functionNode (s "SWITCH")
          [referenceNode (s "A1"); literalNode (s "1");
           literalNode (s "a"); literalNode (s "z")]))
  = Some (Some [None; None; None; Some true]) /\
  option_map (fun n => option_map (map isActive) (children n))
    (evaluateLogicalBranch_SWITCH
       [JNum 1; JNum 1; JStr (s "a")]
       (functionNode (s "SWITCH")
          [referenceNode (s "A1"); literalNode (s "1"); literalNode (s "a")]))
  = Some (Some [None; Some true; Some true]).
Proof. split; vm_compute; reflexivity. Qed.

(** ** Keys of the dependency graph *)

(** [C3] On the code the keys are not normalized: the precedent of
    [=$A$1] is recorded under the key [Sheet1!$A$1], a leaf entry of its
    own, while [=A1] points to the scanned cell [Sheet1!A1]; the two
    formulas do not meet in one entry. *)
Theorem absolute_reference_gets_own_key :
  extractPrecedents (s "=$A$1") (s "Sheet1") = [s "Sheet1!$A$1"] /\
  extractPrecedents (s "=A1") (s "Sheet1") = [s "Sheet1!A1"] /\
  buildDependencyGraph absoluteHost sheet1Scope =
    Some [ (s "Sheet1!A1", mkInfo [] [s "Sheet1!C1"] (s "=1"));
           (s "Sheet1!B1", mkInfo [s "Sheet1!$A$1"] [] (s "=$A$1"));
           (s "Sheet1!C1", mkInfo [s "Sheet1!A1"] [] (s "=A1"));
           (s "Sheet1!$A$1", mkInfo [] [s "Sheet1!B1"] []) ].
Proof. repeat split; vm_compute; reflexivity. Qed.

(** ** The dependency graph: the second pass *)

Lemma mapGet_mapSet_same (k : str) (v : DepInfo) (m : DepMap) :
  mapGet k (mapSet k v m) = Some v.
Proof.
  induction m as [|[k' v'] m IH]; simpl.
  - now rewrite str_eqb_refl.
  - destruct (str_eqb k' k) eqn:E; simpl.
    + now rewrite str_eqb_refl.
    + now rewrite E.
Qed.

Lemma mapGet_mapSet_other (k y : str) (v : DepInfo) (m : DepMap) :
  y <> k -> mapGet y (mapSet k v m) = mapGet y m.
Proof.
  intro Hy. induction m as [|[k' v'] m IH]; simpl.
  - replace (str_eqb k y) with false; [reflexivity|].
    symmetry. apply str_eqb_neq. congruence.
  - destruct (str_eqb k' k) eqn:E; simpl.
    + apply str_eqb_eq in E. subst k'.
      replace (str_eqb k y) with false; [reflexivity|].
      symmetry. apply str_eqb_neq. congruence.
    + now rewrite IH.
Qed.

Lemma mapSet_absent (k : str) (v : DepInfo) (m : DepMap) :
  mapGet k m = None -> mapSet k v m = m ++ [(k, v)].
Proof.
  induction m as [|[k' v'] m IH]; simpl; [reflexivity|].
  destruct (str_eqb k' k); [discriminate|]. intro H. now rewrite IH.
Qed.

Lemma shape_mapSet_present (k : str) (v v0 : DepInfo) (m : DepMap) :
  mapGet k m = Some v0 ->
  precedents v = precedents v0 -> formula v = formula v0 ->
  shape (mapSet k v m) = shape m.
Proof.
  intros Hget Hp Hf. induction m as [|[k' v'] m IH]; simpl in *; [discriminate|].
  destruct (str_eqb k' k) eqn:E.
  - apply str_eqb_eq in E. inversion Hget; subst. simpl. now rewrite Hp, Hf.
  - simpl. now rewrite IH.
Qed.

(** One precedent handled: the shape grows by at most one leaf. *)
Lemma shape_addDependent (a p : str) (m : DepMap) :
  shape (addDependent a m p) =
  shape m ++ match mapGet p m with
             | Some _ => []
             | None => [(p, ([], []))]
             end.
Proof.
  unfold addDependent. destruct (mapGet p m) as [ip|] eqn:E.
  - rewrite List.app_nil_r. now apply shape_mapSet_present with (v0 := ip).
  - rewrite mapSet_absent by exact E. unfold shape. now rewrite map_app.
Qed.

Lemma mapGet_addDependent_same (a p : str) (m : DepMap) :
  exists ip, mapGet p (addDependent a m p) = Some ip /\ In a (dependents ip).
Proof.
  unfold addDependent. destruct (mapGet p m) as [ip|];
    eexists; (split; [apply mapGet_mapSet_same|]); simpl.
  - apply in_or_app. right. now left.
  - now left.
Qed.

Lemma mapGet_addDependent_mono (a p y : str) (m : DepMap) (iy : DepInfo) :
  mapGet y m = Some iy ->
  exists iy', mapGet y (addDependent a m p) = Some iy' /\
              incl (dependents iy) (dependents iy').
Proof.
  intro Hy. unfold addDependent.
  destruct (list_eq_dec ascii_dec y p) as [->|Hne].
  - rewrite Hy. eexists. split; [apply mapGet_mapSet_same|].
    simpl. apply incl_appl, incl_refl.
  - exists iy. split; [|apply incl_refl].
    destruct (mapGet p m); now rewrite mapGet_mapSet_other.
Qed.

(** All the precedents of one cell handled. *)
Lemma fold_addDependent (a : str) (precs : list str) :
  forall m : DepMap,
    let m' := fold_left (addDependent a) precs m in
    (exists extra, shape m' = shape m ++ extra /\ Forall leaf extra /\
                   (length extra <= length precs)%nat) /\
    (forall y iy, mapGet y m = Some iy ->
       exists iy', mapGet y m' = Some iy' /\ incl (dependents iy) (dependents iy')) /\
    (forall p, In p precs ->
       exists ip, mapGet p m' = Some ip /\ In a (dependents ip)).
Proof.
  induction precs as [|p precs IH]; intro m; simpl.
  - split; [|split].
    + exists []. rewrite List.app_nil_r.
      split; [reflexivity|]. split; [apply Forall_nil | simpl; lia].
    + intros y iy Hy. exists iy. split; [exact Hy | apply incl_refl].
    + intros p [].
  - destruct (IH (addDependent a m p)) as ((extra & Hs & Hleaf & Hlen) & Hmono & Hlink).
    split; [|split].
    + rewrite Hs, shape_addDependent, <- app_assoc.
      eexists. split; [reflexivity|]. split.
      * apply Forall_app. split; [|exact Hleaf].
        destruct (mapGet p m); repeat constructor.
      * rewrite length_app. destruct (mapGet p m); simpl; lia.
    + intros y iy Hy.
      destruct (mapGet_addDependent_mono a p y m iy Hy) as (iy1 & H1 & Hi1).
      destruct (Hmono y iy1 H1) as (iy2 & H2 & Hi2).
      exists iy2. split; [exact H2|]. eapply incl_tran; eassumption.
    + intros q [<- | Hq].
      * destruct (mapGet_addDependent_same a p m) as (ip & H1 & Hin).
        destruct (Hmono p ip H1) as (ip2 & H2 & Hi2).
        exists ip2. split; [exact H2 | now apply Hi2].
      * now apply Hlink.
Qed.

Lemma shape_nth_error (m m' : DepMap) (extra : list (str * (list str * str)))
    (j : nat) (x : str) (info' : DepInfo) :
  shape m' = shape m ++ extra ->
  nth_error m' j = Some (x, info') ->
  (exists info, nth_error m j = Some (x, info) /\
                precedents info = precedents info' /\ formula info = formula info')
  \/ ((length m <= j)%nat /\
      nth_error extra (j - length m) = Some (x, (precedents info', formula info'))).
Proof.
  intros Hs Hn.
  assert (H : nth_error (shape m') j = Some (x, (precedents info', formula info'))).
  { unfold shape. rewrite nth_error_map, Hn. reflexivity. }
  rewrite Hs in H.
  destruct (Nat.lt_ge_cases j (length m)) as [Hlt | Hge].
  - left. rewrite nth_error_app1 in H by (unfold shape; now rewrite length_map).
    unfold shape in H. rewrite nth_error_map in H.
    destruct (nth_error m j) as [[x0 info]|]; [|discriminate H].
    simpl in H. inversion H; subst. exists info. auto.
  - right. split; [exact Hge|].
    rewrite nth_error_app2 in H by (unfold shape; now rewrite length_map).
    unfold shape in H. now rewrite length_map in H.
Qed.

Lemma linked_mono (m m' : DepMap) (x : str) (precs : list str) :
  (forall y iy, mapGet y m = Some iy ->
     exists iy', mapGet y m' = Some iy' /\ incl (dependents iy) (dependents iy')) ->
  linked m x precs -> linked m' x precs.
Proof.
  intros Hmono Hl y Hy. destruct (Hl y Hy) as (iy & Hget & Hin).
  destruct (Hmono y iy Hget) as (iy' & Hget' & Hincl).
  exists iy'. split; [exact Hget' | now apply Hincl].
Qed.

Lemma leaf_nth_error (extra : list (str * (list str * str))) (j : nat)
    (e : str * (list str * str)) :
  Forall leaf extra -> nth_error extra j = Some e -> snd e = ([], []).
Proof.
  intros H Hn. apply nth_error_In in Hn.
  rewrite Forall_forall in H. now apply H.
Qed.

(** One turn of the second pass keeps the visited entries linked and links
    the entry it visits. *)
Lemma visited_step (i : nat) (m : DepMap) (address : str) (info : DepInfo) :
  visited i m -> nth_error m i = Some (address, info) ->
  visited (S i) (fold_left (addDependent address) (precedents info) m).
Proof.
  intros Hv Hn.
  destruct (fold_addDependent address (precedents info) m)
    as ((extra & Hs & Hleaf & _) & Hmono & Hlink).
  intros j x info' Hj Hn'.
  assert (Hlen : (i < length m)%nat) by (apply nth_error_Some; congruence).
  destruct (shape_nth_error _ _ _ _ _ _ Hs Hn') as [(info0 & Hn0 & Hp & _) | (Hge & _)];
    [|lia].
  rewrite <- Hp.
  destruct (Nat.eq_dec j i) as [->|Hne].
  - rewrite Hn in Hn0. inversion Hn0; subst. exact Hlink.
  - apply linked_mono with (m := m); [exact Hmono|].
    apply (Hv j x info0); [lia | exact Hn0].
Qed.

Lemma grows_refl (m : DepMap) : grows m m.
Proof.
  split.
  - exists []. rewrite List.app_nil_r. split; [reflexivity | apply Forall_nil].
  - intros y iy Hy. exists iy. split; [exact Hy | apply incl_refl].
Qed.

Lemma grows_trans (m1 m2 m3 : DepMap) : grows m1 m2 -> grows m2 m3 -> grows m1 m3.
Proof.
  intros ((e1 & Hs1 & Hl1) & Hm1) ((e2 & Hs2 & Hl2) & Hm2). split.
  - exists (e1 ++ e2). rewrite Hs2, Hs1, <- app_assoc.
    split; [reflexivity | now apply Forall_app].
  - intros y iy Hy. destruct (Hm1 y iy Hy) as (iy1 & H1 & Hi1).
    destruct (Hm2 y iy1 H1) as (iy2 & H2 & Hi2).
    exists iy2. split; [exact H2 | eapply incl_tran; eassumption].
Qed.

(** When the second pass returns, every entry has been visited, and the
    result is the first-pass map with dependents added and leaves appended. *)
Lemma reverseLoop_result (fuel : nat) :
  forall (i : nat) (m g : DepMap),
    reverseLoop fuel i m = Some g -> visited i m ->
    visited (length g) g /\ grows m g.
Proof.
  induction fuel as [|fuel IH]; intros i m g Hrun Hv; simpl in Hrun;
    destruct (nth_error m i) as [[address info]|] eqn:Hn; try discriminate Hrun.
  - inversion Hrun; subst. split; [|apply grows_refl].
    apply nth_error_None in Hn. intros j x info Hj. apply Hv. lia.
  - destruct (IH _ _ _ Hrun (visited_step i m address info Hv Hn)) as [Hvis Hg].
    split; [exact Hvis|].
    apply grows_trans with (m2 := fold_left (addDependent address) (precedents info) m);
      [|exact Hg].
    destruct (fold_addDependent address (precedents info) m)
      as ((extra & Hs & Hleaf & _) & Hmono & _).
    split; [exists extra; auto | exact Hmono].
  - inversion Hrun; subst. split; [|apply grows_refl].
    apply nth_error_None in Hn. intros j x info Hj. apply Hv. lia.
Qed.

Lemma weight_app (a b : list (str * (list str * str))) :
  weight (a ++ b) = (weight a + weight b)%nat.
Proof. unfold weight. now rewrite map_app, list_sum_app. Qed.

Lemma weight_leaves (extra : list (str * (list str * str))) :
  Forall leaf extra -> weight extra = length extra.
Proof.
  induction 1 as [|e extra He Hx IH]; [reflexivity|].
  unfold weight in *. simpl. rewrite IH.
  unfold leaf in He. now rewrite He.
Qed.

Lemma skipn_nth_error {A : Type} (l : list A) (i : nat) (x : A) :
  nth_error l i = Some x -> skipn i l = x :: skipn (S i) l.
Proof.
  revert i. induction l as [|a l IH]; intros [|i] H; simpl in *;
    try discriminate H.
  - now inversion H.
  - now apply IH.
Qed.

Lemma weight_shape (m : DepMap) : weight (shape m) = reverseFuel m.
Proof.
  unfold weight, shape, reverseFuel. rewrite map_map. simpl.
  induction m as [|[k v] m IH]; [reflexivity|].
  simpl. rewrite IH, length_app. lia.
Qed.

(** The second pass ends: with as much fuel as the weight of what is left,
    it returns. *)
Lemma reverseLoop_terminates (fuel : nat) :
  forall (i : nat) (m : DepMap),
    (weight (skipn i (shape m)) <= fuel)%nat ->
    exists g, reverseLoop fuel i m = Some g.
Proof.
  induction fuel as [|fuel IH]; intros i m Hw; simpl;
    destruct (nth_error m i) as [[address info]|] eqn:Hn;
    try (now eexists).
  - exfalso.
    assert (Hs : nth_error (shape m) i =
                 Some (address, (precedents info, formula info)))
      by (unfold shape; now rewrite nth_error_map, Hn).
    rewrite (skipn_nth_error _ _ _ Hs) in Hw. unfold weight in Hw. simpl in Hw. lia.
  - apply IH.
    assert (Hs : nth_error (shape m) i =
                 Some (address, (precedents info, formula info)))
      by (unfold shape; now rewrite nth_error_map, Hn).
    rewrite (skipn_nth_error _ _ _ Hs) in Hw.
    change (weight ((address, (precedents info, formula info)) :: skipn (S i) (shape m)))
      with (S (length (precedents info)) + weight (skipn (S i) (shape m)))%nat in Hw.
    destruct (fold_addDependent address (precedents info) m)
      as ((extra & Hsh & Hleaf & Hlen) & _ & _).
    rewrite Hsh, skipn_app.
    assert (Hi : (S i <= length (shape m))%nat).
    { apply Nat.le_succ_l. apply nth_error_Some. congruence. }
    replace (S i - length (shape m))%nat with 0%nat by lia.
    simpl skipn at 2. rewrite weight_app, (weight_leaves extra Hleaf). lia.
Qed.

Lemma secondPass_returns (m : DepMap) : exists g, secondPass m = Some g.
Proof.
  unfold secondPass. apply reverseLoop_terminates.
  simpl. now rewrite weight_shape.
Qed.

(** The first entry stored under a key is the one [mapGet] returns. *)
Lemma mapGet_nth_error (m : DepMap) (x : str) (info : DepInfo) :
  mapGet x m = Some info ->
  exists j, nth_error m j = Some (x, info) /\
            forall j' e, (j' < j)%nat -> nth_error m j' = Some e -> fst e <> x.
Proof.
  induction m as [|[k v] m IH]; simpl; [discriminate|].
  destruct (str_eqb k x) eqn:E; intro H.
  - apply str_eqb_eq in E. inversion H; subst.
    exists 0%nat. split; [reflexivity|]. intros j' e Hj. lia.
  - destruct (IH H) as (j & Hj & Hfirst).
    exists (S j). split; [exact Hj|].
    intros [|j'] e Hlt He; simpl in He.
    + inversion He; subst. simpl. now apply str_eqb_neq.
    + apply (Hfirst j' e); [lia | exact He].
Qed.

Lemma nth_error_mapGet_some (m : DepMap) (j : nat) (x : str) (info : DepInfo) :
  nth_error m j = Some (x, info) -> mapGet x m <> None.
Proof.
  revert j. induction m as [|[k v] m IH]; intros [|j] H; simpl in *;
    try discriminate H.
  - inversion H; subst. now rewrite str_eqb_refl.
  - destruct (str_eqb k x); [discriminate|]. now apply (IH j).
Qed.

(** [C1] When the first pass has scanned the scope (no host call and no
    base address failed), [buildDependencyGraph] returns a graph, and the
    graph is symmetric: if [y] is among the precedents of the entry of [x],
    then [y] has an entry, and [x] is among its dependents.  This holds also
    for a [y] that was not scanned as a formula cell; its entry then has
    an empty formula text and no precedents. *)
Theorem buildDependencyGraph_symmetric (host : Host) (scope : AnalysisScope)
    (scanned : DepMap) :
  firstPass host scope = Some scanned ->
  exists g,
    buildDependencyGraph host scope = Some g /\
    (forall x y ix, mapGet x g = Some ix -> In y (precedents ix) ->
       exists iy, mapGet y g = Some iy /\ In x (dependents iy)) /\
    (forall y iy, mapGet y g = Some iy -> mapGet y scanned = None ->
       formula iy = [] /\ precedents iy = []).
Proof.
  intro Hfirst. unfold buildDependencyGraph. rewrite Hfirst.
  destruct (secondPass_returns scanned) as (g & Hg). exists g.
  split; [exact Hg|].
  assert (Hv0 : visited 0 scanned) by (intros j x info Hj; lia).
  destruct (reverseLoop_result _ _ _ _ Hg Hv0) as (Hvis & (extra & Hs & Hleaf) & _).
  split.
  - intros x y ix Hx Hy.
    destruct (mapGet_nth_error g x ix Hx) as (j & Hj & _).
    apply (Hvis j x ix); [|exact Hj|exact Hy].
    apply nth_error_Some. congruence.
  - intros y iy Hy Hnone.
    destruct (mapGet_nth_error g y iy Hy) as (j & Hj & _).
    destruct (shape_nth_error _ _ _ _ _ _ Hs Hj) as [(info & Hn & _) | (_ & Hn)].
    + exfalso. now apply (nth_error_mapGet_some scanned j y info Hn).
    + apply (leaf_nth_error _ _ _ Hleaf) in Hn. simpl in Hn.
      inversion Hn. split; reflexivity.
Qed.

Lemma buildDependencyGraph_symmetric_witness :
  exists g,
    buildDependencyGraph absoluteHost sheet1Scope = Some g /\
    (forall x y ix, mapGet x g = Some ix -> In y (precedents ix) ->
       exists iy, mapGet y g = Some iy /\ In x (dependents iy)) /\
    (forall y iy, mapGet y g = Some iy ->
       mapGet y [ (s "Sheet1!A1", mkInfo [] [] (s "=1"));
                  (s "Sheet1!B1", mkInfo [s "Sheet1!$A$1"] [] (s "=$A$1"));
                  (s "Sheet1!C1", mkInfo [s "Sheet1!A1"] [] (s "=A1")) ] = None ->
       formula iy = [] /\ precedents iy = []).
Proof.
  apply (buildDependencyGraph_symmetric absoluteHost sheet1Scope).
  vm_compute. reflexivity.
Defined.

(** ** The classification into inputs, calculations, outputs and orphans *)

Lemma filterThrow_filter (dependencies : DepMap) (scope : AnalysisScope)
    (l r : list str) :
  filterThrow (countsInScope dependencies scope) l = Some r ->
  r = filter (flowEdge dependencies scope) l.
Proof.
  revert r. induction l as [|x l IH]; intros r H; simpl in *.
  - now inversion H.
  - unfold flowEdge at 1. unfold countsInScope at 1 in H.
    destruct (isInScope x scope) as [[|]|]; [| |discriminate H];
      (destruct (filterThrow (countsInScope dependencies scope) l) as [r'|];
       [|discriminate H]);
      specialize (IH r' eq_refl); inversion H; subst; reflexivity.
Qed.

(** A predicate that never throws filters without throwing. *)
Lemma filterThrow_total (f : str -> option bool) (l : list str) :
  (forall x, f x <> None) -> exists r, filterThrow f l = Some r.
Proof.
  intro Hf. induction l as [|x l [r IH]]; simpl; [now eexists|].
  destruct (f x) as [b|] eqn:E; [|now destruct (Hf x)].
  rewrite IH. now eexists.
Qed.

Lemma bucketsGrow_rule (P D : list str) (b b' : Buckets) :
  bucketsGrow b b' -> incl (ruleBucket P D b) (ruleBucket P D b').
Proof.
  intros (H1 & H2 & H3 & H4). destruct P, D; simpl; assumption.
Qed.

(** One entry classified: a formula-bearing address goes to the end of the
    bucket the rule names, and nothing else changes. *)
Lemma classifyEntry_spec (dependencies : DepMap) (scope : AnalysisScope)
    (b b' : Buckets) (address : str) (info : DepInfo) :
  classifyEntry dependencies scope b (address, info) = Some b' ->
  bucketsGrow b b' /\
  (forall x, count_occ str_dec (allBuckets b') x =
             (count_occ str_dec (allBuckets b) x +
              count_occ str_dec
                (if formulaBearing (address, info) then [address] else []) x)%nat) /\
  (formula info <> [] ->
   In address (ruleBucket (filter (flowEdge dependencies scope) (precedents info))
                          (filter (flowEdge dependencies scope) (dependents info)) b')).
Proof.
  unfold classifyEntry, formulaBearing. simpl.
  destruct (formula info) as [|c f] eqn:Hf.
  - intro H. inversion H; subst. split; [|split].
    + repeat split; apply incl_refl.
    + intro x. simpl. lia.
    + congruence.
  - destruct (filterThrow _ (precedents info)) as [P|] eqn:HP; [|discriminate].
    destruct (filterThrow _ (dependents info)) as [D|] eqn:HD; [|discriminate].
    apply filterThrow_filter in HP, HD. rewrite <- HP, <- HD.
    intro H. inversion H; subst b'; clear H.
    unfold allBuckets, bucketsGrow.
    destruct P as [|p P'], D as [|d D']; simpl; (split; [|split]);
      try (repeat split; try apply incl_refl; apply incl_appl, incl_refl);
      try (intros _; apply in_or_app; right; now left);
      intro x; rewrite !count_occ_app; simpl; destruct (str_dec address x); lia.
Qed.

(** The loop over the entries. *)
Lemma classifyLoop_spec (dependencies : DepMap) (scope : AnalysisScope)
    (entries : DepMap) :
  forall b b' : Buckets,
    classifyLoop dependencies scope entries b = Some b' ->
    bucketsGrow b b' /\
    (forall x, count_occ str_dec (allBuckets b') x =
               (count_occ str_dec (allBuckets b) x +
                count_occ str_dec (map fst (filter formulaBearing entries)) x)%nat) /\
    (forall address info, In (address, info) entries -> formula info <> [] ->
       In address
          (ruleBucket (filter (flowEdge dependencies scope) (precedents info))
                      (filter (flowEdge dependencies scope) (dependents info)) b')).
Proof.
  induction entries as [|[a i] entries IH]; intros b b' H; cbn [classifyLoop] in H.
  - inversion H; subst. split; [|split].
    + repeat split; apply incl_refl.
    + intro x. simpl. lia.
    + intros address info [].
  - destruct (classifyEntry dependencies scope b (a, i)) as [b1|] eqn:E;
      [|discriminate H].
    destruct (classifyEntry_spec _ _ _ _ _ _ E) as (Hg1 & Hc1 & Hr1).
    destruct (IH _ _ H) as (Hg2 & Hc2 & Hr2).
    split; [|split].
    + destruct Hg1 as (A1 & A2 & A3 & A4), Hg2 as (B1 & B2 & B3 & B4).
      repeat split; eapply incl_tran; eassumption.
    + intro x. rewrite Hc2, Hc1. simpl filter.
      destruct (formulaBearing (a, i)); simpl; [|lia].
      destruct (str_dec a x); lia.
    + intros address info [Heq | Hin] Hf.
      * inversion Heq; subst. eapply bucketsGrow_rule; [exact Hg2|]. now apply Hr1.
      * now apply Hr2.
Qed.

Lemma mapGet_In (m : DepMap) (x : str) (info : DepInfo) :
  mapGet x m = Some info -> In (x, info) m.
Proof.
  intro H. destruct (mapGet_nth_error m x info H) as (j & Hj & _).
  eapply nth_error_In. exact Hj.
Qed.

Lemma NoDup_keys_filter (m : DepMap) (f : str * DepInfo -> bool) :
  NoDup (keys m) -> NoDup (map fst (filter f m)).
Proof.
  unfold keys. induction m as [|e m IH]; simpl; intro H; [constructor|].
  inversion H as [|? ? Hnotin Hnd]; subst.
  destruct (f e); simpl; [|now apply IH].
  constructor; [|now apply IH].
  intro Hin. apply Hnotin.
  apply in_map_iff in Hin. destruct Hin as (e' & He & Hf).
  apply filter_In in Hf. apply in_map_iff. exists e'. tauto.
Qed.

(** In a workbook or worksheet scope [isInScope] never throws. *)
Lemma isInScope_returns (scope : AnalysisScope) (p : str) :
  scopeType scope <> Range -> isInScope p scope <> None.
Proof.
  unfold isInScope. destruct (scopeType scope); congruence.
Qed.

Lemma classifyLoop_returns (dependencies : DepMap) (scope : AnalysisScope)
    (entries : DepMap) :
  scopeType scope <> Range ->
  forall b, exists b', classifyLoop dependencies scope entries b = Some b'.
Proof.
  intro Hs. induction entries as [|[a i] entries IH]; intro b; cbn [classifyLoop];
    [now eexists|].
  assert (Hf : forall x, countsInScope dependencies scope x <> None).
  { intro x. unfold countsInScope.
    pose proof (isInScope_returns scope x Hs).
    destruct (isInScope x scope) as [[|]|]; congruence. }
  unfold classifyEntry.
  destruct (formula i); [apply IH|].
  destruct (filterThrow_total _ (precedents i) Hf) as (P & ->).
  destruct (filterThrow_total _ (dependents i) Hf) as (D & ->).
  apply IH.
Qed.

(** The loop of [analyzeInputsOutputs] on a graph with distinct keys: in a
    workbook or worksheet scope it returns, and whenever it returns the four
    groups together hold every formula-bearing address of the graph exactly
    once and nothing else, each in the group the rule names: with [P] its
    precedents and [D] its dependents that are in scope and carry formula
    text, the orphans if both are empty, the inputs if only [D] is not, the
    outputs if only [P] is not, the calculations otherwise. *)
Lemma analyzeInputsOutputs_partition (dependencies : DepMap)
    (scope : AnalysisScope) (colors : FlowColors) :
  NoDup (keys dependencies) ->
  (scopeType scope <> Range ->
   exists r, analyzeInputsOutputs dependencies scope colors = Some r) /\
  (forall r, analyzeInputsOutputs dependencies scope colors = Some r ->
     let all := groupCells (inputs r) ++ groupCells (calculations r) ++
                groupCells (outputs r) ++ groupCells (orphans r) in
     Permutation all (map fst (filter formulaBearing dependencies)) /\
     NoDup all /\
     (forall address info,
        mapGet address dependencies = Some info -> formula info <> [] ->
        match filter (flowEdge dependencies scope) (precedents info),
              filter (flowEdge dependencies scope) (dependents info) with
        | [], [] => In address (groupCells (orphans r))
        | [], _ :: _ => In address (groupCells (inputs r))
        | _ :: _, [] => In address (groupCells (outputs r))
        | _ :: _, _ :: _ => In address (groupCells (calculations r))
        end)).
Proof.
  intro Hnd. unfold analyzeInputsOutputs. split.
  - intro Hs.
    destruct (classifyLoop_returns dependencies scope dependencies Hs
                (mkBuckets [] [] [] [])) as (b & ->).
    now eexists.
  - intros r H.
    destruct (classifyLoop dependencies scope dependencies (mkBuckets [] [] [] []))
      as [b|] eqn:E; [|discriminate H].
    inversion H; subst r; clear H.
    destruct (classifyLoop_spec _ _ _ _ _ E) as (_ & Hc & Hr).
    unfold groupCells. simpl. rewrite !List.app_nil_r.
    assert (Hperm : Permutation (allBuckets b)
                      (map fst (filter formulaBearing dependencies))).
    { apply (Permutation_count_occ str_dec). intro x. rewrite Hc. reflexivity. }
    split; [exact Hperm|]. split.
    + apply Permutation_sym in Hperm.
      eapply Permutation_NoDup; [exact Hperm|]. now apply NoDup_keys_filter.
    + intros address info Hget Hf.
      specialize (Hr address info (mapGet_In _ _ _ Hget) Hf).
      unfold ruleBucket in Hr.
      destruct (filter _ (precedents info)), (filter _ (dependents info)); exact Hr.
Qed.

(** [C2] On the code the classification of a range fails: the analysis of
    the range [A1:C1] of a sheet that holds [=1], [=$A$1] and [=A1] builds
    its graph, in which the three formula cells are in scope, and then throws
    while it classifies them, because the precedent key [Sheet1!$A$1] of the
    second cell is given to [addressToCoords] with its dollar signs; no cell
    is placed in a group.  With the whole sheet as the scope the analysis
    returns, and the cell [B1], which reads the formula cell [A1], is placed
    with the orphans. *)
Theorem classification_throws_on_absolute_reference :
  buildDependencyGraph absoluteHost sheet1RangeScope =
    Some [ (s "Sheet1!A1", mkInfo [] [s "Sheet1!C1"] (s "=1"));
           (s "Sheet1!B1", mkInfo [s "Sheet1!$A$1"] [] (s "=$A$1"));
           (s "Sheet1!C1", mkInfo [s "Sheet1!A1"] [] (s "=A1"));
           (s "Sheet1!$A$1", mkInfo [] [s "Sheet1!B1"] []) ] /\
  isInScope (s "Sheet1!A1") sheet1RangeScope = Some true /\
  isInScope (s "Sheet1!B1") sheet1RangeScope = Some true /\
  isInScope (s "Sheet1!C1") sheet1RangeScope = Some true /\
  isInScope (s "Sheet1!$A$1") sheet1RangeScope = None /\
  analyzeFlow absoluteHost sheet1RangeScope noColors = None /\
  analyzeFlow absoluteHost sheet1Scope noColors =
    Some (inl (mkResult [mkGroup [s "Sheet1!A1"] (s "Inputs") []]
                        [mkGroup [] (s "Calculations") []]
                        [mkGroup [s "Sheet1!C1"] (s "Outputs") []]
                        [mkGroup [s "Sheet1!B1"] (s "Orphan Formulas") []])).
Proof. repeat split; vm_compute; reflexivity. Qed.

(** ** The parser always returns a tree *)

Lemma trimStart_length (x : str) : (length (trimStart x) <= length x)%nat.
Proof.
  induction x as [|c x IH]; simpl; [lia|]. destruct (isSpace c); simpl; lia.
Qed.

Lemma trim_length (x : str) : (length (trim x) <= length x)%nat.
Proof.
  unfold trim. rewrite length_rev.
  eapply Nat.le_trans; [apply trimStart_length|].
  rewrite length_rev. apply trimStart_length.
Qed.

Lemma starGreedy_advance (p : ascii -> bool) (rest : str) :
  forall pos caps k res,
    starGreedy p rest pos caps k = Some res ->
    exists st', k st' = Some res /\ advanced 0 (mkState rest pos caps) st'.
Proof.
  induction rest as [|c rest IH]; intros pos caps k res H; simpl in H.
  - eexists. split; [exact H|]. unfold advanced; simpl; lia.
  - destruct (p c).
    + unfold orElse in H.
      destruct (starGreedy p rest (S pos) caps k) as [r|] eqn:E.
      * inversion H; subst. destruct (IH _ _ _ _ E) as (st' & Hk & Ha & Hb).
        exists st'. split; [exact Hk|]. unfold advanced in *; simpl in *; lia.
      * eexists. split; [exact H|]. unfold advanced; simpl; lia.
    + eexists. split; [exact H|]. unfold advanced; simpl; lia.
Qed.

Lemma starLazy_advance (p : ascii -> bool) (rest : str) :
  forall pos caps k res,
    starLazy p rest pos caps k = Some res ->
    exists st', k st' = Some res /\ advanced 0 (mkState rest pos caps) st'.
Proof.
  induction rest as [|c rest IH]; intros pos caps k res H; simpl in H;
    unfold orElse in H.
  - destruct (k (mkState [] pos caps)) eqn:E; [|discriminate H].
    inversion H; subst. eexists. split; [exact E|]. unfold advanced; simpl; lia.
  - destruct (k (mkState (c :: rest) pos caps)) eqn:E.
    + inversion H; subst. eexists. split; [exact E|]. unfold advanced; simpl; lia.
    + destruct (p c); [|discriminate H].
      destruct (IH _ _ _ _ H) as (st' & Hk & Ha & Hb).
      exists st'. split; [exact Hk|]. unfold advanced in *; simpl in *; lia.
Qed.

(** A successful match calls its continuation on a state at least
    [minLength] characters further on, within the text. *)
Lemma matcher_advance (r : regex) :
  forall st k res,
    matcher r st k = Some res ->
    exists st', k st' = Some res /\ advanced (minLength r) st st'.
Proof.
  induction r as [| p | r1 IH1 r2 IH2 | r1 IH1 r2 IH2 | p | p | n r1 IH1 | |];
    intros st k res H; simpl in H.
  - exists st. split; [exact H|]. unfold advanced; simpl; lia.
  - destruct st as [rest pos caps]. simpl in *.
    destruct rest as [|c rest]; [discriminate H|].
    destruct (p c); [|discriminate H].
    eexists. split; [exact H|]. unfold advanced; simpl; lia.
  - destruct (IH1 _ _ _ H) as (st1 & H1 & Ha1 & Hb1).
    destruct (IH2 _ _ _ H1) as (st2 & H2 & Ha2 & Hb2).
    exists st2. split; [exact H2|]. unfold advanced in *; simpl; lia.
  - unfold orElse in H. destruct (matcher r1 st k) as [x|] eqn:E.
    + inversion H; subst. destruct (IH1 _ _ _ E) as (st1 & H1 & Ha1 & Hb1).
      exists st1. split; [exact H1|]. unfold advanced in *; simpl; lia.
    + destruct (IH2 _ _ _ H) as (st2 & H2 & Ha2 & Hb2).
      exists st2. split; [exact H2|]. unfold advanced in *; simpl; lia.
  - destruct st as [rest pos caps]. exact (starGreedy_advance p rest pos caps k res H).
  - destruct st as [rest pos caps]. exact (starLazy_advance p rest pos caps k res H).
  - destruct (IH1 _ _ _ H) as (st1 & H1 & Ha1 & Hb1).
    eexists. split; [exact H1|]. unfold advanced in *; simpl; lia.
  - destruct (Nat.eqb (ms_pos st) 0); [|discriminate H].
    exists st. split; [exact H|]. unfold advanced; simpl; lia.
  - destruct (ms_rest st); [|discriminate H].
    exists st. split; [exact H|]. unfold advanced; simpl; lia.
Qed.

(** The text of a match is at least [minLength] long, and lies within the
    searched text. *)
Lemma searchFrom_text (r : regex) (rest : str) :
  forall pos m, searchFrom r rest pos = Some m ->
    (minLength r <= length (m_text m) <= length rest)%nat.
Proof.
  induction rest as [|c rest IH]; intros pos m H; simpl in H.
  - destruct (matchHere r [] pos) as [st|] eqn:E; [|discriminate H].
    inversion H; subst; clear H. unfold matchHere in E.
    destruct (matcher_advance _ _ _ _ E) as (st' & Hk & Ha & Hb).
    inversion Hk; subst. simpl in *. rewrite firstn_nil. simpl. lia.
  - destruct (matchHere r (c :: rest) pos) as [st|] eqn:E.
    + inversion H; subst; clear H. unfold matchHere in E.
      destruct (matcher_advance _ _ _ _ E) as (st' & Hk & Ha & Hb).
      inversion Hk; subst. simpl in *. rewrite length_firstn. simpl. lia.
    + specialize (IH _ _ H). simpl. lia.
Qed.

Lemma functionHead_length (expr : str) (m : Match) :
  regexMatch reFunctionHead expr = Some m ->
  (2 <= length (m_text m) <= length expr)%nat.
Proof. intro H. apply searchFrom_text in H. exact H. Qed.

(** [findMatchingParen] answers an index after the opening parenthesis:
    that of a closing parenthesis, or the length of the text. *)
Lemma findMatchingParen_loop_range (rest : str) :
  forall i prev depth inString stringChar,
    let r := findMatchingParen_loop rest i prev depth inString stringChar in
    (i <= r <= i + length rest)%nat /\
    ((r < i + length rest)%nat -> nth (r - i) rest "000"%char = ")"%char).
Proof.
  induction rest as [|c rest IH]; intros i prev depth inString stringChar; simpl.
  - split; lia.
  - assert (Hrec : forall prev' depth' inString' stringChar',
               let r := findMatchingParen_loop rest (S i) prev' depth' inString' stringChar' in
               (i <= r <= i + S (length rest))%nat /\
               ((r < i + S (length rest))%nat ->
                match (r - i)%nat with
                | O => c
                | S n => nth n rest "000"%char
                end = ")"%char)).
    { intros prev' depth' inString' stringChar'.
      destruct (IH (S i) prev' depth' inString' stringChar') as [Hr Hc].
      simpl. split; [lia|]. intro Hlt.
      destruct (findMatchingParen_loop rest (S i) prev' depth' inString' stringChar' - i)%nat
        as [|n] eqn:E; [lia|].
      replace n with (findMatchingParen_loop rest (S i) prev' depth' inString' stringChar' - S i)%nat
        by lia.
      apply Hc. lia. }
    destruct inString.
    + destruct (chr_eqb c stringChar && negb (isBackslash prev)); apply Hrec.
    + destruct (isQuote c); [apply Hrec|].
      destruct (chr_eqb c "(") eqn:Eo; [apply Hrec|].
      destruct (chr_eqb c ")") eqn:Ec; [|apply Hrec].
      destruct (depth - 1 =? 0); [|apply Hrec].
      split; [lia|]. intros _. rewrite Nat.sub_diag.
      now apply Ascii.eqb_eq in Ec.
Qed.

Lemma findMatchingParen_range (x : str) (openIndex : nat) :
  (openIndex < length x)%nat ->
  (openIndex < findMatchingParen x openIndex <= length x)%nat /\
  ((findMatchingParen x openIndex < length x)%nat ->
   nth (findMatchingParen x openIndex) x "000"%char = ")"%char).
Proof.
  intro Hlt. unfold findMatchingParen.
  destruct (findMatchingParen_loop_range (skipn (S openIndex) x) (S openIndex)
              (nth openIndex x "("%char) 1 false "000"%char) as [Hr Hc].
  rewrite length_skipn in Hr, Hc.
  set (r := findMatchingParen_loop _ _ _ _ _ _) in *.
  split; [lia|]. intro H.
  rewrite <- (firstn_skipn (S openIndex) x) at 1.
  rewrite app_nth2 by (rewrite length_firstn; lia).
  rewrite length_firstn.
  replace (Nat.min (S openIndex) (length x)) with (S openIndex) by lia.
  apply Hc. lia.
Qed.

Lemma substring_length (a b : nat) (x : str) :
  (length (substring a b x) <= length x - Nat.min a b)%nat.
Proof.
  unfold substring. rewrite length_firstn, length_skipn. lia.
Qed.

(** The arguments [splitArguments] cuts are no longer than the text. *)
Lemma splitArguments_loop_length (n : nat) (rest : str) :
  forall prev args cur depth inString stringChar args' cur',
    splitArguments_loop rest prev args cur depth inString stringChar = (args', cur') ->
    Forall (fun a => (length a <= n)%nat) args ->
    (length cur + length rest <= n)%nat ->
    Forall (fun a => (length a <= n)%nat) args' /\ (length cur' <= n)%nat.
Proof.
  induction rest as [|c rest IH];
    intros prev args cur depth inString stringChar args' cur' H Hargs Hlen;
    simpl in H.
  - inversion H; subst. rewrite length_rev. split; [exact Hargs | simpl in Hlen; lia].
  - simpl in Hlen.
    assert (Hpush : forall prev' depth' inString' stringChar',
               splitArguments_loop rest prev' args (c :: cur) depth' inString' stringChar'
                 = (args', cur') ->
               Forall (fun a => (length a <= n)%nat) args' /\ (length cur' <= n)%nat).
    { intros prev' depth' inString' stringChar' H'.
      apply (IH _ _ _ _ _ _ _ _ H' Hargs). simpl. lia. }
    destruct inString.
    + destruct (chr_eqb c stringChar && negb (isBackslash prev)); eapply Hpush; exact H.
    + destruct (isQuote c); [eapply Hpush; exact H|].
      destruct (chr_eqb c "(" || chr_eqb c "{"); [eapply Hpush; exact H|].
      destruct (chr_eqb c ")" || chr_eqb c "}"); [eapply Hpush; exact H|].
      destruct (chr_eqb c "," && (depth =? 0)); [|eapply Hpush; exact H].
      apply (IH _ _ _ _ _ _ _ _ H); [|simpl; lia].
      apply Forall_app. split; [exact Hargs|].
      constructor; [|constructor].
      eapply Nat.le_trans; [apply trim_length|]. rewrite length_rev. lia.
Qed.

Lemma splitArguments_length (argsString : str) :
  Forall (fun a => (length a <= length argsString)%nat) (splitArguments argsString).
Proof.
  unfold splitArguments.
  destruct (splitArguments_loop argsString "000"%char [] [] 0 false "000"%char)
    as [args cur] eqn:E.
  destruct (splitArguments_loop_length (length argsString) _ _ _ _ _ _ _ _ _ E)
    as [Hargs Hcur]; [constructor | simpl; lia |].
  destruct (trim cur) as [|c a] eqn:Et; [exact Hargs|].
  apply Forall_app. split; [exact Hargs|]. constructor; [|constructor].
  rewrite <- Et. eapply Nat.le_trans; [apply trim_length | exact Hcur].
Qed.

(** An operator found lies within the text. *)
Lemma scanOperator_range (op : str) (right : str) :
  forall depth inString stringChar index,
    scanOperator op right depth inString stringChar = Some index ->
    (1 <= length op /\ index + length op <= length right)%nat.
Proof.
  induction right as [|c before IH]; intros depth inString stringChar index H;
    simpl in H; [discriminate H|].
  assert (Hrec : forall depth' inString' stringChar',
             scanOperator op before depth' inString' stringChar' = Some index ->
             (1 <= length op /\ index + length op <= length (c :: before))%nat).
  { intros ? ? ? H'. destruct (IH _ _ _ _ H'). simpl. lia. }
  destruct inString.
  - destruct (chr_eqb c stringChar && _); eapply Hrec; exact H.
  - destruct (isQuote c); [eapply Hrec; exact H|].
    destruct (chr_eqb c ")"); [eapply Hrec; exact H|].
    destruct (chr_eqb c "("); [eapply Hrec; exact H|].
    destruct (depth =? 0); [|eapply Hrec; exact H].
    destruct (operatorHere op c before) as [i|] eqn:E; [|eapply Hrec; exact H].
    inversion H; subst i; clear H. unfold operatorHere in E.
    destruct op as [|a [|b [|? ?]]]; simpl in E;
      repeat match type of E with
             | context [match ?x with _ => _ end] => destruct x
             end;
      try discriminate E; inversion E; subst; simpl; lia.
Qed.

Lemma findFirstOperator_range (ops : list str) (expr op : str) (index : nat) :
  findFirstOperator ops expr = Some (op, index) ->
  (1 <= length op /\ index + length op <= length expr)%nat.
Proof.
  induction ops as [|o ops IH]; simpl; [discriminate|].
  destruct (scanOperator o (rev expr) 0 false "000"%char) as [i|] eqn:E.
  - intro H. inversion H; subst. apply scanOperator_range in E.
    now rewrite length_rev in E.
  - exact IH.
Qed.

Lemma mapParse_total (parse : str -> option FormulaNode) (args : list str) :
  Forall (fun a => exists n, parse a = Some n) args ->
  exists ns, mapParse parse args = Some ns.
Proof.
  induction 1 as [|a args (n & Hn) _ (ns & Hns)]; simpl; [now eexists|].
  rewrite Hn, Hns. now eexists.
Qed.

(** With more fuel than the text is long, [parseExpression] returns. *)
Lemma parseExpression_total (fuel : nat) :
  forall expr : str, (length expr < fuel)%nat ->
    exists node, parseExpression fuel expr = Some node.
Proof.
  induction fuel as [|fuel IH]; intros expr Hlen; [lia|].
  cbn [parseExpression].
  pose proof (trim_length expr) as Htrim.
  destruct (regexMatch reFunctionHead (trim expr)) as [m|] eqn:Hm.
  - unfold parseFunction. rewrite Hm.
    pose proof (functionHead_length _ _ Hm) as [Hm2 Hml].
    destruct (findMatchingParen_range (trim expr) (length (m_text m) - 1)) as [Hr _];
      [lia|].
    destruct (mapParse_total (parseExpression fuel)
                (splitArguments (substring (length (m_text m))
                   (findMatchingParen (trim expr) (length (m_text m) - 1)) (trim expr))))
      as (ns & ->); [|now eexists].
    eapply Forall_impl; [|apply splitArguments_length].
    intros a Ha. apply IH. cbv beta in Ha.
    pose proof (substring_length (length (m_text m))
                  (findMatchingParen (trim expr) (length (m_text m) - 1)) (trim expr)).
    lia.
  - destruct (isCellReference (trim expr)); [now eexists|].
    destruct (isLiteral (trim expr)); [now eexists|].
    destruct (findTopLevelOperator (trim expr)) as [[op index]|] eqn:Hop;
      [|now eexists].
    apply findFirstOperator_range in Hop. destruct Hop as [Hop1 Hop2].
    destruct (IH (substring 0 index (trim expr))) as (l & ->).
    { pose proof (substring_length 0 index (trim expr)).
      unfold substring. rewrite length_firstn. simpl. lia. }
    destruct (IH (substringFrom (index + length op) (trim expr))) as (r & ->).
    { unfold substringFrom. rewrite length_skipn. lia. }
    now eexists.
Qed.

Lemma parse_total (formula : str) : exists node, parse formula = Some node.
Proof.
  unfold parse. destruct formula as [|c f]; [now eexists|].
  destruct (negb (startsWith (s "=") (c :: f))); [now eexists|].
  apply parseExpression_total. lia.
Qed.

(** [C7, amended] [parse] returns a tree for every text.  In a function
    call, [findMatchingParen] answers the index of a closing parenthesis or,
    when it finds none, the length of the text; in that case the whole
    remainder after the opening parenthesis is the argument text, which is
    split at its top-level commas and parsed argument by argument as the
    children of the function node. *)
Theorem parse_unmatched_parenthesis :
  (forall formula : str, exists node, parse formula = Some node) /\
  (forall (x : str) (openIndex : nat),
     (openIndex < length x)%nat ->
     (openIndex < findMatchingParen x openIndex <= length x)%nat /\
     ((findMatchingParen x openIndex < length x)%nat ->
      nth (findMatchingParen x openIndex) x "000"%char = ")"%char)) /\
  (forall (fuel : nat) (expr : str) (funcMatch : Match),
     regexMatch reFunctionHead (trim expr) = Some funcMatch ->
     findMatchingParen (trim expr) (length (m_text funcMatch) - 1)
       = length (trim expr) ->
     parseExpression (S fuel) expr =
       option_map (functionNode (toUpperCase (captureText 1 funcMatch)))
         (mapParse (parseExpression fuel)
            (splitArguments (substringFrom (length (m_text funcMatch)) (trim expr))))).
Proof.
  split; [exact parse_total|]. split; [exact findMatchingParen_range|].
  intros fuel expr funcMatch Hm Hend.
  cbn [parseExpression]. rewrite Hm. unfold parseFunction. rewrite Hm, Hend.
  pose proof (functionHead_length _ _ Hm) as [_ Hlen].
  replace (substring (length (m_text funcMatch)) (length (trim expr)) (trim expr))
    with (substringFrom (length (m_text funcMatch)) (trim expr)).
  - destruct (mapParse _ _); reflexivity.
  - unfold substring, substringFrom.
    rewrite Nat.max_r, Nat.min_l by lia.
    rewrite firstn_all2; [reflexivity|]. rewrite length_skipn. lia.
Qed.

Lemma parse_unmatched_parenthesis_witness :
  parseExpression 10 (s "SUM(A1,B1") =
    option_map (functionNode (s "SUM"))
      (mapParse (parseExpression 9) (splitArguments (s "A1,B1"))).
Proof.
  apply (proj2 (proj2 parse_unmatched_parenthesis) 9%nat (s "SUM(A1,B1")
           (mkMatch 0 4 (s "SUM(") [(1%nat, s "SUM")]));
    vm_compute; reflexivity.
Defined.

(** [C7] as stated fails on the code: with no closing parenthesis the
    remainder [A1,B1] is not made one literal node; it is split and parsed
    into two reference nodes.  The same happens when a quote that is never
    closed hides the closing parenthesis. *)
Lemma parse_unmatched_counterexample :
  findMatchingParen (s "SUM(A1,B1") 3 = length (s "SUM(A1,B1") /\
  parse (s "=SUM(A1,B1") =
    Some (functionNode (s "SUM") [referenceNode (s "A1"); referenceNode (s "B1")]) /\
  parse (s "=SUM(A1,B1") <> Some (literalNode (s "SUM(A1,B1")) /\
  parse (s "=SUM(A1,B1") <> Some (functionNode (s "SUM") [literalNode (s "A1,B1")]) /\
  parse (s "=SUM(A1,'B1)") =
    Some (functionNode (s "SUM") [referenceNode (s "A1"); literalNode (s "'B1)")]).
Proof.
  repeat split; try (vm_compute; reflexivity); vm_compute; discriminate.
Qed.

(** ** The operator [findTopLevelOperator] selects *)

Lemma nth_rev_app (before suf : str) (c : ascii) :
  nth (length before) (rev before ++ c :: suf) "000"%char = c.
Proof.
  rewrite app_nth2; rewrite length_rev; [|lia]. now rewrite Nat.sub_diag.
Qed.

Lemma skipn_rev_app (before suf : str) :
  skipn (length before) (rev before ++ suf) = suf.
Proof.
  rewrite skipn_app, length_rev, Nat.sub_diag.
  rewrite skipn_all2 by (rewrite length_rev; lia). reflexivity.
Qed.

Lemma nth_rev_app_prev (prev : ascii) (before suf : str) :
  nth (length before) (rev (prev :: before) ++ suf) "000"%char = prev.
Proof.
  simpl rev. rewrite <- app_assoc. simpl. apply nth_rev_app.
Qed.

(** The test the scan makes at one character, in terms of [occursAt]. *)
Lemma occursAt_here (op : str) (c : ascii) (before suf : str) :
  occursAt op (rev before ++ c :: suf) (length before) =
  (let st := arriving (c :: suf) in
   negb (sc_inString st) && (sc_depth st =? 0) &&
   negb (isQuote c) && negb (chr_eqb c ")") && negb (chr_eqb c "(")) &&
  match operatorHere op c before with
  | Some _ => true
  | None => false
  end.
Proof.
  unfold occursAt, topLevel. rewrite skipn_rev_app. f_equal.
  unfold standsAt, operatorHere.
  destruct op as [|a [|b [|? ?]]]; try reflexivity.
  - rewrite nth_rev_app. now destruct (chr_eqb c a).
  - destruct before as [|prev before']; [reflexivity|].
    rewrite nth_rev_app.
    replace (length (prev :: before') - 1)%nat with (length before')
      by (simpl; lia).
    rewrite nth_rev_app_prev.
    change (0 <? length (prev :: before'))%nat with true.
    now destruct (chr_eqb prev a), (chr_eqb c b).
Qed.

Lemma operatorHere_index (op : str) (c : ascii) (before : str) (index : nat) :
  operatorHere op c before = Some index ->
  index = (length before + 1 - length op)%nat.
Proof.
  unfold operatorHere.
  destruct op as [|a [|b [|? ?]]]; try discriminate.
  - destruct (chr_eqb c a); [|discriminate]. intro H; inversion H. simpl. lia.
  - destruct before as [|prev before']; [discriminate|].
    destruct (chr_eqb prev a && chr_eqb c b); [|discriminate].
    intro H; inversion H. simpl. lia.
Qed.

(** The scan for one operator returns its rightmost top-level occurrence. *)
Lemma scanOperator_spec (op : str) (right : str) :
  forall (suf : str) (st : ScanState),
    (forall c before, right = c :: before -> st = arriving (c :: suf)) ->
    scanOperator op right (sc_depth st) (sc_inString st) (sc_stringChar st) =
    option_map (fun i => (i + 1 - length op)%nat)
               (lastOccurrence op (rev right ++ suf) (length right)).
Proof.
  induction right as [|c before IH]; intros suf st Hst; [reflexivity|].
  specialize (Hst c before eq_refl).
  simpl rev. rewrite <- app_assoc. simpl app.
  cbn [lastOccurrence length]. rewrite occursAt_here. rewrite <- Hst.
  assert (Hnext : forall st',
             st' = scanStep st c (match before with [] => None | p :: _ => Some p end) ->
             scanOperator op before (sc_depth st') (sc_inString st') (sc_stringChar st') =
             option_map (fun i => (i + 1 - length op)%nat)
               (lastOccurrence op (rev before ++ c :: suf) (length before))).
  { intros st' Hst'. apply IH. intros c' before' Hb. subst before.
    rewrite Hst', Hst. reflexivity. }
  cbn [scanOperator]. unfold scanStep in Hnext.
  destruct (sc_inString st) eqn:Hin; simpl negb; simpl andb.
  - destruct before as [|prev before'].
    + destruct (chr_eqb c (sc_stringChar st) && true); reflexivity.
    + destruct (chr_eqb c (sc_stringChar st) && negb (isBackslash prev)) eqn:E.
      * exact (Hnext _ eq_refl).
      * rewrite <- Hin at 1. exact (Hnext _ eq_refl).
  - destruct (isQuote c) eqn:Hq; simpl negb; rewrite ?andb_false_r; simpl andb.
    + exact (Hnext _ eq_refl).
    + destruct (chr_eqb c ")") eqn:Hc; simpl negb; rewrite ?andb_false_r; simpl andb.
      * exact (Hnext _ eq_refl).
      * destruct (chr_eqb c "(") eqn:Ho; simpl negb; rewrite ?andb_false_r; simpl andb.
        -- exact (Hnext _ eq_refl).
        -- destruct (sc_depth st =? 0) eqn:Hd; simpl andb.
           ++ destruct (operatorHere op c before) as [index|] eqn:E.
              ** simpl. f_equal. now apply operatorHere_index in E.
              ** rewrite <- Hin at 1. exact (Hnext _ eq_refl).
           ++ rewrite <- Hin at 1. exact (Hnext _ eq_refl).
Qed.

Lemma lastOccurrence_some (op expr : str) (n i : nat) :
  lastOccurrence op expr n = Some i ->
  (i < n)%nat /\ occursAt op expr i = true /\
  forall j, (i < j < n)%nat -> occursAt op expr j = false.
Proof.
  induction n as [|n IH]; simpl; [discriminate|].
  destruct (occursAt op expr n) eqn:E.
  - intro H. inversion H; subst. repeat split; [lia | exact E | intros j Hj; lia].
  - intro H. destruct (IH H) as (Hi & Ho & Hmax).
    repeat split; [lia | exact Ho |].
    intros j Hj. destruct (Nat.eq_dec j n) as [->|Hne]; [exact E | apply Hmax; lia].
Qed.

Lemma lastOccurrence_none (op expr : str) (n : nat) :
  lastOccurrence op expr n = None ->
  forall j, (j < n)%nat -> occursAt op expr j = false.
Proof.
  induction n as [|n IH]; simpl; [intros _ j Hj; lia|].
  destruct (occursAt op expr n) eqn:E; [discriminate|].
  intros H j Hj. destruct (Nat.eq_dec j n) as [->|Hne]; [exact E | apply IH; [exact H | lia]].
Qed.

Lemma occursAt_inside (op expr : str) (j : nat) :
  occursAt op expr j = true -> (j < length expr)%nat /\ (length op <= j + 1)%nat.
Proof.
  unfold occursAt, topLevel, standsAt. intro H.
  apply andb_true_iff in H. destruct H as [Ht Hs]. split.
  - destruct (Nat.lt_ge_cases j (length expr)) as [Hlt|Hge]; [exact Hlt|].
    rewrite skipn_all2 in Ht by exact Hge. discriminate Ht.
  - destruct op as [|a [|b [|? ?]]]; try discriminate Hs; simpl; [lia|].
    destruct j; [discriminate Hs | lia].
Qed.

Lemma findFirstOperator_spec (ops : list str) (expr op : str) (index : nat) :
  findFirstOperator ops expr = Some (op, index) ->
  exists earlier later i,
    ops = earlier ++ op :: later /\
    lastOccurrence op expr (length expr) = Some i /\
    index = (i + 1 - length op)%nat /\
    forall op', In op' earlier -> lastOccurrence op' expr (length expr) = None.
Proof.
  induction ops as [|o ops IH]; simpl; [discriminate|].
  pose proof (scanOperator_spec o (rev expr) [] scanStart) as Hscan.
  rewrite rev_involutive, List.app_nil_r, length_rev in Hscan.
  simpl in Hscan. rewrite Hscan.
  2:{ intros c before Hr. destruct (rev expr); inversion Hr. reflexivity. }
  destruct (lastOccurrence o expr (length expr)) as [i|] eqn:E; simpl.
  - intro H. inversion H; subst. exists [], ops, i. repeat split; auto.
    intros op' [].
  - intro H. destruct (IH H) as (earlier & later & i & -> & Hl & Hi & He).
    exists (o :: earlier), later, i. repeat split; auto.
    intros op' [<- | Hin]; [exact E | now apply He].
Qed.

Lemma findFirstOperator_none (ops : list str) (expr : str) :
  findFirstOperator ops expr = None ->
  forall op j, In op ops -> occursAt op expr j = false.
Proof.
  induction ops as [|o ops IH]; simpl; [intros _ op j []|].
  pose proof (scanOperator_spec o (rev expr) [] scanStart) as Hscan.
  rewrite rev_involutive, List.app_nil_r, length_rev in Hscan.
  simpl in Hscan. rewrite Hscan.
  2:{ intros c before Hr. destruct (rev expr); inversion Hr. reflexivity. }
  destruct (lastOccurrence o expr (length expr)) as [i|] eqn:E; simpl;
    [discriminate|].
  intros H op j [<- | Hin]; [|now apply IH].
  destruct (occursAt o expr j) eqn:Ho; [|reflexivity].
  destruct (occursAt_inside _ _ _ Ho) as [Hj _].
  now rewrite (lastOccurrence_none _ _ _ E j Hj) in Ho.
Qed.

(** When no operator of the list occurs at top level, none is found. *)
Lemma findTopLevelOperator_none (expr : str) :
  findTopLevelOperator expr = None ->
  forall op j, In op precedenceOrder -> occursAt op expr j = false.
Proof. apply findFirstOperator_none. Qed.

(** What the search selects.  When [findTopLevelOperator] answers operator
    [op] at [index], [op] is the first symbol of the list
    [=, <>, <=, >=, <, >, &, +, -, *, /, ^] that occurs at top level
    (parenthesis depth zero and outside a quoted string, as the
    right-to-left scan sees it), no symbol earlier in that list occurs at
    top level anywhere, and [index] is where the rightmost top-level
    occurrence of [op] itself starts.  An expression that is not a function
    call, a reference or a literal is split there. *)
Lemma findTopLevelOperator_selects (expr op : str) (index : nat) :
  findTopLevelOperator expr = Some (op, index) ->
  (exists earlier later i,
     precedenceOrder = earlier ++ op :: later /\
     (index + length op = i + 1)%nat /\
     occursAt op expr i = true /\
     (forall j, (i < j)%nat -> occursAt op expr j = false) /\
     (forall op' j, In op' earlier -> occursAt op' expr j = false)) /\
  (forall (fuel : nat) (expr0 : str),
     trim expr0 = expr ->
     regexMatch reFunctionHead expr = None ->
     isCellReference expr = false -> isLiteral expr = false ->
     (length expr <= fuel)%nat ->
     exists l r,
       parseExpression fuel (substring 0 index expr) = Some l /\
       parseExpression fuel (substringFrom (index + length op) expr) = Some r /\
       parseExpression (S fuel) expr0 = Some (operatorNode op l r)).
Proof.
  intro H. split.
  - destruct (findFirstOperator_spec _ _ _ _ H) as (earlier & later & i & Hord & Hl & Hi & He).
    destruct (lastOccurrence_some _ _ _ _ Hl) as (Hlt & Ho & Hmax).
    destruct (occursAt_inside _ _ _ Ho) as [_ Hlen].
    exists earlier, later, i. repeat split; [exact Hord | lia | exact Ho | |].
    + intros j Hj. destruct (occursAt op expr j) eqn:E; [|reflexivity].
      destruct (occursAt_inside _ _ _ E) as [Hjl _].
      rewrite Hmax in E by lia. discriminate E.
    + intros op' j Hin. destruct (occursAt op' expr j) eqn:E; [|reflexivity].
      destruct (occursAt_inside _ _ _ E) as [Hjl _].
      now rewrite (lastOccurrence_none _ _ _ (He op' Hin) j Hjl) in E.
  - intros fuel expr0 Htrim Hf Hc Hlit Hfuel.
    destruct (findFirstOperator_range _ _ _ _ H) as [Hop1 Hop2].
    destruct (parseExpression_total fuel (substring 0 index expr)) as (l & Hl).
    { unfold substring. rewrite length_firstn. simpl. lia. }
    destruct (parseExpression_total fuel (substringFrom (index + length op) expr))
      as (r & Hr).
    { unfold substringFrom. rewrite length_skipn. lia. }
    exists l, r. split; [exact Hl|]. split; [exact Hr|].
    cbn [parseExpression]. rewrite Htrim, Hf, Hc, Hlit, H, Hl, Hr. reflexivity.
Qed.

(** Within the additive operators the list has [+] before [-]: in [1+2-3]
    the split is at the [+], not at the rightmost of the two operators, and
    the tree is [1 + (2 - 3)]. *)
Lemma findTopLevelOperator_additive_order :
  findTopLevelOperator (s "1+2-3") = Some (s "+", 1%nat) /\
  specTopLevelOperator (s "1+2-3") = Some (s "-", 3%nat) /\
  parse (s "=1+2-3") =
    Some (operatorNode (s "+") (literalNode (s "1"))
            (operatorNode (s "-") (literalNode (s "2")) (literalNode (s "3")))).
Proof. repeat split; vm_compute; reflexivity. Qed.

(** The scan for a two-character operator and the scan for its last
    character alone go through the same states: where the first finds the
    operator, the second has found the character there or further right. *)
Lemma scanOperator_last_character (a b : ascii) (right : str) :
  forall depth inString stringChar index,
    scanOperator [a; b] right depth inString stringChar = Some index ->
    scanOperator [b] right depth inString stringChar <> None.
Proof.
  induction right as [|char before IH]; intros depth inString stringChar index H;
    [discriminate H|].
  cbn [scanOperator] in *.
  destruct inString.
  - destruct (chr_eqb char stringChar && _); now apply (IH _ _ _ index).
  - destruct (FormulaParser.isQuote char); [now apply (IH _ _ _ index)|].
    destruct (chr_eqb char ")"); [now apply (IH _ _ _ index)|].
    destruct (chr_eqb char "("); [now apply (IH _ _ _ index)|].
    destruct (depth =? 0); [|now apply (IH _ _ _ index)].
    unfold operatorHere in *.
    destruct (chr_eqb char b) eqn:Eb; [discriminate|].
    destruct before as [|prev before']; [now apply (IH _ _ _ index)|].
    rewrite ?Eb, ?andb_false_r in H. now apply (IH _ _ _ index).
Qed.

(** [C4] On the code the operators [<=] and [>=] are never selected: the
    list tries [=] first, and a top-level [>=] holds a top-level [=].  The
    expression [A1>=B1] is split at the [=] at index 3, where the rule of
    the specification selects the [>=] at index 2, and [parse] answers the
    tree of [(A1 > ) = B1], whose inner operator has an empty right operand;
    [A1<=B1] likewise.  No expression makes [findTopLevelOperator] answer
    [<=] or [>=], although its scan has a case for the operators of two
    characters. *)
Theorem comparison_operator_never_selected :
  findTopLevelOperator (s "A1>=B1") = Some (s "=", 3%nat) /\
  specTopLevelOperator (s "A1>=B1") = Some (s ">=", 2%nat) /\
  parse (s "=A1>=B1") =
    Some (operatorNode (s "=")
            (operatorNode (s ">") (referenceNode (s "A1")) (literalNode []))
            (referenceNode (s "B1"))) /\
  parse (s "=A1<=B1") =
    Some (operatorNode (s "=")
            (operatorNode (s "<") (referenceNode (s "A1")) (literalNode []))
            (referenceNode (s "B1"))) /\
  (forall (expr : str) (index : nat),
     findTopLevelOperator expr <> Some (s "<=", index) /\
     findTopLevelOperator expr <> Some (s ">=", index)).
Proof.
  split; [vm_compute; reflexivity|]. split; [vm_compute; reflexivity|].
  split; [vm_compute; reflexivity|]. split; [vm_compute; reflexivity|].
  intros expr index.
  unfold findTopLevelOperator, precedenceOrder. cbn [findFirstOperator].
  destruct (scanOperator (s "=") (rev expr) 0 false "000"%char) as [i1|] eqn:E1;
    [split; intro H; inversion H|].
  destruct (scanOperator (s "<>") (rev expr) 0 false "000"%char) as [i2|];
    [split; intro H; inversion H|].
  destruct (scanOperator (s "<=") (rev expr) 0 false "000"%char) as [i3|] eqn:E3.
  { exfalso. apply (scanOperator_last_character "<" "=" _ _ _ _ _ E3). exact E1. }
  destruct (scanOperator (s ">=") (rev expr) 0 false "000"%char) as [i4|] eqn:E4.
  { exfalso. apply (scanOperator_last_character ">" "=" _ _ _ _ _ E4). exact E1. }
  repeat match goal with
         | |- context [match scanOperator ?o ?r ?d ?i ?c with _ => _ end] =>
             destruct (scanOperator o r d i c);
             [split; intro H; inversion H|]
         end.
  split; discriminate.
Qed.

(** * Further properties of the code *)

(** ** Column numbers and letters, coordinates and addresses *)

Lemma columnToNumber_from (l : str) (a : Z) :
  fold_left (fun num c => num * 26 + (code c - 64)) l a =
  a * 26 ^ Z.of_nat (length l) + columnToNumber l.
Proof.
  revert a. induction l as [|c l IH] using rev_ind; intro a.
  - unfold columnToNumber. simpl. lia.
  - rewrite columnToNumber_snoc, fold_left_app, length_app. simpl fold_left.
    rewrite IH. simpl length. rewrite Nat2Z.inj_add, Z.pow_add_r by lia.
    change (Z.of_nat 1) with 1. rewrite Z.pow_1_r. ring.
Qed.

Lemma columnToNumber_cons (c : ascii) (l : str) :
  columnToNumber (c :: l) = (code c - 64) * 26 ^ Z.of_nat (length l) + columnToNumber l.
Proof.
  unfold columnToNumber at 1. simpl fold_left. rewrite columnToNumber_from. ring.
Qed.

Lemma code_fromCharCode (n : Z) : 0 <= n < 256 -> code (fromCharCode n) = n.
Proof.
  intro H. unfold code, fromCharCode.
  rewrite N_ascii_embedding by lia. lia.
Qed.

Lemma log2_div26 (num : Z) :
  0 < (num - 1) / 26 -> Z.log2 ((num - 1) / 26) < Z.log2 num.
Proof.
  intro Hq.
  assert (Hpos : 0 < num).
  { destruct (Z_lt_le_dec 0 num) as [H|H]; [exact H|].
    assert ((num - 1) / 26 < 0) by (apply Z.div_lt_upper_bound; lia). lia. }
  apply Z.log2_lt_pow2; [lia|].
  pose proof (Z.log2_spec num Hpos) as [Hlow Hup].
  pose proof (Z.log2_nonneg num) as Hnn.
  rewrite Z.pow_succ_r in Hup by exact Hnn.
  assert (H26 : 26 * ((num - 1) / 26) <= num - 1) by (apply Z.mul_div_le; lia).
  lia.
Qed.

(** What the loop of [numberToColumn] builds, given enough fuel: capital
    letters in front of [acc] whose value in base 26 is [num]. *)
Lemma numberToColumn_loop_value (fuel : nat) :
  forall (num : Z) (acc : str),
    0 <= num -> (Z.to_nat (Z.log2 num) < fuel)%nat ->
    columnToNumber (numberToColumn_loop fuel num acc) =
      num * 26 ^ Z.of_nat (length acc) + columnToNumber acc /\
    (Forall (fun c => isUpper c = true) acc ->
     Forall (fun c => isUpper c = true) (numberToColumn_loop fuel num acc)) /\
    (0 < num -> (length acc < length (numberToColumn_loop fuel num acc))%nat).
Proof.
  induction fuel as [|fuel IH]; intros num acc Hnum Hfuel; [lia|].
  rewrite numberToColumn_loop_S.
  destruct (num >? 0) eqn:Hpos.
  - apply Z.gtb_lt in Hpos.
    assert (Hrem : 0 <= Z.rem (num - 1) 26 < 26).
    { rewrite Z.rem_mod_nonneg by lia. apply Z.mod_pos_bound. lia. }
    assert (Hdm : num - 1 = 26 * ((num - 1) / 26) + Z.rem (num - 1) 26).
    { rewrite Z.rem_mod_nonneg by lia. apply Z.div_mod. lia. }
    assert (Hq : 0 <= (num - 1) / 26) by (apply Z.div_pos; lia).
    set (ch := fromCharCode (65 + Z.rem (num - 1) 26)).
    assert (Hcode : code ch = 65 + Z.rem (num - 1) 26)
      by (apply code_fromCharCode; lia).
    assert (Hup : isUpper ch = true).
    { unfold isUpper. rewrite Hcode. apply andb_true_iff.
      split; apply Z.leb_le; lia. }
    assert (Hcons : columnToNumber (ch :: acc) =
                    (Z.rem (num - 1) 26 + 1) * 26 ^ Z.of_nat (length acc)
                    + columnToNumber acc).
    { rewrite columnToNumber_cons, Hcode. f_equal. f_equal. lia. }
    destruct (Z.eq_dec ((num - 1) / 26) 0) as [Hz|Hnz].
    + rewrite Hz, numberToColumn_loop_done by lia.
      split; [|split].
      * rewrite Hcons. f_equal. f_equal. lia.
      * intro Hacc. now constructor.
      * intros _. simpl. lia.
    + assert (Hlog : Z.log2 ((num - 1) / 26) < Z.log2 num)
        by (apply log2_div26; lia).
      pose proof (Z.log2_nonneg ((num - 1) / 26)) as Hn.
      destruct (IH ((num - 1) / 26) (ch :: acc) Hq) as (Hv & Hu & Hl); [lia|].
      split; [|split].
      * rewrite Hv, Hcons. change (length (ch :: acc)) with (S (length acc)).
        rewrite Nat2Z.inj_succ, Z.pow_succ_r by lia.
        set (P := 26 ^ Z.of_nat (length acc)) in *.
        replace num with (26 * ((num - 1) / 26) + Z.rem (num - 1) 26 + 1) at 3 by lia.
        ring.
      * intro Hacc. apply Hu. now constructor.
      * intros _. specialize (Hl ltac:(lia)). simpl in Hl. lia.
  - rewrite Z.gtb_ltb in Hpos. apply Z.ltb_ge in Hpos.
    assert (num = 0) by lia. subst num.
    split; [lia | split; [auto | intro; lia]].
Qed.

Lemma columnToNumber_numberToColumn_aux (n : Z) :
  1 <= n ->
  columnToNumber (numberToColumn n) = n /\
  numberToColumn n <> [] /\
  Forall (fun c => isUpper c = true) (numberToColumn n).
Proof.
  intro Hn. unfold numberToColumn.
  destruct (numberToColumn_loop_value (S (Z.to_nat (Z.log2 n))) n [])
    as (Hv & Hu & Hl); [lia | lia |].
  split; [|split].
  - rewrite Hv. unfold columnToNumber. simpl. lia.
  - intro Hnil. specialize (Hl ltac:(lia)). rewrite Hnil in Hl. simpl in Hl. lia.
  - apply Hu. constructor.
Qed.

(** [X1] [numberToColumn] and [columnToNumber] are inverse on the column
    numbers: the letters of an integer [n >= 1] (one the language holds
    exactly) are capital letters, at least one, and read back as [n]. *)
Theorem columnToNumber_numberToColumn (n : Z) :
  1 <= n <= maxSafeInteger ->
  columnToNumber (numberToColumn n) = n /\
  numberToColumn n <> [] /\
  Forall (fun c => isUpper c = true) (numberToColumn n).
Proof.
  intros [Hn _]. unfold numberToColumn.
  destruct (numberToColumn_loop_value (S (Z.to_nat (Z.log2 n))) n [])
    as (Hv & Hu & Hl); [lia | lia |].
  split; [|split].
  - rewrite Hv. unfold columnToNumber. simpl. lia.
  - intro Hnil. specialize (Hl ltac:(lia)). rewrite Hnil in Hl. simpl in Hl. lia.
  - apply Hu. constructor.
Qed.

Lemma columnToNumber_numberToColumn_witness :
  columnToNumber (numberToColumn 16384) = 16384.
Proof. apply (columnToNumber_numberToColumn 16384). unfold maxSafeInteger. lia. Defined.

Lemma digits_of_uint (d : Decimal.uint) :
  Forall (fun c => isDigit c = true)
         (list_ascii_of_string (NilEmpty.string_of_uint d)).
Proof. induction d; simpl; constructor; auto. Qed.

(** The text of a number that is not negative: digits, at least one, that
    [parseInt] reads back. *)
Lemma numberToString_digits (r : Z) :
  0 <= r ->
  numberToString r <> [] /\
  Forall (fun c => isDigit c = true) (numberToString r) /\
  parseInt (numberToString r) = Some r.
Proof.
  intro Hr. unfold numberToString, parseInt.
  rewrite string_of_list_ascii_of_string.
  assert (Hd : exists d, Z.to_int r = Decimal.Pos d /\ d <> Decimal.Nil).
  { destruct r as [|p|p]; [| |lia].
    - exists (Decimal.D0 Decimal.Nil). split; [reflexivity | discriminate].
    - exists (Pos.to_uint p). split; [reflexivity|].
      apply DecimalPos.Unsigned.to_uint_nonnil. }
  destruct Hd as (d & Hd & Hnil).
  pose proof (DecimalZ.of_to r) as Hback.
  rewrite Hd in *. simpl NilZero.string_of_int.
  assert (Hs : NilZero.string_of_uint d = NilEmpty.string_of_uint d)
    by (destruct d; [congruence | reflexivity ..]).
  split; [|split].
  - rewrite Hs. destruct d; [congruence | discriminate ..].
  - rewrite Hs. apply digits_of_uint.
  - rewrite NilZero.usu by exact Hnil. simpl. f_equal. exact Hback.
Qed.

Lemma addressToCoords_coordinatesToAddress_aux (r c : Z) :
  0 <= r -> 1 <= c ->
  addressToCoords (coordinatesToAddress r c) = Some (mkCoords r c).
Proof.
  intros Hr Hc.
  destruct (columnToNumber_numberToColumn_aux c Hc) as (Hv & Hne & Hup).
  destruct (numberToString_digits r Hr) as (Hdne & Hdig & Hparse).
  assert (Hlet : Forall (fun x => isLetter x = true) (numberToColumn c)).
  { eapply Forall_impl; [|exact Hup]. intro x. apply upper_is_letter. }
  pose proof (addressToCoords_plain (numberToColumn c) (numberToString r) 0 r
                Hne Hlet Hdne Hdig Hparse) as Hm.
  unfold addressToCoords, regexMatch, coordinatesToAddress.
  destruct (searchFrom reAddress (numberToColumn c ++ numberToString r) 0)
    as [m|]; [|discriminate Hm].
  simpl in Hm. inversion Hm as [[H1 H2]]. rewrite H1, H2, Hparse, Hv. reflexivity.
Qed.

(** [X2] The address of a row [r >= 0] and a column [c >= 1] (integers the
    language holds exactly) converts back to the coordinates [(r, c)]. *)
Theorem addressToCoords_coordinatesToAddress (r c : Z) :
  0 <= r <= maxSafeInteger -> 1 <= c <= maxSafeInteger ->
  addressToCoords (coordinatesToAddress r c) = Some (mkCoords r c).
Proof.
  intros [Hr _] [Hc _].
  destruct (columnToNumber_numberToColumn_aux c Hc) as (Hv & Hne & Hup).
  destruct (numberToString_digits r Hr) as (Hdne & Hdig & Hparse).
  assert (Hlet : Forall (fun x => isLetter x = true) (numberToColumn c)).
  { eapply Forall_impl; [|exact Hup]. intro x. apply upper_is_letter. }
  pose proof (addressToCoords_plain (numberToColumn c) (numberToString r) 0 r
                Hne Hlet Hdne Hdig Hparse) as Hm.
  unfold addressToCoords, regexMatch, coordinatesToAddress.
  destruct (searchFrom reAddress (numberToColumn c ++ numberToString r) 0)
    as [m|]; [|discriminate Hm].
  simpl in Hm. inversion Hm as [[H1 H2]]. rewrite H1, H2, Hparse, Hv. reflexivity.
Qed.

Lemma addressToCoords_coordinatesToAddress_witness :
  addressToCoords (coordinatesToAddress 1048576 16384) =
    Some (mkCoords 1048576 16384).
Proof. apply addressToCoords_coordinatesToAddress; unfold maxSafeInteger; lia. Defined.

Lemma split_aux_at (sep : ascii) (a b cur : str) :
  Forall (fun c => chr_eqb c sep = false) a ->
  split_aux sep cur (a ++ sep :: b) = (rev cur ++ a) :: split_aux sep [] b.
Proof.
  intro H. revert cur. induction H as [|c a Hc Ha IH]; intro cur; simpl.
  - unfold chr_eqb. rewrite Ascii.eqb_refl. now rewrite List.app_nil_r.
  - rewrite Hc, IH. simpl. now rewrite <- app_assoc.
Qed.

Lemma includes_at (sep : ascii) (a b : str) : includes sep (a ++ sep :: b) = true.
Proof.
  unfold includes. rewrite existsb_app. simpl.
  unfold chr_eqb. rewrite Ascii.eqb_refl. apply orb_true_iff. right. reflexivity.
Qed.

Lemma includes_without (sep : ascii) (a : str) :
  Forall (fun c => chr_eqb c sep = false) a -> includes sep a = false.
Proof.
  unfold includes. induction 1 as [|c a Hc Ha IH]; [reflexivity|].
  simpl. rewrite IH. unfold chr_eqb in *. rewrite (Ascii.eqb_sym sep c), Hc.
  reflexivity.
Qed.

(** An address built from coordinates is made of capital letters and
    digits. *)
Lemma coordinatesToAddress_plain (r c : Z) :
  0 <= r ->
  Forall (fun x => isLetter x = true \/ isDigit x = true) (coordinatesToAddress r c).
Proof.
  intro Hr. unfold coordinatesToAddress. apply Forall_app. split.
  - destruct (Z_lt_le_dec c 1) as [Hc|Hc].
    + unfold numberToColumn. rewrite numberToColumn_loop_done by lia. constructor.
    + destruct (columnToNumber_numberToColumn_aux c Hc) as (_ & _ & Hup).
      eapply Forall_impl; [|exact Hup]. intros x Hx. left. now apply upper_is_letter.
  - destruct (numberToString_digits r Hr) as (_ & Hd & _).
    eapply Forall_impl; [|exact Hd]. intros x Hx. now right.
Qed.

Lemma coordinatesToAddress_no (sep : ascii) (r c : Z) :
  0 <= r -> isLetter sep = false -> isDigit sep = false ->
  Forall (fun x => chr_eqb x sep = false) (coordinatesToAddress r c).
Proof.
  intros Hr Hl Hd.
  eapply Forall_impl; [|apply (coordinatesToAddress_plain r c Hr)].
  intros x Hx. apply Ascii.eqb_neq. intros ->.
  destruct Hx as [Hx|Hx]; congruence.
Qed.

(** [X3] Membership in a two-corner range is the test on the coordinates:
    for addresses written from rows [>= 0] and columns [>= 1],
    [isAddressInRange] answers whether the cell's row and column lie between
    those of the two corners, bounds included. *)
Theorem isAddressInRange_corners (r c r1 c1 r2 c2 : Z) :
  0 <= r <= maxSafeInteger -> 1 <= c <= maxSafeInteger ->
  0 <= r1 <= maxSafeInteger -> 1 <= c1 <= maxSafeInteger ->
  0 <= r2 <= maxSafeInteger -> 1 <= c2 <= maxSafeInteger ->
  CalculationFlowAnalyzer.isAddressInRange
    (Some (coordinatesToAddress r c))
    (coordinatesToAddress r1 c1 ++ ":"%char :: coordinatesToAddress r2 c2) =
  Some ((r >=? r1) && (r <=? r2) && (c >=? c1) && (c <=? c2)).
Proof.
  intros [Hr _] [Hc _] [Hr1 _] [Hc1 _] [Hr2 _] [Hc2 _].
  unfold CalculationFlowAnalyzer.isAddressInRange.
  rewrite includes_at. simpl negb. cbv iota.
  unfold split.
  rewrite split_aux_at by (apply coordinatesToAddress_no; [lia | reflexivity ..]).
  change (split_aux ":" [] (coordinatesToAddress r2 c2))
    with (split ":" (coordinatesToAddress r2 c2)).
  rewrite split_without by (apply coordinatesToAddress_no; [lia | reflexivity ..]).
  cbn [rev app nth nth_error option_map].
  rewrite !addressToCoords_coordinatesToAddress_aux by lia.
  reflexivity.
Qed.

Lemma isAddressInRange_corners_witness :
  CalculationFlowAnalyzer.isAddressInRange (Some (s "B7")) (s "A1:C10") = Some true.
Proof.
  apply (isAddressInRange_corners 7 2 1 1 10 3); unfold maxSafeInteger; lia.
Defined.

(** [X4] Against a range text without a colon the test is equality of the
    texts: for addresses written from coordinates it holds exactly when the
    row and the column are the same. *)
Theorem isAddressInRange_single (r c r' c' : Z) :
  0 <= r <= maxSafeInteger -> 1 <= c <= maxSafeInteger ->
  0 <= r' <= maxSafeInteger -> 1 <= c' <= maxSafeInteger ->
  CalculationFlowAnalyzer.isAddressInRange
    (Some (coordinatesToAddress r c)) (coordinatesToAddress r' c') =
  Some ((r =? r') && (c =? c')).
Proof.
  intros [Hr _] [Hc _] [Hr' _] [Hc' _].
  unfold CalculationFlowAnalyzer.isAddressInRange.
  rewrite includes_without by (apply coordinatesToAddress_no; [lia | reflexivity ..]).
  simpl negb. cbv iota. f_equal.
  destruct ((r =? r') && (c =? c')) eqn:E.
  - apply andb_true_iff in E. destruct E as [E1 E2].
    apply Z.eqb_eq in E1, E2. subst. apply str_eqb_refl.
  - apply str_eqb_neq. intro Heq.
    pose proof (addressToCoords_coordinatesToAddress_aux r c Hr Hc) as H1.
    pose proof (addressToCoords_coordinatesToAddress_aux r' c' Hr' Hc') as H2.
    rewrite Heq, H2 in H1. inversion H1; subst.
    rewrite !Z.eqb_refl in E. discriminate E.
Qed.

Lemma isAddressInRange_single_witness :
  CalculationFlowAnalyzer.isAddressInRange (Some (s "B7")) (s "B8") = Some false.
Proof. apply (isAddressInRange_single 7 2 8 2); unfold maxSafeInteger; lia. Defined.

(** ** The navigation history *)

Section History.

Import KeyboardShortcutManager.

Lemma sliceTo_length {A : Type} (e : Z) (l : list A) :
  0 <= e -> length (sliceTo e l) = Nat.min (Z.to_nat e) (length l).
Proof.
  intro He. unfold sliceTo.
  replace (e <? 0) with false by (symmetry; apply Z.ltb_ge; lia).
  apply length_firstn.
Qed.

Lemma addToHistory_ok (h : History) (sheet address : str) :
  historyOk h ->
  let h' := addToHistory h sheet address in
  historyOk h' /\
  currentHistoryIndex h' = Z.of_nat (length (navigationHistory h')) - 1 /\
  currentLocation h' = Some (mkLocation sheet address).
Proof.
  intros [Hlen Hidx]. unfold maxHistorySize in Hlen.
  assert (Hi : -1 <= currentHistoryIndex h
               < Z.of_nat (length (navigationHistory h))).
  { destruct Hidx as [[Hnil Hm]|Hin]; [rewrite Hm; simpl; lia | lia]. }
  unfold addToHistory. cbv zeta.
  set (kept := sliceTo (currentHistoryIndex h + 1) (navigationHistory h)).
  assert (Hk : length kept = Z.to_nat (currentHistoryIndex h + 1)).
  { unfold kept. rewrite sliceTo_length by lia. lia. }
  rewrite length_app. simpl length. unfold maxHistorySize.
  destruct (100 <? length kept + 1)%nat eqn:Hover.
  - apply Nat.ltb_lt in Hover.
    destruct kept as [|first rest] eqn:Ekept; [simpl in Hover; lia|].
    simpl tl. simpl in Hk, Hover.
    assert (Hidx99 : currentHistoryIndex h = 99) by lia.
    unfold historyOk, currentLocation. simpl.
    rewrite length_app. simpl length. rewrite Hidx99.
    assert (Hrest : length rest = 99%nat) by lia.
    split; [split; [unfold maxHistorySize; lia | right; lia]|].
    split; [lia|].
    change (Z.to_nat 99) with 99%nat.
    rewrite nth_error_app2 by lia. rewrite Hrest. reflexivity.
  - apply Nat.ltb_ge in Hover.
    unfold historyOk, currentLocation. simpl.
    rewrite length_app. simpl length.
    split; [split; [unfold maxHistorySize; lia | right; lia]|].
    split; [lia|].
    replace (currentHistoryIndex h + 1 <? 0) with false
      by (symmetry; apply Z.ltb_ge; lia).
    rewrite nth_error_app2 by lia.
    replace (Z.to_nat (currentHistoryIndex h + 1) - length kept)%nat with 0%nat by lia.
    reflexivity.
Qed.

Lemma navigateBack_ok (select : Location -> bool) (h : History) :
  historyOk h -> historyOk (snd (navigateBack select h)).
Proof.
  intros [Hlen Hidx]. unfold navigateBack.
  destruct (currentHistoryIndex h <=? 0) eqn:E; [split; assumption|].
  apply Z.leb_gt in E.
  assert (historyOk (mkHistory (navigationHistory h) (currentHistoryIndex h - 1))).
  { split; [exact Hlen|]. right. simpl. destruct Hidx as [[_ Hm]|Hin]; lia. }
  cbv zeta. destruct (nth_error _ _); assumption.
Qed.

Lemma navigateForward_ok (select : Location -> bool) (h : History) :
  historyOk h -> historyOk (snd (navigateForward select h)).
Proof.
  intros [Hlen Hidx]. unfold navigateForward.
  destruct (currentHistoryIndex h >=? _) eqn:E; [split; assumption|].
  rewrite Z.geb_leb in E. apply Z.leb_gt in E.
  assert (historyOk (mkHistory (navigationHistory h) (currentHistoryIndex h + 1))).
  { split; [exact Hlen|]. right. simpl.
    destruct Hidx as [[Hnil Hm]|Hin]; [rewrite Hnil in E; simpl in E; lia | lia]. }
  cbv zeta.
  match goal with |- context [match ?x with Some _ => _ | None => _ end] =>
    destruct x end; assumption.
Qed.

(** [X5] Whatever calls are made from the cleared state, the history holds
    at most 100 locations and its index is -1 on the empty list and points
    at one of the locations otherwise. *)
Theorem history_bounded (select : Location -> bool) (calls : list HistoryCall) :
  historyOk (historyCalls select calls).
Proof.
  unfold historyCalls. apply fold_left_invariant.
  - split; [simpl; unfold maxHistorySize; lia | left; split; reflexivity].
  - intros h c Hh. destruct c as [sheet address | | |]; simpl.
    + apply (addToHistory_ok h sheet address Hh).
    + apply navigateBack_ok, Hh.
    + apply navigateForward_ok, Hh.
    + split; [simpl; unfold maxHistorySize; lia | left; split; reflexivity].
Qed.

(** [X6] After [addToHistory] the new location is the last one of the list
    and the current one: the locations after the former index are gone. *)
Theorem addToHistory_current (h : History) (sheet address : str) :
  historyOk h ->
  let h' := addToHistory h sheet address in
  currentHistoryIndex h' = Z.of_nat (length (navigationHistory h')) - 1 /\
  currentLocation h' = Some (mkLocation sheet address).
Proof. intro Hh. apply (addToHistory_ok h sheet address Hh). Qed.

Lemma addToHistory_current_witness :
  currentLocation
    (addToHistory (mkHistory [mkLocation (s "S") (s "A1"); mkLocation (s "S") (s "B2")] 0)
                  (s "T") (s "C3")) =
  Some (mkLocation (s "T") (s "C3")).
Proof.
  apply (addToHistory_current
           (mkHistory [mkLocation (s "S") (s "A1"); mkLocation (s "S") (s "B2")] 0)
           (s "T") (s "C3")).
  split; [simpl; unfold maxHistorySize; lia | right; simpl; lia].
Defined.

(** [X7] From an index above 0, going back moves the index down by one
    whether or not the host selects the location, and going forward from
    there returns to the same state, whatever the host answers. *)
Theorem navigateBack_navigateForward (select select' : Location -> bool)
    (h : History) :
  historyOk h -> 0 < currentHistoryIndex h ->
  snd (navigateForward select' (snd (navigateBack select h))) = h /\
  currentHistoryIndex (snd (navigateBack select h)) = currentHistoryIndex h - 1.
Proof.
  intros [Hlen Hidx] Hpos.
  destruct Hidx as [[_ Hm]|Hin]; [lia|].
  unfold navigateBack.
  replace (currentHistoryIndex h <=? 0) with false by (symmetry; apply Z.leb_gt; lia).
  cbv zeta.
  assert (Hfw : snd (navigateForward select'
                   (mkHistory (navigationHistory h) (currentHistoryIndex h - 1))) = h).
  { unfold navigateForward. simpl.
    replace (currentHistoryIndex h - 1 >=? Z.of_nat (length (navigationHistory h)) - 1)
      with false by (symmetry; rewrite Z.geb_leb; apply Z.leb_gt; lia).
    replace (currentHistoryIndex h - 1 + 1) with (currentHistoryIndex h) by lia.
    destruct h as [l i]. simpl in *.
    destruct (if i <? 0 then None else nth_error l (Z.to_nat i)); reflexivity. }
  destruct (nth_error (navigationHistory h) _); simpl; split; auto.
Qed.

Lemma navigateBack_navigateForward_witness :
  snd (navigateForward (fun _ => true)
         (snd (navigateBack (fun _ => false)
                 (mkHistory [mkLocation (s "S") (s "A1"); mkLocation (s "S") (s "B2")] 1))))
  = mkHistory [mkLocation (s "S") (s "A1"); mkLocation (s "S") (s "B2")] 1.
Proof.
  apply (navigateBack_navigateForward (fun _ => false) (fun _ => true)
           (mkHistory [mkLocation (s "S") (s "A1"); mkLocation (s "S") (s "B2")] 1)).
  - split; [simpl; unfold maxHistorySize; lia | right; simpl; lia].
  - simpl. lia.
Defined.

End History.

(** ** References with a sheet name *)

Section References.

Import ExcelHelper.

Lemma split_aux_length (sep : ascii) (x : str) :
  forall cur, length (split_aux sep cur x) = S (count_occ ascii_dec x sep).
Proof.
  induction x as [|c x IH]; intro cur; [reflexivity|].
  simpl split_aux. simpl count_occ. unfold chr_eqb.
  destruct (Ascii.eqb_spec c sep) as [->|Hne].
  - destruct (ascii_dec sep sep) as [_|Hn]; [|congruence]. simpl. now rewrite IH.
  - destruct (ascii_dec c sep) as [He|_]; [congruence|]. apply IH.
Qed.

(** [X8] A reference whose number of exclamation marks is not one (none, or
    one more inside a sheet name) is returned whole as the address, with
    the default sheet. *)
Theorem parseReference_default (reference defaultSheet : str) :
  count_occ ascii_dec reference "!"%char <> 1%nat ->
  parseReference reference defaultSheet = (defaultSheet, reference).
Proof.
  intro Hc. unfold parseReference.
  pose proof (split_aux_length "!" reference []) as Hlen.
  fold (split "!" reference) in Hlen.
  destruct (split "!" reference) as [|p0 [|p1 [|p2 rest]]]; try reflexivity.
  simpl in Hlen. lia.
Qed.

Lemma parseReference_default_witness :
  parseReference (s "'Q1!Q2'!A1") (s "Sheet1") = (s "Sheet1", s "'Q1!Q2'!A1").
Proof. apply parseReference_default. vm_compute. lia. Defined.

Lemma indexOf_at (c : ascii) (a b : str) :
  Forall (fun x => chr_eqb x c = false) a ->
  indexOf c (a ++ c :: b) = Some (length a).
Proof.
  induction 1 as [|x a Hx Ha IH]; simpl.
  - unfold chr_eqb. now rewrite Ascii.eqb_refl.
  - rewrite Hx, IH. reflexivity.
Qed.

Lemma indexOf_without (c : ascii) (a : str) :
  Forall (fun x => chr_eqb x c = false) a -> indexOf c a = None.
Proof.
  induction 1 as [|x a Hx Ha IH]; simpl; [reflexivity|]. now rewrite Hx, IH.
Qed.

Lemma startsWith_quote (c : ascii) (x : str) :
  startsWith (s "'") (c :: x) = false -> chr_eqb c "'" = false.
Proof.
  simpl. rewrite andb_true_r. unfold chr_eqb. now rewrite Ascii.eqb_sym.
Qed.

Lemma stripQuotes_quoted (x : str) : stripQuotes ("'"%char :: x ++ ["'"%char]) = x.
Proof.
  unfold stripQuotes. simpl. rewrite rev_app_distr. simpl. apply rev_involutive.
Qed.

Lemma stripQuotes_closing (x : str) :
  startsWith (s "'") x = false -> stripQuotes (x ++ ["'"%char]) = x.
Proof.
  intro Hs. destruct x as [|c x]; [reflexivity|].
  apply startsWith_quote in Hs.
  unfold stripQuotes.
  change ((c :: x) ++ ["'"%char]) with (c :: x ++ ["'"%char]).
  cbv beta iota zeta. rewrite Hs.
  change (c :: x ++ ["'"%char]) with ((c :: x) ++ ["'"%char]).
  rewrite rev_app_distr.
  change (rev ["'"%char] ++ rev (c :: x)) with ("'"%char :: rev (c :: x)).
  cbv beta iota.
  change (chr_eqb "'" "'") with true. cbv iota. apply rev_involutive.
Qed.

Lemma stripQuotes_bare (x : str) :
  startsWith (s "'") x = false -> startsWith (s "'") (rev x) = false ->
  stripQuotes x = x.
Proof.
  intros Hs He. unfold stripQuotes.
  assert (Hx1 : match x with
                | c :: x' => if chr_eqb c "'" then x' else x
                | [] => x
                end = x).
  { destruct x as [|c x]; [reflexivity|].
    apply startsWith_quote in Hs. now rewrite Hs. }
  rewrite Hx1. destruct (rev x) as [|c r]; [reflexivity|].
  apply startsWith_quote in He. now rewrite He.
Qed.

(** [X9] A reference written as sheet name, exclamation mark and address is
    taken apart again: the sheet name comes back without its quotes and
    without a workbook name in brackets before it. The names hold no
    exclamation mark and no closing bracket, and the sheet name does not
    begin with a quote. *)
Theorem parseReference_qualified (book sheet address defaultSheet : str) :
  Forall (fun c => chr_eqb c "!" = false) book ->
  Forall (fun c => chr_eqb c "!" = false) sheet ->
  Forall (fun c => chr_eqb c "!" = false) address ->
  Forall (fun c => chr_eqb c "]" = false) book ->
  Forall (fun c => chr_eqb c "]" = false) sheet ->
  startsWith (s "'") sheet = false ->
  parseReference (s "'[" ++ book ++ s "]" ++ sheet ++ s "'!" ++ address) defaultSheet
    = (sheet, address) /\
  parseReference (s "'" ++ sheet ++ s "'!" ++ address) defaultSheet
    = (sheet, address) /\
  (startsWith (s "'") (rev sheet) = false ->
   parseReference (sheet ++ s "!" ++ address) defaultSheet = (sheet, address)).
Proof.
  intros Hb Hs Ha Hbb Hsb Hq.
  assert (Hsplit : forall part0,
            Forall (fun c => chr_eqb c "!" = false) part0 ->
            split "!" (part0 ++ "!"%char :: address) = [part0; address]).
  { intros part0 Hp. unfold split. rewrite split_aux_at by exact Hp.
    fold (split "!" address). now rewrite split_without by exact Ha. }
  split; [|split].
  - unfold parseReference.
    replace (s "'[" ++ book ++ s "]" ++ sheet ++ s "'!" ++ address)
      with ((s "'[" ++ book ++ s "]" ++ sheet ++ s "'") ++ "!"%char :: address)
      by (repeat (simpl; rewrite <- app_assoc); reflexivity).
    rewrite Hsplit.
    + replace (s "'[" ++ book ++ s "]" ++ sheet ++ s "'")
        with ((s "'[" ++ book) ++ "]"%char :: (sheet ++ s "'")) by reflexivity.
      rewrite indexOf_at by (constructor; [reflexivity | constructor; [reflexivity | exact Hbb]]).
      unfold substringFrom.
      replace (length (s "'[" ++ book) + 1)%nat
        with (length ((s "'[" ++ book) ++ ["]"%char]))
        by (rewrite length_app; reflexivity).
      replace ((s "'[" ++ book) ++ "]"%char :: sheet ++ s "'")
        with (((s "'[" ++ book) ++ ["]"%char]) ++ sheet ++ s "'")
        by (rewrite <- app_assoc; reflexivity).
      rewrite skipn_app, skipn_all, Nat.sub_diag. simpl skipn. simpl app at 1.
      now rewrite stripQuotes_closing by exact Hq.
    + repeat (apply Forall_app; split); try assumption;
        repeat constructor.
  - unfold parseReference.
    replace (s "'" ++ sheet ++ s "'!" ++ address)
      with ((s "'" ++ sheet ++ s "'") ++ "!"%char :: address)
      by (repeat (simpl; rewrite <- app_assoc); reflexivity).
    rewrite Hsplit.
    + rewrite indexOf_without
        by (constructor; [reflexivity | apply Forall_app; split;
                          [exact Hsb | repeat constructor]]).
      change (s "'" ++ sheet ++ s "'") with ("'"%char :: sheet ++ ["'"%char]).
      now rewrite (stripQuotes_quoted sheet).
    + constructor; [reflexivity|]. apply Forall_app. split; [exact Hs | repeat constructor].
  - intro He. unfold parseReference.
    change (sheet ++ s "!" ++ address) with (sheet ++ "!"%char :: address).
    rewrite Hsplit by exact Hs.
    rewrite indexOf_without by exact Hsb.
    now rewrite stripQuotes_bare.
Qed.

Lemma parseReference_qualified_witness :
  parseReference (s "'[Book1.xlsx]My Sheet'!B2") (s "Sheet1") = (s "My Sheet", s "B2").
Proof.
  apply (parseReference_qualified (s "Book1.xlsx") (s "My Sheet") (s "B2") (s "Sheet1"));
    first [reflexivity | repeat constructor].
Defined.

End References.

(** ** The cells and the blocks of a comparison *)

Section Blocks.

Variable numberText : float -> str.

Lemma fold_left_grid {A : Type} (f : nat -> nat -> A -> A) (cols rows : list nat) :
  forall a : A,
    fold_left (fun st r => fold_left (fun st' c => f r c st') cols st) rows a =
    fold_left (fun st rc => f (fst rc) (snd rc) st)
              (flat_map (fun r => map (pair r) cols) rows) a.
Proof.
  induction rows as [|r rows IH]; intro a; [reflexivity|].
  simpl. rewrite fold_left_app, <- IH. f_equal.
  generalize a. clear. induction cols as [|c cols IHc]; intro a; [reflexivity|].
  simpl. apply IHc.
Qed.

Lemma compareCell_blocks rf rv cf cv options r c st :
  let st' := compareCell numberText rf rv cf cv options r c st in
  let d := cellDiffers numberText rf rv cf cv options (r, c) in
  concat (map referenceCells (blocksOf st')) =
    concat (map referenceCells (blocksOf st))
    ++ (if d then [recordedCell rf rv (r, c)] else []) /\
  concat (map comparatorCells (blocksOf st')) =
    concat (map comparatorCells (blocksOf st))
    ++ (if d then [recordedCell cf cv (r, c)] else []) /\
  l_total st' = l_total st + (if d then 1 else 0).
Proof.
  unfold compareCell, cellDiffers. cbn [fst snd].
  match goal with |- context [if ?d then _ else st] => destruct d end.
  2:{ cbv zeta. rewrite !List.app_nil_r. repeat split. lia. }
  unfold openBlock, blocksOf, recordedCell. cbn [fst snd].
  destruct (l_currentBlock st) as [cur|].
  - destruct (isAdjacent cur (Z.of_nat r) (Z.of_nat c)); simpl;
      rewrite !map_app, !concat_app; simpl; rewrite ?List.app_nil_r, <- ?app_assoc;
      repeat split.
  - simpl. rewrite !List.app_nil_r, !map_app, !concat_app. simpl.
    repeat split.
Qed.

Lemma compareLoop_blocks rf rv cf cv options (l : list (nat * nat)) :
  forall st,
    let st' := fold_left (fun st rc => compareCell numberText rf rv cf cv options
                                         (fst rc) (snd rc) st) l st in
    let cells := filter (cellDiffers numberText rf rv cf cv options) l in
    concat (map referenceCells (blocksOf st')) =
      concat (map referenceCells (blocksOf st)) ++ map (recordedCell rf rv) cells /\
    concat (map comparatorCells (blocksOf st')) =
      concat (map comparatorCells (blocksOf st)) ++ map (recordedCell cf cv) cells /\
    l_total st' = l_total st + Z.of_nat (length cells).
Proof.
  induction l as [|[r c] l IH]; intro st.
  - simpl. rewrite !List.app_nil_r. repeat split. lia.
  - cbn [fold_left filter fst snd].
    destruct (IH (compareCell numberText rf rv cf cv options r c st)) as (H1 & H2 & H3).
    destruct (compareCell_blocks rf rv cf cv options r c st) as (G1 & G2 & G3).
    cbv zeta in *. rewrite H1, H2, H3, G1, G2, G3.
    destruct (cellDiffers numberText rf rv cf cv options (r, c)); simpl;
      rewrite <- ?app_assoc, ?List.app_nil_r; simpl; repeat split; lia.
Qed.

Lemma compareRanges_blocksOf rf rv cf cv options :
  exists final,
    final = fold_left (fun st rc => compareCell numberText rf rv cf cv options
                                      (fst rc) (snd rc) st)
                      (gridCells (unionRows rf cf) (unionCols rf cf))
                      (mkLoop [] 0 None) /\
    differences (compareRanges numberText rf rv cf cv options) = blocksOf final /\
    totalDifferences (compareRanges numberText rf rv cf cv options) = l_total final.
Proof.
  eexists. split; [reflexivity|].
  unfold compareRanges, gridCells, unionRows, unionCols. cbv zeta.
  rewrite (fold_left_grid (compareCell numberText rf rv cf cv options)).
  unfold blocksOf. cbn [differences totalDifferences].
  split; [|reflexivity].
  match goal with |- context [l_currentBlock ?x] => destruct (l_currentBlock x) end;
    [reflexivity | now rewrite List.app_nil_r].
Qed.

Lemma compareRanges_total rf rv cf cv options :
  totalDifferences (compareRanges numberText rf rv cf cv options) =
  Z.of_nat (length (filter (cellDiffers numberText rf rv cf cv options)
                           (gridCells (unionRows rf cf) (unionCols rf cf)))).
Proof.
  destruct (compareRanges_blocksOf rf rv cf cv options) as (final & Hf & _ & Ht).
  rewrite Ht, Hf.
  destruct (compareLoop_blocks rf rv cf cv options
              (gridCells (unionRows rf cf) (unionCols rf cf)) (mkLoop [] 0 None))
    as (_ & _ & H3).
  cbv zeta in H3. rewrite H3. simpl. reflexivity.
Qed.

(** [X10] What [compareRanges] reports is the differing cells of the union
    grid, each once and in the order of the rows and then the columns: the
    cells of the blocks, one block after the other, are the records of these
    cells in the reference grid (and in the comparator grid), and the total
    is their number. *)
Theorem compareRanges_cells rf rv cf cv options :
  let result := compareRanges numberText rf rv cf cv options in
  let cells := filter (cellDiffers numberText rf rv cf cv options)
                      (gridCells (unionRows rf cf) (unionCols rf cf)) in
  concat (map referenceCells (differences result)) = map (recordedCell rf rv) cells /\
  concat (map comparatorCells (differences result)) = map (recordedCell cf cv) cells /\
  totalDifferences result = Z.of_nat (length cells).
Proof.
  cbv zeta.
  destruct (compareRanges_blocksOf rf rv cf cv options) as (final & Hf & Hd & Ht).
  rewrite Hd, Ht, Hf.
  destruct (compareLoop_blocks rf rv cf cv options
              (gridCells (unionRows rf cf) (unionCols rf cf)) (mkLoop [] 0 None))
    as (H1 & H2 & H3).
  cbv zeta in *. rewrite H1, H2, H3. simpl. repeat split.
Qed.

Lemma filter_length_le {A : Type} (f g : A -> bool) (l : list A) :
  (forall x, f x = true -> g x = true) ->
  (length (filter f l) <= length (filter g l))%nat.
Proof.
  intro H. induction l as [|x l IH]; [simpl; lia|].
  simpl. destruct (f x) eqn:Ef.
  - rewrite (H x Ef). simpl. lia.
  - destruct (g x); simpl; lia.
Qed.

(** [X11] In formula mode, ignoring the references never reports more
    differences than comparing the formula texts. *)
Theorem compareRanges_ignoreInputs_fewer rf rv cf cv (align align' : bool) :
  totalDifferences (compareRanges numberText rf rv cf cv (mkOptions true true align))
  <= totalDifferences (compareRanges numberText rf rv cf cv (mkOptions true false align')).
Proof.
  rewrite !compareRanges_total. apply inj_le. apply filter_length_le.
  intros [r c]. unfold cellDiffers, areFormulasDifferent. simpl.
  intro H. apply negb_true_iff in H. apply negb_true_iff.
  apply str_eqb_neq. apply str_eqb_neq in H. congruence.
Qed.

Lemma str_eqb_sym (a b : str) : str_eqb a b = str_eqb b a.
Proof.
  destruct (str_eqb b a) eqn:E.
  - apply str_eqb_eq in E. subst. apply str_eqb_refl.
  - apply str_eqb_neq in E. apply str_eqb_neq. congruence.
Qed.

Lemma areFormulasDifferent_sym (f1 f2 : str) (ignore : bool) :
  areFormulasDifferent f1 f2 ignore = areFormulasDifferent f2 f1 ignore.
Proof.
  unfold areFormulasDifferent. destruct ignore; simpl; now rewrite str_eqb_sym.
Qed.

Lemma compareCell_swap rf rv cf cv options r c st :
  compareFormulas options = true ->
  compareCell numberText cf cv rf rv options r c (swapState st) =
  swapState (compareCell numberText rf rv cf cv options r c st).
Proof.
  intro Hmode. unfold compareCell. rewrite Hmode.
  rewrite (areFormulasDifferent_sym (formulaAt cf r c)).
  destruct (areFormulasDifferent _ _ _); [|reflexivity].
  unfold openBlock, swapState. destruct st as [done total [cur|]]; simpl.
  - change (isAdjacent (swapBlock cur) (Z.of_nat r) (Z.of_nat c))
      with (isAdjacent cur (Z.of_nat r) (Z.of_nat c)).
    destruct (isAdjacent cur (Z.of_nat r) (Z.of_nat c)); simpl;
      rewrite ?map_app; reflexivity.
  - reflexivity.
Qed.

(** [X12] In formula mode the comparison is symmetric: exchanging the
    reference and the comparator gives the same total and the same blocks,
    with the two sides of each block exchanged. *)
Theorem compareRanges_swap rf rv cf cv options :
  compareFormulas options = true ->
  compareRanges numberText cf cv rf rv options =
  swapResult (compareRanges numberText rf rv cf cv options).
Proof.
  intro Hmode. unfold compareRanges. cbv zeta.
  rewrite (Nat.max_comm (length cf) (length rf)).
  rewrite (Nat.max_comm (length (nth 0 cf [])) (length (nth 0 rf []))).
  set (rows := seq 0 (Nat.max (length rf) (length cf))).
  set (cols := seq 0 (Nat.max (length (nth 0 rf [])) (length (nth 0 cf [])))).
  assert (Hinner : forall r (l : list nat) st,
            fold_left (fun st' c => compareCell numberText cf cv rf rv options r c st')
                      l (swapState st) =
            swapState (fold_left (fun st' c =>
                         compareCell numberText rf rv cf cv options r c st') l st)).
  { intros r l. induction l as [|c l IH]; intro st; [reflexivity|].
    simpl. rewrite compareCell_swap by exact Hmode. apply IH. }
  assert (Houter : forall (l : list nat) st,
            fold_left (fun st r => fold_left (fun st' c =>
                         compareCell numberText cf cv rf rv options r c st') cols st)
                      l (swapState st) =
            swapState (fold_left (fun st r => fold_left (fun st' c =>
                         compareCell numberText rf rv cf cv options r c st') cols st)
                      l st)).
  { induction l as [|r l IH]; intro st; [reflexivity|].
    simpl. rewrite Hinner. apply IH. }
  rewrite (Houter rows (mkLoop [] 0 None) : fold_left _ rows (mkLoop [] 0 None) = _).
  match goal with |- context [swapState ?x] => destruct x as [done total [cur|]] end;
    unfold swapResult; simpl; rewrite ?map_app; reflexivity.
Qed.

Lemma fold_left_seq_invariant {A : Type} (P : nat -> A -> Prop) (f : A -> nat -> A) :
  forall (n start : nat) (a : A),
    P start a ->
    (forall i x, (start <= i < start + n)%nat -> P i x -> P (S i) (f x i)) ->
    P (start + n)%nat (fold_left f (seq start n) a).
Proof.
  induction n as [|n IH]; intros start a Ha Hstep.
  - rewrite Nat.add_0_r. exact Ha.
  - simpl. rewrite <- Nat.add_succ_comm. apply IH.
    + apply Hstep; [lia | exact Ha].
    + intros i x Hi. apply Hstep. lia.
Qed.

Lemma addressWithin_wider (b b' : DifferenceBlock) (address : str) :
  startRow b' = startRow b -> startCol b' = startCol b ->
  endRow b <= endRow b' -> endCol b <= endCol b' ->
  addressWithin b address -> addressWithin b' address.
Proof.
  intros H1 H2 H3 H4 (r & c & Ha & Hr & Hc).
  exists r, c. rewrite H1, H2. split; [exact Ha|]. lia.
Qed.

Lemma compareCell_geometry rf rv cf cv options (rows cols r c : nat) st :
  (r < rows)%nat -> (c < cols)%nat ->
  Forall (fun b => blockGood rows cols b /\ endRow b <= Z.of_nat r) (blocksOf st) ->
  Forall (fun b => blockGood rows cols b /\ endRow b <= Z.of_nat r)
         (blocksOf (compareCell numberText rf rv cf cv options r c st)).
Proof.
  intros Hr Hc Hst. unfold compareCell.
  match goal with |- context [if ?d then _ else st] => destruct d end; [|exact Hst].
  assert (Hfresh : forall cellR cellC,
            (fun b => blockGood rows cols b /\ endRow b <= Z.of_nat r)
              (mkBlock (Z.of_nat r) (Z.of_nat c)
                 (Z.max (Z.of_nat r) (Z.of_nat r)) (Z.max (Z.of_nat c) (Z.of_nat c))
                 ([] ++ [mkCellDifference
                           (ComparisonHelper.getAddress (Z.of_nat r) (Z.of_nat c))
                           (formulaAt rf r c) (valueAt rv r c) true])
                 ([] ++ [mkCellDifference cellR cellC (valueAt cv r c) true]))).
  { intros cellR cellC. unfold blockGood. simpl.
    split; [|lia]. repeat split; try lia; try discriminate.
    constructor; [|constructor].
    exists (Z.of_nat r), (Z.of_nat c). simpl. split; [reflexivity | lia]. }
  unfold openBlock, blocksOf in *.
  destruct (l_currentBlock st) as [cur|].
  - apply Forall_app in Hst. destruct Hst as [Hdone Hcur].
    inversion Hcur as [|? ? [Hgood Hend] _]; subst.
    destruct (isAdjacent cur (Z.of_nat r) (Z.of_nat c)) eqn:Hadj; simpl.
    + apply Forall_app. split; [exact Hdone|]. constructor; [|constructor].
      unfold isAdjacent in Hadj.
      apply andb_true_iff in Hadj. destruct Hadj as [Hadj H4].
      apply andb_true_iff in Hadj. destruct Hadj as [Hadj H3].
      apply andb_true_iff in Hadj. destruct Hadj as [H1 H2].
      rewrite Z.geb_leb in H1, H3. apply Z.leb_le in H1, H2, H3, H4.
      destruct Hgood as (G1 & G2 & G3 & G4 & G5 & G6).
      unfold blockGood. simpl. split; [|lia].
      split; [lia|]. split; [lia|]. split; [lia|]. split; [lia|].
      split; [destruct (referenceCells cur); discriminate|].
      rewrite map_app. apply Forall_app. split.
      * eapply Forall_impl; [|exact G6]. intros a Ha.
        apply (addressWithin_wider cur); simpl; try reflexivity; try lia. exact Ha.
      * constructor; [|constructor].
        exists (Z.of_nat r), (Z.of_nat c). simpl. split; [reflexivity | lia].
    + apply Forall_app. split.
      * apply Forall_app. split; [exact Hdone | constructor; [split; assumption | constructor]].
      * constructor; [apply Hfresh | constructor].
  - simpl. apply Forall_app. split.
    + rewrite List.app_nil_r in Hst. exact Hst.
    + constructor; [apply Hfresh | constructor].
Qed.

(** [X13] The rectangle of every reported block lies in the union grid, with
    its first row and column not after its last ones; the block holds at
    least one cell, and every cell of it lies between the first and the last
    row of the block and between the column before its first column and its
    last column (the first column of a block is that of its first cell and is
    never lowered afterwards). *)
Theorem compareRanges_geometry rf rv cf cv options :
  Forall (blockGood (unionRows rf cf) (unionCols rf cf))
         (differences (compareRanges numberText rf rv cf cv options)).
Proof.
  unfold compareRanges. cbv zeta. fold (unionRows rf cf). fold (unionCols rf cf).
  set (rows := unionRows rf cf). set (cols := unionCols rf cf).
  match goal with |- context [l_currentBlock ?x] => set (final := x) end.
  assert (Hfinal : Forall (fun b => blockGood rows cols b /\
                                     endRow b < Z.of_nat (0 + rows)) (blocksOf final)).
  { unfold final.
    apply (fold_left_seq_invariant
             (fun i st => Forall (fun b => blockGood rows cols b /\
                                           endRow b < Z.of_nat i) (blocksOf st))).
    - constructor.
    - intros i st Hi Hst.
      assert (Hin : Forall (fun b => blockGood rows cols b /\ endRow b <= Z.of_nat i)
                           (blocksOf st)).
      { eapply Forall_impl; [|exact Hst]. intros b [Hg He]. split; [exact Hg | lia]. }
      assert (Hrow : Forall (fun b => blockGood rows cols b /\ endRow b <= Z.of_nat i)
                (blocksOf (fold_left (fun st' c =>
                             compareCell numberText rf rv cf cv options i c st')
                           (seq 0 cols) st))).
      { apply (fold_left_seq_invariant
                 (fun _ st' => Forall (fun b => blockGood rows cols b /\
                                                endRow b <= Z.of_nat i) (blocksOf st'))
                 (fun st' c => compareCell numberText rf rv cf cv options i c st')
                 cols 0 st Hin).
        intros c st' Hc Hst'. apply compareCell_geometry; [lia | lia | exact Hst']. }
      eapply Forall_impl; [|exact Hrow]. intros b [Hg He]. split; [exact Hg | lia]. }
  cbn [differences].
  assert (Hb : match l_currentBlock final with
               | Some cur => l_differences final ++ [cur]
               | None => l_differences final
               end = blocksOf final).
  { unfold blocksOf. destruct (l_currentBlock final);
      [reflexivity | now rewrite List.app_nil_r]. }
  rewrite Hb. eapply Forall_impl; [|exact Hfinal]. intros b [Hg _]. exact Hg.
Qed.

End Blocks.

Lemma compareRanges_swap_witness :
  compareRanges (fun _ => []) [[s "=A1"]] [] [[s "=A2"]] [] (mkOptions true false false) =
  swapResult (compareRanges (fun _ => []) [[s "=A2"]] [] [[s "=A1"]] []
                (mkOptions true false false)).
Proof. apply compareRanges_swap. reflexivity. Defined.


(** ** The annotation of the branches of IF and IFS *)

Lemma setChildActive_at (before : list FormulaNode) (c : FormulaNode)
    (rest : list FormulaNode) (flag : bool) :
  setChildActive (length before) flag (before ++ c :: rest) =
  Some (before ++ setActive flag c :: rest).
Proof.
  induction before as [|b before IH]; simpl.
  - destruct c; reflexivity.
  - destruct b. rewrite IH. reflexivity.
Qed.

(** [X14] The IF case, with at least two argument values: the second child
    is marked active exactly when the condition is truthy and the third
    child, when there is one, exactly when it is not, so one of the two
    branches is active and the other is not; the other children are left as
    they are. With fewer than two children the assignment throws. *)
Theorem evaluateLogicalBranch_IF_branches (args : list JSValue)
    (t : NodeType) (v : str) (kids : list FormulaNode)
    (a : option str) (act : option bool) :
  (2 <= length args)%nat ->
  let flag := truthy (nth 0 args JUndefined) in
  evaluateLogicalBranch_IF args (mkNode t v (Some kids) a act) =
  match kids with
  | c :: thenBranch :: elseBranch :: rest =>
      Some (mkNode t v
              (Some (c :: setActive flag thenBranch
                       :: setActive (negb flag) elseBranch :: rest)) a act)
  | [c; thenBranch] =>
      Some (mkNode t v (Some [c; setActive flag thenBranch]) a act)
  | _ => None
  end.
Proof.
  intros Hargs flag. unfold evaluateLogicalBranch_IF.
  replace (2 <=? length args)%nat with true by (symmetry; apply Nat.leb_le; exact Hargs).
  fold flag.
  destruct kids as [|c [|thenBranch [|elseBranch rest]]]; try reflexivity.
  - destruct c; reflexivity.
  - destruct c, thenBranch; reflexivity.
  - destruct c, thenBranch, elseBranch; reflexivity.
Qed.

Lemma evaluateLogicalBranch_IF_branches_witness :
  evaluateLogicalBranch_IF [JNum 0; JStr (s "a"); JStr (s "b")]
    (functionNode (s "IF") [referenceNode (s "A1"); literalNode (s "1"); literalNode (s "2")])
  = Some (mkNode TFunction (s "IF")
            (Some [referenceNode (s "A1");
                   setActive false (literalNode (s "1"));
                   setActive true (literalNode (s "2"))]) None None).
Proof.
  apply (evaluateLogicalBranch_IF_branches [JNum 0; JStr (s "a"); JStr (s "b")]
           TFunction (s "IF")
           [referenceNode (s "A1"); literalNode (s "1"); literalNode (s "2")] None None).
  simpl. lia.
Defined.

Lemma ifsLoop_none (args : list JSValue) (kids : list FormulaNode) :
  forall (turns i : nat),
    (forall m, (i + 2 * m < length kids)%nat ->
               truthy (nth (i + 2 * m) args JUndefined) = false) ->
    ifsLoop turns i args kids = Some kids.
Proof.
  induction turns as [|turns IH]; intros i H; [reflexivity|].
  simpl. destruct (i <? length kids)%nat eqn:Hi; [|reflexivity].
  apply Nat.ltb_lt in Hi.
  rewrite (fun Hlt => eq_trans (f_equal (fun j => truthy (nth j args JUndefined))
                                        (eq_sym (Nat.add_0_r i)))
                               (H 0%nat Hlt)) by (simpl; lia).
  apply IH. intros m Hm.
  replace (S (S i) + 2 * m)%nat with (i + 2 * (S m))%nat in * by lia.
  apply H. exact Hm.
Qed.

Lemma ifsLoop_first (args : list JSValue) (before : list FormulaNode)
    (hit : list FormulaNode) :
  forall (k turns i : nat),
    (k < turns)%nat -> hit <> [] ->
    length before = (i + 2 * k)%nat ->
    (forall m, (m < k)%nat -> truthy (nth (i + 2 * m) args JUndefined) = false) ->
    truthy (nth (i + 2 * k) args JUndefined) = true ->
    ifsLoop turns i args (before ++ hit) = Some (before ++ activatePair hit).
Proof.
  induction k as [|k IH]; intros turns i Hturns Hhit Hlen Hfalse Htrue.
  - destruct turns as [|turns]; [lia|].
    destruct hit as [|c rest]; [congruence|].
    rewrite Nat.mul_0_r, Nat.add_0_r in *.
    cbn [ifsLoop].
    replace (i <? length (before ++ c :: rest))%nat with true
      by (symmetry; apply Nat.ltb_lt; rewrite length_app; simpl; lia).
    rewrite Htrue, <- Hlen, setChildActive_at.
    destruct rest as [|r rest].
    + rewrite (proj2 (nth_error_None _ _)); [reflexivity|].
      rewrite length_app. simpl. lia.
    + replace (nth_error (before ++ setActive true c :: r :: rest) (S (length before)))
        with (Some r).
      * replace (before ++ setActive true c :: r :: rest)
          with ((before ++ [setActive true c]) ++ r :: rest)
          by (rewrite <- app_assoc; reflexivity).
        replace (S (length before)) with (length (before ++ [setActive true c]))
          by (rewrite length_app; simpl; lia).
        rewrite setChildActive_at, <- app_assoc. reflexivity.
      * symmetry. rewrite nth_error_app2 by lia.
        replace (S (length before) - length before)%nat with 1%nat by lia.
        reflexivity.
  - destruct turns as [|turns]; [lia|].
    cbn [ifsLoop].
    replace (i <? length (before ++ hit))%nat with true
      by (symmetry; apply Nat.ltb_lt; rewrite length_app; lia).
    pose proof (Hfalse 0%nat ltac:(lia)) as H0.
    rewrite Nat.mul_0_r, Nat.add_0_r in H0. rewrite H0.
    apply IH; [lia | exact Hhit | lia | | ].
    + intros m Hm. replace (S (S i) + 2 * m)%nat with (i + 2 * S m)%nat by lia.
      apply Hfalse. lia.
    + replace (S (S i) + 2 * k)%nat with (i + 2 * S k)%nat by lia. exact Htrue.
Qed.

(** [X15] The IFS case marks the first pair whose condition is truthy and
    nothing else: when the argument values at the even indices 0, 2, ...,
    2k-2 are falsy and the one at 2k is truthy, the children 2k and 2k+1 (the
    latter when there is one) are marked active and the others are left as
    they are. *)
Theorem evaluateLogicalBranch_IFS_first (args : list JSValue)
    (t : NodeType) (v : str) (before hit : list FormulaNode)
    (a : option str) (act : option bool) (k : nat) :
  length before = (2 * k)%nat -> hit <> [] ->
  (forall m, (m < k)%nat -> truthy (nth (2 * m) args JUndefined) = false) ->
  truthy (nth (2 * k) args JUndefined) = true ->
  evaluateLogicalBranch_IFS args (mkNode t v (Some (before ++ hit)) a act) =
  Some (mkNode t v (Some (before ++ activatePair hit)) a act).
Proof.
  intros Hlen Hhit Hfalse Htrue. unfold evaluateLogicalBranch_IFS.
  rewrite (ifsLoop_first args before hit k (length (before ++ hit)) 0);
    [reflexivity | | exact Hhit | exact Hlen | exact Hfalse | exact Htrue].
  rewrite length_app. destruct hit; [congruence | simpl; lia].
Qed.

Lemma evaluateLogicalBranch_IFS_first_witness :
  evaluateLogicalBranch_IFS [JBool false; JNum 1; JBool true; JNum 2]
    (functionNode (s "IFS")
       [referenceNode (s "A1"); literalNode (s "1");
        referenceNode (s "B1"); literalNode (s "2")])
  = Some (functionNode (s "IFS")
            [referenceNode (s "A1"); literalNode (s "1");
             setActive true (referenceNode (s "B1"));
             setActive true (literalNode (s "2"))]).
Proof.
  apply (evaluateLogicalBranch_IFS_first [JBool false; JNum 1; JBool true; JNum 2]
           TFunction (s "IFS")
           [referenceNode (s "A1"); literalNode (s "1")]
           [referenceNode (s "B1"); literalNode (s "2")] None None 1).
  - reflexivity.
  - discriminate.
  - intros m Hm. assert (m = 0%nat) by lia. subst m. reflexivity.
  - reflexivity.
Defined.

(** [X16] When no argument value at an even index below the number of
    children is truthy, the IFS case leaves the node as it is; the IFS case
    never throws. *)
Theorem evaluateLogicalBranch_IFS_none (args : list JSValue) (node : FormulaNode) :
  (forall kids m, children node = Some kids -> (2 * m < length kids)%nat ->
                  truthy (nth (2 * m) args JUndefined) = false) ->
  evaluateLogicalBranch_IFS args node = Some node.
Proof.
  intro H. destruct node as [t v [kids|] a act]; [|reflexivity].
  unfold evaluateLogicalBranch_IFS.
  rewrite ifsLoop_none; [reflexivity|].
  intros m Hm. apply (H kids m eq_refl Hm).
Qed.

Lemma evaluateLogicalBranch_IFS_none_witness :
  evaluateLogicalBranch_IFS [JBool false; JNum 1]
    (functionNode (s "IFS") [referenceNode (s "A1"); literalNode (s "1")])
  = Some (functionNode (s "IFS") [referenceNode (s "A1"); literalNode (s "1")]).
Proof.
  apply evaluateLogicalBranch_IFS_none.
  intros kids m Hk Hm. simpl in Hk. inversion Hk; subst. simpl in Hm.
  assert (m = 0%nat) by lia. subst m. reflexivity.
Defined.

(** ** The alignment of rows *)

Lemma alignmentLoop_longer (rf cf : list (list str)) (l : list nat) :
  (length rf < length cf)%nat ->
  forall acc,
    fold_left (alignmentStep rf cf) l acc =
    acc ++ map Z.of_nat (filter (rowsDiffer rf cf) l).
Proof.
  intro Hlen. induction l as [|i l IH]; intro acc; simpl.
  - now rewrite List.app_nil_r.
  - rewrite IH. unfold alignmentStep. fold (rowsDiffer rf cf i).
    replace (length rf <? length cf)%nat with true
      by (symmetry; apply Nat.ltb_lt; exact Hlen).
    destruct (rowsDiffer rf cf i); simpl; [now rewrite <- app_assoc | reflexivity].
Qed.

Lemma alignmentLoop_not_longer (rf cf : list (list str)) (l : list nat) :
  (length cf <= length rf)%nat ->
  forall acc, fold_left (alignmentStep rf cf) l acc = acc.
Proof.
  intro Hlen. induction l as [|i l IH]; intro acc; simpl; [reflexivity|].
  rewrite IH. unfold alignmentStep.
  replace (length rf <? length cf)%nat with false
    by (symmetry; apply Nat.ltb_ge; exact Hlen).
  now destruct (match nth_error rf i with Some _ => _ | None => _ end).
Qed.

(** [X17] When the comparator has no more rows than the reference, no row
    is reported as inserted (and no column ever is): rows deleted from the
    comparator are not detected. *)
Theorem detectAlignmentIssues_not_longer (rf cf : list (list str)) :
  (length cf <= length rf)%nat ->
  detectAlignmentIssues rf cf = ([], []).
Proof.
  intro Hlen. unfold detectAlignmentIssues.
  destruct (negb (length rf =? length cf)%nat); [|reflexivity].
  now rewrite alignmentLoop_not_longer.
Qed.

Lemma detectAlignmentIssues_not_longer_witness :
  detectAlignmentIssues [[s "=A1"]; [s "=A2"]] [[s "=B7"]] = ([], []).
Proof. apply detectAlignmentIssues_not_longer. simpl. lia. Defined.

(** [X18] When the comparator has more rows than the reference, the rows
    reported as inserted are indices of comparator rows, each at most once,
    and every row index beyond the reference grid is among them; no column
    is reported. *)
Theorem detectAlignmentIssues_longer (rf cf : list (list str)) :
  (length rf < length cf)%nat ->
  let result := detectAlignmentIssues rf cf in
  snd result = [] /\
  (forall i, (length rf <= i < length cf)%nat -> In (Z.of_nat i) (fst result)) /\
  (forall z, In z (fst result) -> 0 <= z < Z.of_nat (length cf)) /\
  NoDup (fst result).
Proof.
  intros Hlen result. unfold result, detectAlignmentIssues.
  replace (length rf =? length cf)%nat with false
    by (symmetry; apply Nat.eqb_neq; lia).
  cbn [negb fst snd]. rewrite alignmentLoop_longer by exact Hlen.
  rewrite Nat.max_r by lia. cbn [app].
  split; [reflexivity|]. split; [|split].
  - intros i Hi. apply in_map. apply filter_In. split.
    + apply in_seq. lia.
    + unfold rowsDiffer.
      rewrite (proj2 (nth_error_None rf i)) by lia. reflexivity.
  - intros z Hz. apply in_map_iff in Hz. destruct Hz as (i & <- & Hi).
    apply filter_In in Hi. destruct Hi as [Hi _]. apply in_seq in Hi. lia.
  - apply Finite.Injective_map_NoDup.
    + intros x y Hxy. lia.
    + apply NoDup_filter. apply seq_NoDup.
Qed.

Lemma detectAlignmentIssues_longer_witness :
  In 1 (fst (detectAlignmentIssues [[s "=A1"]] [[s "=A1"]; [s "=A2"]])).
Proof.
  assert (Hlen : (length [[s "=A1"]] < length [[s "=A1"]; [s "=A2"]])%nat)
    by (simpl; lia).
  destruct (detectAlignmentIssues_longer [[s "=A1"]] [[s "=A1"]; [s "=A2"]] Hlen)
    as (_ & Hin & _).
  apply (Hin 1%nat). simpl. lia.
Defined.

(** ** The trees of the parser *)

Lemma mapParse_Forall (P : FormulaNode -> Prop) (parse : str -> option FormulaNode)
    (args : list str) :
  (forall a n, parse a = Some n -> P n) ->
  forall ns, mapParse parse args = Some ns -> Forall P ns.
Proof.
  intro H. induction args as [|a args IH]; intros ns Hns; simpl in Hns.
  - inversion Hns. constructor.
  - destruct (parse a) as [n|] eqn:Ea; [|discriminate Hns].
    destruct (mapParse parse args) as [ns'|]; [|discriminate Hns].
    inversion Hns; subst. constructor; [apply (H a n Ea) | apply IH; reflexivity].
Qed.

Lemma findFirstOperator_In (ops : list str) (expr op : str) (index : nat) :
  findFirstOperator ops expr = Some (op, index) -> In op ops.
Proof.
  induction ops as [|o ops IH]; simpl; [discriminate|].
  destruct (scanOperator o (rev expr) 0 false "000"%char).
  - intro H. inversion H; subst. now left.
  - intro H. right. now apply IH.
Qed.

Lemma parseExpression_wellFormed (fuel : nat) :
  forall (expr : str) (node : FormulaNode),
    parseExpression fuel expr = Some node -> wellFormedNode node = true.
Proof.
  induction fuel as [|fuel IH]; intros expr0 node H; [discriminate H|].
  cbn [parseExpression] in H. cbv zeta in H.
  set (expr := trim expr0) in *.
  destruct (regexMatch reFunctionHead expr) as [m|] eqn:Ehead.
  - unfold parseFunction in H. rewrite Ehead in H.
    match type of H with
    | match mapParse ?f ?args with _ => _ end = _ =>
        destruct (mapParse f args) as [kids|] eqn:Ekids; [|discriminate H]
    end.
    inversion H; subst. simpl.
    apply forallb_forall. apply Forall_forall.
    apply (mapParse_Forall (fun n => wellFormedNode n = true) _ _ IH _ Ekids).
  - destruct (isCellReference expr) eqn:Eref.
    + inversion H; subst. simpl. rewrite str_eqb_refl, Eref. reflexivity.
    + destruct (isLiteral expr); [inversion H; reflexivity|].
      destruct (findTopLevelOperator expr) as [[operator index]|] eqn:Eop;
        [|inversion H; reflexivity].
      destruct (parseExpression fuel (substring 0 index expr)) as [l|] eqn:El;
        [|discriminate H].
      destruct (parseExpression fuel (substringFrom (index + length operator) expr))
        as [r|] eqn:Er; [|discriminate H].
      inversion H; subst. cbn [wellFormedNode operatorNode].
      rewrite (IH _ _ El), (IH _ _ Er), !andb_true_r.
      apply existsb_exists. exists operator. split; [|apply str_eqb_refl].
      apply (findFirstOperator_In _ _ _ _ Eop).
Qed.

(** [X19] [parse] returns, for every text, a tree of the shape
    [wellFormedNode]: operator nodes carry one of the twelve operator symbols
    and exactly two children, reference nodes carry their own text as address
    and a text that [isCellReference] accepts, literal nodes are leaves, and
    no node is of type array or has [isActive] set. *)
Theorem parse_wellFormed (formula : str) :
  exists node, parse formula = Some node /\ wellFormedNode node = true.
Proof.
  destruct (parse_total formula) as [node Hnode].
  exists node. split; [exact Hnode|].
  unfold parse in Hnode. destruct formula as [|c formula]; [inversion Hnode; reflexivity|].
  destruct (negb (startsWith (s "=") (c :: formula))); [inversion Hnode; reflexivity|].
  apply (parseExpression_wellFormed _ _ _ Hnode).
Qed.

(** ** The dependents of the graph *)

Lemma mapGet_None_keys (m : DepMap) (k : str) :
  mapGet k m = None <-> ~ In k (keys m).
Proof.
  induction m as [|[k' v] m IH]; simpl.
  - split; [intros _ [] | reflexivity].
  - destruct (str_eqb k' k) eqn:E.
    + apply str_eqb_eq in E. split; [discriminate | intro H; exfalso; apply H; now left].
    + apply str_eqb_neq in E. rewrite IH. split.
      * intros H [Hk|Hk]; [congruence | now apply H].
      * intros H Hk. apply H. now right.
Qed.

Lemma keys_mapSet_present (k : str) (v : DepInfo) (m : DepMap) :
  mapGet k m <> None -> keys (mapSet k v m) = keys m.
Proof.
  induction m as [|[k' v'] m IH]; simpl; [congruence|].
  destruct (str_eqb k' k) eqn:E; intro H; simpl.
  - apply str_eqb_eq in E. now subst.
  - now rewrite IH.
Qed.

Lemma NoDup_keys_mapSet (k : str) (v : DepInfo) (m : DepMap) :
  NoDup (keys m) -> NoDup (keys (mapSet k v m)).
Proof.
  intro H. destruct (mapGet k m) as [v0|] eqn:E.
  - rewrite keys_mapSet_present by congruence. exact H.
  - rewrite mapSet_absent by exact E. unfold keys. rewrite map_app. simpl.
    apply NoDup_app; [exact H | constructor; [intros [] | constructor] |].
    intros x Hx [Hk|[]]. subst x. now apply (mapGet_None_keys m k).
Qed.

Lemma Forall_mapSet (P : str * DepInfo -> Prop) (k : str) (v : DepInfo) (m : DepMap) :
  Forall P m -> P (k, v) -> Forall P (mapSet k v m).
Proof.
  intros Hm Hv. induction Hm as [|[k' v'] m He Hm IH]; simpl.
  - constructor; [exact Hv | constructor].
  - destruct (str_eqb k' k); constructor; assumption.
Qed.

(** What the first pass builds: distinct keys, and entries without
    dependents whose formula begins with the equals sign. *)
Lemma firstPass_scanned (host : Host) (scope : AnalysisScope) (scanned : DepMap) :
  firstPass host scope = Some scanned ->
  NoDup (keys scanned) /\ Forall scannedEntry scanned.
Proof.
  set (R := fun m : DepMap => NoDup (keys m) /\ Forall scannedEntry m).
  assert (Hcell : forall sheet base r c cell m, R m -> R (scanCell sheet base r c cell m)).
  { intros sheet base r c cell m [Hk Hf]. unfold scanCell.
    destruct cell as [[|ch f]|]; try (split; assumption).
    destruct (startsWith (s "=") (ch :: f)) eqn:E; [|split; assumption].
    split; [now apply NoDup_keys_mapSet|].
    apply Forall_mapSet; [exact Hf|]. split; [reflexivity|]. split; [exact E|].
    exists sheet, (row base + Z.of_nat r), (col base + Z.of_nat c).
    split; reflexivity. }
  assert (Hrange : forall sheet base formulas m, R m -> R (scanRange sheet base formulas m)).
  { intros sheet base formulas m Hm. unfold scanRange.
    apply fold_left_invariant; [exact Hm|].
    intros m1 r Hm1. apply fold_left_invariant; [exact Hm1|].
    intros m2 c Hm2. now apply Hcell. }
  assert (Hsheets : forall sheets m m', R m ->
            scanSheets host scope sheets m = Some m' -> R m').
  { induction sheets as [|sheet sheets IH]; intros m m' Hm H; simpl in H.
    - inversion H; subst. exact Hm.
    - destruct (scanSheet host scope sheet m) as [m1|] eqn:E; [|discriminate H].
      apply (IH m1 m'); [|exact H].
      unfold scanSheet in E.
      destruct (loadRange host sheet _) as [range|]; [|discriminate E].
      destruct (baseCoordsOf (rd_address range)) as [base|]; [|discriminate E].
      inversion E; subst. now apply Hrange. }
  unfold firstPass. destruct (sheetsOf host scope) as [sheets|]; [|discriminate].
  apply Hsheets. split; constructor.
Qed.

Lemma exactDependents_ext (b b' : str -> list str) (m : DepMap) :
  (forall y, b y = b' y) -> exactDependents b m -> exactDependents b' m.
Proof.
  intros H (Hk & Hs & Hn). split; [exact Hk|]. split.
  - intros y iy Hy. rewrite <- H. now apply Hs.
  - intros y Hy. rewrite <- H. now apply Hn.
Qed.

Lemma mentions_one (address p y : str) :
  mentions address [p] y = if str_eqb y p then [address] else [].
Proof. unfold mentions. simpl. now destruct (str_eqb y p). Qed.

Lemma mentions_cons (address p : str) (precs : list str) (y : str) :
  mentions address (p :: precs) y = mentions address [p] y ++ mentions address precs y.
Proof. unfold mentions. simpl. now destruct (str_eqb y p). Qed.

Lemma addDependent_exact (address p : str) (b : str -> list str) (m : DepMap) :
  exactDependents b m ->
  exactDependents (fun y => b y ++ mentions address [p] y) (addDependent address m p).
Proof.
  intros (Hk & Hs & Hn). unfold addDependent.
  set (info := match mapGet p m with
               | Some ip => mkInfo (precedents ip) (dependents ip ++ [address]) (formula ip)
               | None => mkInfo [] [address] []
               end).
  assert (Hm' : (match mapGet p m with
                 | Some ip => mapSet p (mkInfo (precedents ip) (dependents ip ++ [address])
                                               (formula ip)) m
                 | None => mapSet p (mkInfo [] [address] []) m
                 end) = mapSet p info m).
  { unfold info. now destruct (mapGet p m). }
  rewrite Hm'. clear Hm'.
  assert (Hinfo : dependents info = b p ++ [address]).
  { unfold info. destruct (mapGet p m) as [ip|] eqn:E; simpl.
    - now rewrite (Hs p ip E).
    - now rewrite (Hn p E). }
  split; [now apply NoDup_keys_mapSet|]. split.
  - intros y iy Hy. rewrite mentions_one.
    destruct (str_dec y p) as [->|Hne].
    + rewrite mapGet_mapSet_same in Hy. inversion Hy; subst.
      now rewrite str_eqb_refl.
    + rewrite mapGet_mapSet_other in Hy by exact Hne.
      rewrite (proj2 (str_eqb_neq y p) Hne), List.app_nil_r. now apply Hs.
  - intros y Hy. rewrite mentions_one.
    destruct (str_dec y p) as [->|Hne].
    + rewrite mapGet_mapSet_same in Hy. discriminate Hy.
    + rewrite mapGet_mapSet_other in Hy by exact Hne.
      rewrite (proj2 (str_eqb_neq y p) Hne), List.app_nil_r. now apply Hn.
Qed.

Lemma fold_addDependent_exact (address : str) (precs : list str) :
  forall (b : str -> list str) (m : DepMap),
    exactDependents b m ->
    exactDependents (fun y => b y ++ mentions address precs y)
                    (fold_left (addDependent address) precs m).
Proof.
  induction precs as [|p precs IH]; intros b m H; simpl.
  - apply (exactDependents_ext b); [|exact H].
    intro y. unfold mentions. simpl. now rewrite List.app_nil_r.
  - apply (exactDependents_ext
             (fun y => (b y ++ mentions address [p] y) ++ mentions address precs y)).
    + intro y. now rewrite (mentions_cons address p precs), app_assoc.
    + apply IH. now apply addDependent_exact.
Qed.

Lemma referrers_shape (m : DepMap) (y : str) : referrers m y = referrersOf (shape m) y.
Proof.
  unfold referrers, referrersOf, shape. induction m as [|e m IH]; [reflexivity|].
  simpl. now rewrite IH.
Qed.

Lemma firstn_nth_error {A : Type} (l : list A) (i : nat) (x : A) :
  nth_error l i = Some x -> firstn (S i) l = firstn i l ++ [x].
Proof.
  revert i. induction l as [|a l IH]; intros [|i] H; try discriminate H.
  - inversion H. reflexivity.
  - simpl in H.
    change (firstn (S (S i)) (a :: l)) with (a :: firstn (S i) l).
    rewrite (IH i H). reflexivity.
Qed.

Lemma referrers_next (m m' : DepMap) (extra : list (str * (list str * str)))
    (i : nat) (address : str) (info : DepInfo) (y : str) :
  shape m' = shape m ++ extra ->
  nth_error m i = Some (address, info) ->
  referrers (firstn (S i) m') y =
  referrers (firstn i m) y ++ mentions address (precedents info) y.
Proof.
  intros Hs Hi. rewrite !referrers_shape.
  assert (Hf : forall k (x : DepMap), shape (firstn k x) = firstn k (shape x))
    by (intros k x; unfold shape; symmetry; apply firstn_map).
  rewrite !Hf, Hs.
  assert (Hlen : (i < length (shape m))%nat).
  { unfold shape. rewrite length_map. apply nth_error_Some. congruence. }
  rewrite firstn_app.
  replace (S i - length (shape m))%nat with 0%nat by lia.
  rewrite firstn_O, List.app_nil_r.
  rewrite (firstn_nth_error (shape m) i (address, (precedents info, formula info))).
  - unfold referrersOf. rewrite flat_map_app. simpl. now rewrite List.app_nil_r.
  - unfold shape. now rewrite (map_nth_error _ _ _ Hi).
Qed.

Lemma reverseLoop_exact (fuel : nat) :
  forall (i : nat) (m g : DepMap),
    reverseLoop fuel i m = Some g ->
    exactDependents (referrers (firstn i m)) m ->
    exactDependents (referrers g) g.
Proof.
  induction fuel as [|fuel IH]; intros i m g H Hm.
  - simpl in H. destruct (nth_error m i) as [[address info]|] eqn:E; [discriminate H|].
    inversion H; subst. apply nth_error_None in E.
    now rewrite firstn_all2 in Hm by exact E.
  - cbn [reverseLoop] in H.
    destruct (nth_error m i) as [[address info]|] eqn:E.
    + apply (IH _ _ _ H).
      destruct (fold_addDependent address (precedents info) m) as ((extra & Hs & _) & _).
      apply (exactDependents_ext
               (fun y => referrers (firstn i m) y ++ mentions address (precedents info) y)).
      * intro y. symmetry. apply (referrers_next m _ extra i address info y Hs E).
      * now apply fold_addDependent_exact.
    + inversion H; subst. apply nth_error_None in E.
      now rewrite firstn_all2 in Hm by exact E.
Qed.

Lemma referrersOf_leaves (extra : list (str * (list str * str))) (y : str) :
  Forall leaf extra -> referrersOf extra y = [].
Proof.
  induction 1 as [|[k [precs f]] extra He Hx IH]; [reflexivity|].
  unfold leaf in He. simpl in He. inversion He; subst.
  unfold referrersOf in *. simpl. exact IH.
Qed.

(** [X20] The dependents of the graph are exact: the keys of the returned
    graph are distinct, and the dependents of every entry [y] are the scanned
    cells whose formula refers to [y], in the order of the scan, one for each
    occurrence of the reference, and nothing else. *)
Theorem buildDependencyGraph_dependents (host : Host) (scope : AnalysisScope)
    (scanned : DepMap) :
  firstPass host scope = Some scanned ->
  exists g,
    buildDependencyGraph host scope = Some g /\
    NoDup (keys g) /\
    (forall y iy, mapGet y g = Some iy -> dependents iy = referrers scanned y).
Proof.
  intro Hfirst. unfold buildDependencyGraph. rewrite Hfirst.
  destruct (secondPass_returns scanned) as (g & Hg). exists g.
  split; [exact Hg|].
  destruct (firstPass_scanned host scope scanned Hfirst) as (Hk & Hf).
  assert (H0 : exactDependents (referrers (firstn 0 scanned)) scanned).
  { split; [exact Hk|]. split; [|reflexivity].
    intros y iy Hy. apply mapGet_In in Hy.
    rewrite Forall_forall in Hf. destruct (Hf _ Hy) as [Hd _]. exact Hd. }
  destruct (reverseLoop_exact _ _ _ _ Hg H0) as (Hkg & Hs & _).
  split; [exact Hkg|].
  assert (Hv0 : visited 0 scanned) by (intros j x info Hj; lia).
  destruct (reverseLoop_result _ _ _ _ Hg Hv0) as (_ & (extra & Hsh & Hleaf) & _).
  intros y iy Hy. rewrite (Hs y iy Hy), !referrers_shape, Hsh.
  unfold referrersOf. rewrite flat_map_app.
  fold (referrersOf extra y). rewrite (referrersOf_leaves extra y Hleaf).
  apply List.app_nil_r.
Qed.

Lemma buildDependencyGraph_dependents_witness :
  exists g,
    buildDependencyGraph dataHost dataScope = Some g /\
    NoDup (keys g) /\
    (forall y iy, mapGet y g = Some iy ->
       dependents iy =
       referrers [ (s "Data!A1", mkInfo [s "Data!B1"; s "Data!B1"] [] (s "=B1+B1"));
                   (s "Data!A2", mkInfo [s "Data!A1"] [] (s "=A1"));
                   (s "Data!B2", mkInfo [s "Other!C3"; s "Data!A1"] [] (s "=Other!C3*A1")) ]
                 y).
Proof.
  apply (buildDependencyGraph_dependents dataHost dataScope).
  vm_compute. reflexivity.
Defined.

(** ** The focus view *)

Lemma filterThrow_tests (f : str -> option bool) (l r : list str) :
  filterThrow f l = Some r ->
  r = filter (fun x => match f x with Some true => true | _ => false end) l.
Proof.
  revert r. induction l as [|x l IH]; intros r H; simpl in H.
  - now inversion H.
  - destruct (f x) as [b|] eqn:Ex; [|discriminate H].
    destruct (filterThrow f l) as [r'|]; [|discriminate H].
    inversion H; subst. simpl. rewrite Ex, (IH r' eq_refl).
    now destruct b.
Qed.

Lemma filter_nil_existsb {A : Type} (g : A -> bool) (l : list A) :
  existsb g l = match filter g l with [] => false | _ :: _ => true end.
Proof.
  induction l as [|x l IH]; [reflexivity|]. simpl.
  destruct (g x); [reflexivity | exact IH].
Qed.

Lemma focusEntry_spec (focus : FocusArea) (scope : AnalysisScope)
    (b b' : FocusBuckets) (e : str * DepInfo) :
  focusEntry focus scope b e = Some b' ->
  f_inflows b' = f_inflows b ++ (if inflowEntry focus scope e then [fst e] else []) /\
  f_outflows b' = f_outflows b ++ (if outflowEntry focus scope e then [fst e] else []) /\
  f_outsidePrecedents b' =
    f_outsidePrecedents b ++
    (if insideFormula focus e
     then filter (outsideTest focus scope) (precedents (snd e)) else []) /\
  f_outsideDependents b' =
    f_outsideDependents b ++
    (if insideFormula focus e
     then filter (outsideTest focus scope) (dependents (snd e)) else []).
Proof.
  destruct e as [address info]. unfold focusEntry, inflowEntry, outflowEntry,
    insideFormula, formulaBearing, focusTest. cbn [fst snd].
  destruct (formula info) as [|ch f].
  { intro H. inversion H; subst. simpl. rewrite !List.app_nil_r. repeat split. }
  destruct (isInFocusArea address focus) as [[|]|]; [| |discriminate].
  2:{ intro H. inversion H; subst. simpl. rewrite !List.app_nil_r. repeat split. }
  destruct (filterThrow (outsideFocus focus scope) (precedents info)) as [op|] eqn:Ep;
    [|discriminate].
  destruct (filterThrow (outsideFocus focus scope) (dependents info)) as [od|] eqn:Ed;
    [|discriminate].
  apply filterThrow_tests in Ep, Ed. fold (outsideTest focus scope) in Ep, Ed.
  intro H. inversion H; subst b'. clear H.
  rewrite !filter_nil_existsb, <- Ep, <- Ed. cbn [andb].
  destruct op as [|p op], od as [|d od]; simpl; rewrite ?List.app_nil_r; repeat split.
Qed.

Lemma focusLoop_spec (focus : FocusArea) (scope : AnalysisScope) (entries : DepMap) :
  forall b b',
    focusLoop focus scope entries b = Some b' ->
    f_inflows b' = f_inflows b ++ map fst (filter (inflowEntry focus scope) entries) /\
    f_outflows b' = f_outflows b ++ map fst (filter (outflowEntry focus scope) entries) /\
    f_outsidePrecedents b' =
      f_outsidePrecedents b ++
      flat_map (fun e => filter (outsideTest focus scope) (precedents (snd e)))
               (filter (insideFormula focus) entries) /\
    f_outsideDependents b' =
      f_outsideDependents b ++
      flat_map (fun e => filter (outsideTest focus scope) (dependents (snd e)))
               (filter (insideFormula focus) entries).
Proof.
  induction entries as [|e entries IH]; intros b b' H; simpl in H.
  - inversion H; subst. simpl. rewrite !List.app_nil_r. repeat split.
  - destruct (focusEntry focus scope b e) as [b1|] eqn:E; [|discriminate H].
    destruct (focusEntry_spec _ _ _ _ _ E) as (E1 & E2 & E3 & E4).
    destruct (IH _ _ H) as (H1 & H2 & H3 & H4).
    rewrite H1, H2, H3, H4, E1, E2, E3, E4. cbn [filter].
    destruct (inflowEntry focus scope e), (outflowEntry focus scope e),
      (insideFormula focus e); cbn [map flat_map];
      rewrite <- ?app_assoc, ?List.app_nil_r; repeat split.
Qed.

Lemma uniq_loop (l : list str) :
  forall seen,
    NoDup seen ->
    let r := fold_left (fun seen x => if existsb (str_eqb x) seen then seen
                                      else seen ++ [x]) l seen in
    NoDup r /\ forall x, In x r <-> In x seen \/ In x l.
Proof.
  induction l as [|a l IH]; intros seen Hseen; simpl.
  - split; [exact Hseen | intro x; tauto].
  - destruct (existsb (str_eqb a) seen) eqn:E.
    + destruct (IH seen Hseen) as [Hn Hin]. split; [exact Hn|].
      intro x. rewrite (Hin x). apply existsb_exists in E.
      destruct E as (y & Hy & Heq). apply str_eqb_eq in Heq. subst y.
      split; [tauto|]. intros [H|[H|H]]; subst; tauto.
    + assert (Hnot : ~ In a seen).
      { intro Ha. assert (existsb (str_eqb a) seen = true); [|congruence].
        apply existsb_exists. exists a. split; [exact Ha | apply str_eqb_refl]. }
      assert (Hseen' : NoDup (seen ++ [a])).
      { apply NoDup_app; [exact Hseen | constructor; [intros [] | constructor] |].
        intros x Hx [Hxa|[]]. subst x. exact (Hnot Hx). }
      destruct (IH (seen ++ [a]) Hseen') as [Hn Hin]. split; [exact Hn|].
      intro x. rewrite (Hin x), in_app_iff. simpl. tauto.
Qed.

Lemma uniq_spec (l : list str) : NoDup (uniq l) /\ forall x, In x (uniq l) <-> In x l.
Proof.
  destruct (uniq_loop l [] (NoDup_nil _)) as [Hn Hin]. split; [exact Hn|].
  intro x. unfold uniq. rewrite (Hin x). simpl. tauto.
Qed.

(** [X21] The focus view, whenever [analyzeInflowsOutflows] returns: the
    inflow cells are the formula-bearing entries inside the focus area that
    have a precedent outside it and in scope, the outflow cells those that
    have such a dependent, both in the order of the graph; the outside
    precedents are those precedents of the formula-bearing entries inside the
    focus area that lie outside it and in scope, each listed once, and
    likewise the outside dependents; the standard groups are those of
    [analyzeInputsOutputs]. *)
Theorem analyzeInflowsOutflows_groups (dependencies : DepMap) (scope : AnalysisScope)
    (colors : FlowColors) (focus : FocusArea) (r : FocusAnalysisResult) :
  focusArea scope = Some focus ->
  analyzeInflowsOutflows dependencies scope colors = Some r ->
  analyzeInputsOutputs dependencies scope colors = Some (standardAnalysis r) /\
  groupCells (inflows r) = map fst (filter (inflowEntry focus scope) dependencies) /\
  groupCells (outflows r) = map fst (filter (outflowEntry focus scope) dependencies) /\
  NoDup (groupCells (outsidePrecedents r)) /\
  NoDup (groupCells (outsideDependents r)) /\
  (forall p, In p (groupCells (outsidePrecedents r)) <->
     exists e, In e dependencies /\ insideFormula focus e = true /\
               In p (precedents (snd e)) /\ outsideTest focus scope p = true) /\
  (forall d, In d (groupCells (outsideDependents r)) <->
     exists e, In e dependencies /\ insideFormula focus e = true /\
               In d (dependents (snd e)) /\ outsideTest focus scope d = true).
Proof.
  intros Hfocus H. unfold analyzeInflowsOutflows in H. rewrite Hfocus in H.
  destruct (focusLoop focus scope dependencies (mkFocusBuckets [] [] [] []))
    as [b|] eqn:Eloop; [|discriminate H].
  destruct (analyzeInputsOutputs dependencies scope colors) as [standard|];
    [|discriminate H].
  inversion H; subst r. clear H.
  destruct (focusLoop_spec _ _ _ _ _ Eloop) as (H1 & H2 & H3 & H4).
  simpl in H1, H2, H3, H4.
  unfold groupCells. cbn [standardAnalysis inflows outflows outsidePrecedents
                          outsideDependents map cells concat].
  rewrite !List.app_nil_r, H1, H2, H3, H4.
  destruct (uniq_spec (flat_map (fun e => filter (outsideTest focus scope)
                                            (precedents (snd e)))
                                (filter (insideFormula focus) dependencies)))
    as [Hn1 Hi1].
  destruct (uniq_spec (flat_map (fun e => filter (outsideTest focus scope)
                                            (dependents (snd e)))
                                (filter (insideFormula focus) dependencies)))
    as [Hn2 Hi2].
  repeat (split; [first [reflexivity | assumption]|]).
  split.
  - intro p. rewrite (Hi1 p), in_flat_map. split.
    + intros (e & He & Hp). apply filter_In in He, Hp.
      exists e. tauto.
    + intros (e & He & Hf & Hp & Ho). exists e.
      split; apply filter_In; tauto.
  - intro d. rewrite (Hi2 d), in_flat_map. split.
    + intros (e & He & Hd). apply filter_In in He, Hd.
      exists e. tauto.
    + intros (e & He & Hf & Hd & Ho). exists e.
      split; apply filter_In; tauto.
Qed.

Lemma analyzeInflowsOutflows_groups_witness :
  exists r,
    analyzeInflowsOutflows focusGraph focusScope noColors = Some r /\
    groupCells (inflows r) = [s "In!A1"] /\
    groupCells (outflows r) = [s "In!A1"].
Proof.
  destruct (analyzeInflowsOutflows focusGraph focusScope noColors) as [r|] eqn:E;
    [|vm_compute in E; discriminate E].
  exists r. split; [reflexivity|].
  destruct (analyzeInflowsOutflows_groups focusGraph focusScope noColors
              (mkFocus (Some (s "In")) None) r eq_refl E)
    as (_ & H1 & H2 & _).
  rewrite H1, H2. split; vm_compute; reflexivity.
Defined.

Lemma filterThrow_none (f : str -> option bool) (l : list str) :
  (forall x, f x = Some false) -> filterThrow f l = Some [].
Proof.
  intro H. induction l as [|x l IH]; [reflexivity|]. simpl. now rewrite H, IH.
Qed.

Lemma isInFocusArea_open (focus : FocusArea) (address : str) :
  focusSheetName focus = None -> focusRangeAddress focus = None ->
  isInFocusArea address focus = Some true.
Proof. intros H1 H2. unfold isInFocusArea. now rewrite H1, H2. Qed.

Lemma focusLoop_open (focus : FocusArea) (scope : AnalysisScope) (entries : DepMap) :
  focusSheetName focus = None -> focusRangeAddress focus = None ->
  forall b, focusLoop focus scope entries b = Some b.
Proof.
  intros H1 H2.
  assert (Hout : forall p, outsideFocus focus scope p = Some false).
  { intro p. unfold outsideFocus. now rewrite isInFocusArea_open. }
  induction entries as [|[address info] entries IH]; intro b; [reflexivity|].
  cbn [focusLoop]. unfold focusEntry.
  destruct (formula info); [apply IH|].
  rewrite isInFocusArea_open by assumption.
  rewrite !filterThrow_none by exact Hout. apply IH.
Qed.

(** [X22] With a focus area that names neither a sheet nor a range every
    cell is inside it: the focus view returns whenever the standard analysis
    does, with the standard groups and with no inflow, no outflow, no outside
    precedent and no outside dependent. *)
Theorem analyzeInflowsOutflows_open (dependencies : DepMap) (scope : AnalysisScope)
    (colors : FlowColors) (focus : FocusArea) (standard : FlowAnalysisResult) :
  focusArea scope = Some focus ->
  focusSheetName focus = None -> focusRangeAddress focus = None ->
  analyzeInputsOutputs dependencies scope colors = Some standard ->
  exists r,
    analyzeInflowsOutflows dependencies scope colors = Some r /\
    standardAnalysis r = standard /\
    groupCells (inflows r) = [] /\ groupCells (outflows r) = [] /\
    groupCells (outsidePrecedents r) = [] /\ groupCells (outsideDependents r) = [].
Proof.
  intros Hfocus H1 H2 Hstd. unfold analyzeInflowsOutflows.
  rewrite Hfocus, (focusLoop_open focus scope dependencies H1 H2), Hstd.
  eexists. split; [reflexivity|]. repeat split.
Qed.

Lemma analyzeInflowsOutflows_open_witness :
  exists r,
    analyzeInflowsOutflows focusGraph openFocusScope noColors = Some r /\
    groupCells (inflows r) = [] /\ groupCells (outflows r) = [].
Proof.
  destruct (analyzeInputsOutputs focusGraph openFocusScope noColors) as [st|] eqn:E;
    [|vm_compute in E; discriminate E].
  destruct (analyzeInflowsOutflows_open focusGraph openFocusScope noColors
              (mkFocus None None) st eq_refl eq_refl eq_refl E)
    as (r & Hr & _ & Hin & Hout & _).
  exists r. split; [exact Hr | split; assumption].
Defined.

Lemma focusLoop_returns (focus : FocusArea) (scope : AnalysisScope) (entries : DepMap) :
  scopeType scope <> Range -> focusRangeAddress focus = None ->
  forall b, exists b', focusLoop focus scope entries b = Some b'.
Proof.
  intros Hs Hr.
  assert (Hin : forall a, exists v, isInFocusArea a focus = Some v).
  { intro a. unfold isInFocusArea. rewrite Hr.
    destruct (match focusSheetName focus with Some (c :: n) => _ | _ => false end);
      eexists; reflexivity. }
  assert (Hout : forall p, outsideFocus focus scope p <> None).
  { intro p. unfold outsideFocus. destruct (Hin p) as [[|] ->]; [discriminate|].
    now apply isInScope_returns. }
  induction entries as [|[address info] entries IH]; intro b; cbn [focusLoop];
    [now eexists|].
  unfold focusEntry. destruct (formula info); [apply IH|].
  destruct (Hin address) as [[|] ->]; [|apply IH].
  destruct (filterThrow_total _ (precedents info) Hout) as (P & ->).
  destruct (filterThrow_total _ (dependents info) Hout) as (D & ->).
  apply IH.
Qed.

(** [X23] [analyzeFlow] returns whenever the first pass has scanned the
    scope, the scope is a workbook or a worksheet, and the focus area, if
    there is one, names no range: neither the second pass nor the
    classification nor the focus view throws; the result is the focus view
    exactly when the scope has a focus area. *)
Theorem analyzeFlow_returns (host : Host) (scope : AnalysisScope) (colors : FlowColors)
    (scanned : DepMap) :
  firstPass host scope = Some scanned ->
  scopeType scope <> Range ->
  (forall focus, focusArea scope = Some focus -> focusRangeAddress focus = None) ->
  match focusArea scope with
  | Some _ => exists r, analyzeFlow host scope colors = Some (inr r)
  | None => exists r, analyzeFlow host scope colors = Some (inl r)
  end.
Proof.
  intros Hfirst Hs Hfocus. unfold analyzeFlow, buildDependencyGraph.
  rewrite Hfirst. destruct (secondPass_returns scanned) as (g & ->).
  assert (Hstd : exists st, analyzeInputsOutputs g scope colors = Some st).
  { unfold analyzeInputsOutputs.
    destruct (classifyLoop_returns g scope g Hs (mkBuckets [] [] [] [])) as (b & ->).
    eexists. reflexivity. }
  destruct Hstd as (st & Hst).
  destruct (focusArea scope) as [focus|] eqn:Ef.
  - unfold analyzeInflowsOutflows. rewrite Ef.
    destruct (focusLoop_returns focus scope g Hs (Hfocus focus eq_refl)
                (mkFocusBuckets [] [] [] [])) as (b & ->).
    rewrite Hst. eexists. reflexivity.
  - rewrite Hst. eexists. reflexivity.
Qed.

Lemma analyzeFlow_returns_witness :
  exists r, analyzeFlow dataHost dataScope noColors = Some (inl r).
Proof.
  apply (analyzeFlow_returns dataHost dataScope noColors
           [ (s "Data!A1", mkInfo [s "Data!B1"; s "Data!B1"] [] (s "=B1+B1"));
             (s "Data!A2", mkInfo [s "Data!A1"] [] (s "=A1"));
             (s "Data!B2", mkInfo [s "Other!C3"; s "Data!A1"] [] (s "=Other!C3*A1")) ]).
  - vm_compute. reflexivity.
  - discriminate.
  - intros focus H. discriminate H.
Defined.

(** ** More on addresses *)

Lemma starGreedy_letters_fail (rest : str) :
  forall (pos : nat) (caps : list (nat * str)) (k : Cont),
    (forall st, match ms_rest st with
                | d :: _ => isDigit d = false
                | [] => True
                end -> k st = None) ->
    letterThenDigit rest = false ->
    match rest with d :: _ => isDigit d = false | [] => True end ->
    starGreedy isLetter rest pos caps k = None.
Proof.
  induction rest as [|c rest IH]; intros pos caps k Hk Hfree Hhead.
  - simpl. apply Hk. exact I.
  - cbn [starGreedy].
    assert (Hhere : k (mkState (c :: rest) pos caps) = None) by (apply Hk; exact Hhead).
    destruct (isLetter c) eqn:Ec; [|exact Hhere].
    rewrite IH; [exact Hhere | exact Hk | |].
    + simpl in Hfree. destruct rest as [|d rest]; [reflexivity|].
      apply orb_false_iff in Hfree. tauto.
    + simpl in Hfree. destruct rest as [|d rest]; [exact I|].
      apply orb_false_iff in Hfree. destruct Hfree as [Hcd _].
      rewrite Ec in Hcd. exact Hcd.
Qed.

Lemma searchFrom_reAddress_fail (rest : str) :
  forall pos, letterThenDigit rest = false -> searchFrom reAddress rest pos = None.
Proof.
  induction rest as [|c rest IH]; intros pos Hfree; [reflexivity|].
  cbn [searchFrom].
  assert (Htail : letterThenDigit rest = false).
  { simpl in Hfree. destruct rest as [|d rest]; [reflexivity|].
    apply orb_false_iff in Hfree. tauto. }
  assert (Hhere : matchHere reAddress (c :: rest) pos = None).
  { unfold matchHere, reAddress, Plus. cbn [matcher ms_rest ms_pos ms_caps].
    destruct (isLetter c) eqn:Ec; [|reflexivity].
    apply starGreedy_letters_fail; [| exact Htail |].
    - intros st Hst. cbn [ms_rest ms_pos ms_caps].
      destruct (ms_rest st) as [|d r]; [reflexivity|]. now rewrite Hst.
    - simpl in Hfree. destruct rest as [|d rest]; [exact I|].
      apply orb_false_iff in Hfree. destruct Hfree as [Hcd _].
      rewrite Ec in Hcd. exact Hcd. }
  rewrite Hhere. apply IH. exact Htail.
Qed.

(** [X24] [addressToCoords] throws on every text in which no letter is
    directly followed by a digit: a column range such as [A:A], a name, a
    number, and also an absolute address such as [$A$1], whose digits come
    after a dollar sign. *)
Theorem addressToCoords_throws (address : str) :
  letterThenDigit address = false -> addressToCoords address = None.
Proof.
  intro H. unfold addressToCoords, regexMatch.
  now rewrite searchFrom_reAddress_fail.
Qed.

Lemma addressToCoords_throws_witness : addressToCoords (s "$A$1") = None.
Proof. apply addressToCoords_throws. reflexivity. Defined.

(** [X25] [getCellAddress] on a range text that begins with the address of
    row [r] and column [c], alone or followed by a colon and the other
    corner, returns the address of row [r + rowOffset] and column
    [c + colOffset]. *)
Theorem getCellAddress_offset (r c rowOffset colOffset : Z) (rest : str) :
  0 <= r <= maxSafeInteger -> 1 <= c <= maxSafeInteger ->
  - maxSafeInteger <= r + rowOffset <= maxSafeInteger ->
  - maxSafeInteger <= c + colOffset <= maxSafeInteger ->
  rest = [] \/ (exists corner, rest = ":"%char :: corner) ->
  getCellAddress (coordinatesToAddress r c ++ rest) rowOffset colOffset =
  Some (coordinatesToAddress (r + rowOffset) (c + colOffset)).
Proof.
  intros [Hr _] [Hc _] _ _ Hrest. unfold getCellAddress.
  assert (Hbase : nth 0 (split ":" (coordinatesToAddress r c ++ rest)) [] =
                  coordinatesToAddress r c).
  { destruct Hrest as [->|(corner & ->)].
    - rewrite List.app_nil_r, split_without; [reflexivity|].
      apply coordinatesToAddress_no; [lia | reflexivity ..].
    - unfold split. rewrite split_aux_at; [reflexivity|].
      apply coordinatesToAddress_no; [lia | reflexivity ..]. }
  cbv zeta. rewrite Hbase, addressToCoords_coordinatesToAddress_aux by lia.
  reflexivity.
Qed.

Lemma getCellAddress_offset_witness :
  getCellAddress (s "B2:D9") 3 25 = Some (s "AA5").
Proof.
  apply (getCellAddress_offset 2 2 3 25 (s ":D9")); try (unfold maxSafeInteger; lia).
  right. exists (s "D9"). reflexivity.
Defined.

(** [X26] What the first pass records: the keys are distinct, and every
    entry has a key made of the sheet name, an exclamation mark and an
    address written from coordinates (so without dollar signs), a formula
    text that begins with the equals sign, the precedents extracted from that
    text for that sheet, and no dependents yet. *)
Theorem firstPass_entries (host : Host) (scope : AnalysisScope) (scanned : DepMap) :
  firstPass host scope = Some scanned ->
  NoDup (keys scanned) /\
  forall key info, In (key, info) scanned ->
    dependents info = [] /\
    startsWith (s "=") (formula info) = true /\
    exists (sheet : str) (r c : Z),
      key = sheet ++ s "!" ++ coordinatesToAddress r c /\
      precedents info = extractPrecedents (formula info) sheet.
Proof.
  intro Hfirst.
  destruct (firstPass_scanned host scope scanned Hfirst) as (Hk & Hf).
  split; [exact Hk|].
  intros key info Hin. rewrite Forall_forall in Hf.
  exact (Hf (key, info) Hin).
Qed.

Lemma firstPass_entries_witness :
  NoDup (keys [ (s "Data!A1", mkInfo [s "Data!B1"; s "Data!B1"] [] (s "=B1+B1"));
                (s "Data!A2", mkInfo [s "Data!A1"] [] (s "=A1"));
                (s "Data!B2", mkInfo [s "Other!C3"; s "Data!A1"] [] (s "=Other!C3*A1")) ]).
Proof.
  apply (firstPass_entries dataHost dataScope). vm_compute. reflexivity.
Defined.

(** ** The arguments of a call *)

Lemma split_aux_nonempty (sep : ascii) (x : str) :
  forall cur, split_aux sep cur x <> [].
Proof.
  induction x as [|c x IH]; intro cur; simpl; [discriminate|].
  destruct (chr_eqb c sep); [discriminate | apply IH].
Qed.

Lemma splitArguments_loop_plain (rest : str) :
  forall prev args cur stringChar,
    plainText rest ->
    splitArguments_loop rest prev args cur 0 false stringChar =
    (args ++ map trim (removelast (split_aux "," cur rest)),
     last (split_aux "," cur rest) []).
Proof.
  induction rest as [|c rest IH]; intros prev args cur stringChar Hplain.
  - simpl. now rewrite List.app_nil_r.
  - inversion Hplain as [|? ? (Hq & H1 & H2 & H3 & H4) Hrest]; subst.
    cbn [splitArguments_loop split_aux]. rewrite Hq, H1, H2, H3, H4.
    cbn [orb]. change (0 =? 0) with true. rewrite andb_true_r.
    destruct (chr_eqb c ",") eqn:Ec.
    + rewrite IH by exact Hrest.
      pose proof (split_aux_nonempty "," rest []) as Hne.
      destruct (split_aux "," [] rest) as [|piece pieces] eqn:Es; [congruence|].
      cbn [removelast last map]. rewrite <- app_assoc. reflexivity.
    + apply IH. exact Hrest.
Qed.

(** [X27] On a text without quotes, parentheses and braces, [splitArguments]
    is the split at the commas with every piece trimmed, except that a last
    piece that is blank is dropped (a blank piece before a comma is kept, as
    an empty argument). *)
Theorem splitArguments_plain (argsString : str) :
  plainText argsString ->
  splitArguments argsString =
  map trim (removelast (split "," argsString)) ++
  match trim (last (split "," argsString) []) with
  | [] => []
  | c :: a => [c :: a]
  end.
Proof.
  intro Hplain. unfold splitArguments.
  rewrite splitArguments_loop_plain by exact Hplain.
  fold (split "," argsString).
  change ([] ++ map trim (removelast (split "," argsString)))
    with (map trim (removelast (split "," argsString))).
  destruct (trim (last (split "," argsString) []));
    [now rewrite List.app_nil_r | reflexivity].
Qed.

Lemma splitArguments_plain_witness :
  splitArguments (s "A1, ,B2 , ") = [s "A1"; []; s "B2"].
Proof.
  apply (splitArguments_plain (s "A1, ,B2 , ")).
  repeat constructor.
Defined.

(** ** The closing parenthesis of a call *)

Lemma findMatchingParen_loop_balanced (inner post : str) :
  forall (i : nat) (prev : ascii) (depth : Z) (stringChar : ascii),
    Forall (fun c => FormulaParser.isQuote c = false) inner ->
    1 <= depth ->
    (forall n, 0 <= depth - 1 + parenDepth (firstn n inner)) ->
    depth - 1 + parenDepth inner = 0 ->
    findMatchingParen_loop (inner ++ ")"%char :: post) i prev depth false stringChar =
    (i + length inner)%nat.
Proof.
  induction inner as [|c inner IH]; intros i prev depth stringChar Hq Hd Hpre Htot.
  - simpl in Htot. cbn [app findMatchingParen_loop length].
    change (FormulaParser.isQuote ")") with false.
    change (chr_eqb ")" "(") with false. change (chr_eqb ")" ")") with true.
    cbv iota. replace (depth - 1 =? 0) with true by (symmetry; apply Z.eqb_eq; lia).
    lia.
  - inversion Hq as [|? ? Hc Hq']; subst.
    assert (Hstep : forall n, parenDepth (firstn (S n) (c :: inner)) =
                      (if chr_eqb c "(" then 1 else if chr_eqb c ")" then -1 else 0)
                      + parenDepth (firstn n inner)) by reflexivity.
    cbn [app findMatchingParen_loop length]. rewrite Hc.
    cbn [parenDepth] in Htot.
    destruct (chr_eqb c "(") eqn:Eo.
    + rewrite IH; [lia | exact Hq' | lia | | lia].
      intro n. specialize (Hpre (S n)). rewrite Hstep in Hpre. lia.
    + destruct (chr_eqb c ")") eqn:Ec.
      * pose proof (Hpre 1%nat) as H1. rewrite Hstep in H1.
        simpl in H1.
        replace (depth - 1 =? 0) with false by (symmetry; apply Z.eqb_neq; lia).
        rewrite IH; [lia | exact Hq' | lia | | lia].
        intro n. specialize (Hpre (S n)). rewrite Hstep in Hpre. lia.
      * rewrite IH; [lia | exact Hq' | lia | | lia].
        intro n. specialize (Hpre (S n)). rewrite Hstep in Hpre. lia.
Qed.

(** [X28] [findMatchingParen] finds the parenthesis that closes the one at
    [openIndex] when the text between them has no quotes and its own
    parentheses match: the result is the index just after that text. *)
Theorem findMatchingParen_balanced (before inner after : str) :
  Forall (fun c => FormulaParser.isQuote c = false) inner ->
  balanced inner ->
  findMatchingParen (before ++ "("%char :: inner ++ ")"%char :: after) (length before) =
  (length before + 1 + length inner)%nat.
Proof.
  intros Hq [Htot Hpre]. unfold findMatchingParen.
  replace (skipn (S (length before)) (before ++ "("%char :: inner ++ ")"%char :: after))
    with (inner ++ ")"%char :: after).
  - rewrite findMatchingParen_loop_balanced; [lia | exact Hq | lia | | lia].
    intro n. specialize (Hpre n). lia.
  - replace (before ++ "("%char :: inner ++ ")"%char :: after)
      with ((before ++ ["("%char]) ++ inner ++ ")"%char :: after)
      by (rewrite <- app_assoc; reflexivity).
    replace (S (length before)) with (length (before ++ ["("%char]))
      by (rewrite length_app; simpl; lia).
    rewrite skipn_app, skipn_all, Nat.sub_diag. reflexivity.
Qed.

Lemma findMatchingParen_balanced_witness :
  findMatchingParen (s "SUM(A1,(B2+1)*2)+3") 3 = 15%nat.
Proof.
  apply (findMatchingParen_balanced (s "SUM") (s "A1,(B2+1)*2") (s "+3")).
  - repeat constructor.
  - split; [reflexivity|].
    intro n. do 12 (destruct n as [|n]; [vm_compute; discriminate|]).
    vm_compute. discriminate.
Defined.

(** ** The classification of a workbook or a worksheet *)

Lemma scanSheets_keys (host : Host) (scope : AnalysisScope) (all : list str) :
  forall (sheets : list str) (m m' : DepMap),
    incl sheets all -> Forall (keyFrom all) m ->
    scanSheets host scope sheets m = Some m' -> Forall (keyFrom all) m'.
Proof.
  induction sheets as [|sheet sheets IH]; intros m m' Hincl Hm H; simpl in H.
  - inversion H; subst. exact Hm.
  - destruct (scanSheet host scope sheet m) as [m1|] eqn:E; [|discriminate H].
    apply (IH m1 m'); [intros x Hx; apply Hincl; now right | | exact H].
    unfold scanSheet in E.
    destruct (loadRange host sheet _) as [range|]; [|discriminate E].
    destruct (baseCoordsOf (rd_address range)) as [base|]; [|discriminate E].
    inversion E; subst. unfold scanRange.
    apply fold_left_invariant; [exact Hm|].
    intros m2 r Hm2. apply fold_left_invariant; [exact Hm2|].
    intros m3 c Hm3. unfold scanCell.
    destruct (cellAt (rd_formulas range) r c) as [[|ch f]|]; try exact Hm3.
    destruct (startsWith (s "=") (ch :: f)); [|exact Hm3].
    apply Forall_mapSet; [exact Hm3|].
    exists sheet, (row base + Z.of_nat r), (col base + Z.of_nat c).
    split; [apply Hincl; now left | reflexivity].
Qed.

Lemma In_mapGet (m : DepMap) (k : str) (v : DepInfo) :
  NoDup (keys m) -> In (k, v) m -> mapGet k m = Some v.
Proof.
  induction m as [|[k' v'] m IH]; intros Hnd Hin; [destruct Hin|].
  simpl in Hnd. inversion Hnd as [|? ? Hnot Hnd']; subst.
  simpl. destruct Hin as [Heq|Hin].
  - inversion Heq; subst. now rewrite str_eqb_refl.
  - destruct (str_eqb k' k) eqn:E; [|now apply IH].
    apply str_eqb_eq in E. subst k'. exfalso. apply Hnot.
    change k with (fst (k, v)). now apply in_map.
Qed.

(** The keys of the graph are distinct when the first pass has scanned the
    scope. *)
Lemma secondPass_keys (host : Host) (scope : AnalysisScope) (scanned g : DepMap) :
  firstPass host scope = Some scanned -> secondPass scanned = Some g ->
  NoDup (keys g).
Proof.
  intros Hfirst Hg.
  destruct (firstPass_scanned host scope scanned Hfirst) as (Hk & Hf).
  assert (H0 : exactDependents (referrers (firstn 0 scanned)) scanned).
  { split; [exact Hk|]. split; [|reflexivity].
    intros y iy Hy. apply mapGet_In in Hy.
    rewrite Forall_forall in Hf. destruct (Hf _ Hy) as [Hd _]. exact Hd. }
  now destruct (reverseLoop_exact _ _ _ _ Hg H0) as (Hkg & _).
Qed.

(** An entry of the graph that carries a formula has the key of a scanned
    entry. *)
Lemma secondPass_formula_scanned (scanned g : DepMap) (k : str) (info : DepInfo) :
  secondPass scanned = Some g -> In (k, info) g -> formula info <> [] ->
  exists e, In e scanned /\ fst e = k.
Proof.
  intros Hg Hin Hf.
  assert (Hv0 : visited 0 scanned) by (intros j x i Hj; lia).
  destruct (reverseLoop_result _ _ _ _ Hg Hv0) as (_ & (extra & Hsh & Hleaf) & _).
  assert (Hs : In (k, (precedents info, formula info)) (shape g)).
  { unfold shape. apply in_map_iff. exists (k, info). split; [reflexivity | exact Hin]. }
  rewrite Hsh in Hs. apply in_app_or in Hs. destruct Hs as [Hs|Hs].
  - unfold shape in Hs. apply in_map_iff in Hs. destruct Hs as (e & He & Hine).
    exists e. split; [exact Hine|]. now inversion He.
  - rewrite Forall_forall in Hleaf. specialize (Hleaf _ Hs).
    unfold leaf in Hleaf. simpl in Hleaf. inversion Hleaf. congruence.
Qed.

Lemma isInScope_scanned (host : Host) (scope : AnalysisScope) (scanned : DepMap)
    (e : str * DepInfo) :
  firstPass host scope = Some scanned ->
  scopeType scope <> Range ->
  (forall n, sheetName scope = Some n -> Forall (fun c => chr_eqb c "!" = false) n) ->
  In e scanned -> isInScope (fst e) scope = Some true.
Proof.
  intros Hfirst Hs Hname Hin. unfold isInScope.
  destruct (scopeType scope) eqn:Et; [reflexivity | | congruence].
  unfold firstPass, sheetsOf in Hfirst. rewrite Et in Hfirst.
  destruct (sheetName scope) as [n|] eqn:En; [|discriminate Hfirst].
  simpl in Hfirst.
  assert (Hkeys : Forall (keyFrom [n]) scanned).
  { apply (scanSheets_keys host scope [n] [n] [] scanned);
      [apply incl_refl | constructor | exact Hfirst]. }
  rewrite Forall_forall in Hkeys.
  destruct (Hkeys e Hin) as (sheet & r & c & [<-|[]] & Hk).
  rewrite Hk. change (n ++ s "!" ++ coordinatesToAddress r c)
    with (n ++ "!"%char :: coordinatesToAddress r c).
  unfold split. rewrite split_aux_at by (apply Hname; reflexivity).
  simpl. now rewrite str_eqb_refl.
Qed.

(** [X29] The classification of a workbook, or of a worksheet whose name
    holds no exclamation mark, without focus area: when the first pass has
    scanned the scope, [analyzeFlow] returns the four standard groups; they
    hold the formula-bearing addresses of the graph and nothing else, each
    once; every address in them is in scope; and each is in the group the
    rule names: with [P] its precedents and [D] its dependents that are in
    scope and carry formula text, the orphans if both are empty, the inputs
    if only [D] is not, the outputs if only [P] is not, the calculations
    otherwise. *)
Theorem analyzeFlow_partition (host : Host) (scope : AnalysisScope)
    (colors : FlowColors) (scanned : DepMap) :
  firstPass host scope = Some scanned ->
  scopeType scope <> Range ->
  focusArea scope = None ->
  (forall n, sheetName scope = Some n -> Forall (fun c => chr_eqb c "!" = false) n) ->
  exists g r,
    buildDependencyGraph host scope = Some g /\
    analyzeFlow host scope colors = Some (inl r) /\
    let all := groupCells (inputs r) ++ groupCells (calculations r) ++
               groupCells (outputs r) ++ groupCells (orphans r) in
    NoDup all /\
    (forall address, In address all <->
       exists info, mapGet address g = Some info /\ formula info <> []) /\
    (forall address, In address all -> isInScope address scope = Some true) /\
    (forall address info,
       mapGet address g = Some info -> formula info <> [] ->
       match filter (flowEdge g scope) (precedents info),
             filter (flowEdge g scope) (dependents info) with
       | [], [] => In address (groupCells (orphans r))
       | [], _ :: _ => In address (groupCells (inputs r))
       | _ :: _, [] => In address (groupCells (outputs r))
       | _ :: _, _ :: _ => In address (groupCells (calculations r))
       end).
Proof.
  intros Hfirst Hs Hfocus Hname.
  destruct (secondPass_returns scanned) as (g & Hg).
  pose proof (secondPass_keys host scope scanned g Hfirst Hg) as Hnd.
  destruct (analyzeInputsOutputs_partition g scope colors Hnd) as [Hret Hgroups].
  destruct (Hret Hs) as (r & Hr).
  exists g, r.
  split; [unfold buildDependencyGraph; now rewrite Hfirst|].
  split.
  { unfold analyzeFlow, buildDependencyGraph. now rewrite Hfirst, Hg, Hfocus, Hr. }
  destruct (Hgroups r Hr) as (Hperm & Hall & Hrule). cbv zeta in *.
  assert (Hin : forall address,
            In address (groupCells (inputs r) ++ groupCells (calculations r) ++
                        groupCells (outputs r) ++ groupCells (orphans r)) <->
            exists info, In (address, info) g /\ formula info <> []).
  { intro address. split.
    - intro H. apply (Permutation_in _ Hperm) in H.
      apply in_map_iff in H. destruct H as ([k info] & Hk & Hf).
      apply filter_In in Hf. destruct Hf as [Hf Hb]. simpl in Hk. subst k.
      exists info. split; [exact Hf|].
      unfold formulaBearing in Hb. simpl in Hb. now destruct (formula info).
    - intros (info & Hf & Hb). apply (Permutation_in _ (Permutation_sym Hperm)).
      apply in_map_iff. exists (address, info). split; [reflexivity|].
      apply filter_In. split; [exact Hf|].
      unfold formulaBearing. simpl. now destruct (formula info). }
  split; [exact Hall|]. split; [|split; [|exact Hrule]].
  - intro address. rewrite (Hin address). split.
    + intros (info & Hf & Hb). exists info. split; [now apply In_mapGet | exact Hb].
    + intros (info & Hf & Hb). exists info. split; [now apply mapGet_In | exact Hb].
  - intros address H. apply Hin in H. destruct H as (info & Hf & Hb).
    destruct (secondPass_formula_scanned scanned g address info Hg Hf Hb)
      as (e & He & <-).
    now apply (isInScope_scanned host scope scanned e).
Qed.

Lemma analyzeFlow_partition_witness :
  exists g r,
    buildDependencyGraph dataHost dataScope = Some g /\
    analyzeFlow dataHost dataScope noColors = Some (inl r) /\
    NoDup (groupCells (inputs r) ++ groupCells (calculations r) ++
           groupCells (outputs r) ++ groupCells (orphans r)).
Proof.
  destruct (analyzeFlow_partition dataHost dataScope noColors
              [ (s "Data!A1", mkInfo [s "Data!B1"; s "Data!B1"] [] (s "=B1+B1"));
                (s "Data!A2", mkInfo [s "Data!A1"] [] (s "=A1"));
                (s "Data!B2", mkInfo [s "Other!C3"; s "Data!A1"] [] (s "=Other!C3*A1")) ])
    as (g & r & Hg & Hr & Hall & _).
  - vm_compute. reflexivity.
  - discriminate.
  - reflexivity.
  - intros n Hn. inversion Hn; subst. repeat constructor.
  - exists g, r. split; [exact Hg|]. split; [exact Hr | exact Hall].
Defined.
